(** * SimpleVector: a shallow embedding of [simple_vector.h]

    The header defines a dynamic array [SimpleVector<Type>] over a
    heap block owned by an [ArrayPtr<Type>].  The embedding keeps the
    three data members of the class, a heap of blocks addressed by
    locations, and a result type that separates a normal return from a
    thrown [std::out_of_range] and from undefined behaviour (a load or
    a store outside a live block, an invalid iterator range).

    Conventions of the model.
    - [size_t] is [N]; the arithmetic the class performs on it
      ([2 * capacity_], [++size_], [--size_]) wraps modulo [2^64].
    - A [Type*] is a pair of the block it points into and an offset.
      Forming a pointer is harmless; only loads and stores are checked.
    - Element values behave like scalars: moving from a slot copies the
      value and leaves the slot as it was, so [std::move] and
      [std::copy] over ranges coincide.
    - A parameter of type [const Type&] or [Type&&] is a reference: a
      temporary of the caller or the address of an lvalue, read where
      the body of the callee uses it and not when the call is made.
    - [std::move(first, last, value)] with an element value in the
      place of the destination, as the size constructors and [Resize]
      call it, is well-formed only for an element type that is itself
      an output iterator.  The model is of such an instantiation, and
      of one whose writes through an element value fall outside the
      blocks of vectors: [std_move_to_value] reads the range and
      writes nothing to the heap.
    - [new Type[n]] always succeeds; allocation failure is outside the
      model.
    - [assert] is compiled out ([NDEBUG]): where an [assert] of the
      source fails, a build with assertions aborts, and the model goes
      on as the build without them does. *)

From stdpp Require Import base numbers option list gmap.

Local Open Scope N_scope.

(** ** [size_t] *)

Definition size_t := N.

Definition SIZE_MODULUS : N := 2 ^ 64.

Definition wrap (n : N) : size_t := n mod SIZE_MODULUS.

(** [++x] and [--x] on a [size_t]. *)
Definition incr (n : size_t) : size_t := wrap (n + 1).
Definition decr (n : size_t) : size_t := wrap (n + (SIZE_MODULUS - 1)).

(** ** Outcomes *)

Inductive result (A : Type) : Type :=
| Ok (a : A)
| OutOfRange
| Undefined.
Arguments Ok {A} a.
Arguments OutOfRange {A}.
Arguments Undefined {A}.

(** Heap locations, and heaps of blocks of elements. *)
Abbreviation loc := positive.
Abbreviation heap T := (gmap positive (list T)).

(** [raw_ptr_]: the start of a block, or [nullptr]. *)
Definition ArrayPtr := option loc.

(** A [Type*]: a block and an offset into it. *)
Record ptr := Ptr { base : ArrayPtr; off : size_t }.

Definition ptr_add (p : ptr) (k : N) : ptr := Ptr (base p) (off p + k).

#[global] Instance ptr_eq_dec : EqDecision ptr.
Proof. solve_decision. Defined.

Record ReserveProxyObj := { capacity_to_reserve_ : size_t }.

(** The free function [Reserve(capacity_to_reserve)]. *)
Definition Reserve_proxy (capacity_to_reserve : size_t) : ReserveProxyObj :=
  {| capacity_to_reserve_ := capacity_to_reserve |}.

Record SimpleVector := MkVec {
  size_ : size_t;
  capacity_ : size_t;
  items_ : ArrayPtr
}.

#[global] Instance SimpleVector_eq_dec : EqDecision SimpleVector.
Proof. solve_decision. Defined.

Section Model.

Context {T : Type}.
(** [Type()], [operator==] and [operator<] of the element type. *)
Variable T_default : T.
Variable T_eq : T → T → bool.
Variable T_lt : T → T → bool.

(** ** The heap and the monad of member functions *)

Definition M (A : Type) : Type := heap T → result (A * heap T).

Definition ret {A} (a : A) : M A := λ h, Ok (a, h).

Definition bind {A B} (m : M A) (k : A → M B) : M B :=
  λ h, match m h with
       | Ok (a, h') => k a h'
       | OutOfRange => OutOfRange
       | Undefined => Undefined
       end.

(** What a run returned, without the heap. *)
Definition returned {A} (r : result (A * heap T)) : option A :=
  match r with
  | Ok (a, _) => Some a
  | _ => None
  end.

Definition throw_out_of_range {A} : M A := λ _, OutOfRange.
Definition undefined {A} : M A := λ _, Undefined.

#[global] Instance M_ret : MRet M := @ret.
#[global] Instance M_bind : MBind M := λ A B k m, bind m k.

(** [new Type[n]()] and [delete[]]. *)
Definition alloc (b : list T) : M loc :=
  λ h, let l := fresh (dom h) in Ok (l, <[l := b]> h).

Definition free (l : loc) : M unit :=
  λ h, match h !! l with
       | Some _ => Ok (tt, delete l h)
       | None => Undefined
       end.

(** Reading through a pointer and assigning through it. *)
Definition load (p : ptr) : M T :=
  λ h, match base p with
       | Some l =>
           match h !! l with
           | Some b =>
               match b !! N.to_nat (off p) with
               | Some x => Ok (x, h)
               | None => Undefined
               end
           | None => Undefined
           end
       | None => Undefined
       end.

Definition store (p : ptr) (x : T) : M unit :=
  λ h, match base p with
       | Some l =>
           match h !! l with
           | Some b =>
               if decide (N.to_nat (off p) < length b)%nat
               then Ok (tt, <[l := <[N.to_nat (off p) := x]> b]> h)
               else Undefined
           | None => Undefined
           end
       | None => Undefined
       end.

(** An argument bound to a parameter of type [const Type&] or
    [Type&&]: a temporary of the caller, which lies in no block, or an
    lvalue named by its address.  Nothing is read when the reference is
    bound; the callee reads it where its body uses it. *)
Inductive reference :=
| Temporary (x : T)
| Lvalue (p : ptr).

Definition read (r : reference) : M T :=
  match r with
  | Temporary x => ret x
  | Lvalue p => load p
  end.

(** ** Algorithms of the standard library over pointer ranges *)

(** [last - first] for a valid range [first, last). *)
Definition distance (first last : ptr) : M N :=
  if decide (base first = base last ∧ off first ≤ off last)
  then ret (off last - off first)
  else undefined.

(** The loop of [std::move] and [std::copy]: the element at [first] goes
    to [d_first], and both advance, until [first] reaches [last]. *)
Fixpoint move_loop (k : nat) (first d_first : ptr) : M unit :=
  match k with
  | O => ret tt
  | S k' =>
      x ← load first;
      store d_first x;;
      move_loop k' (ptr_add first 1) (ptr_add d_first 1)
  end.

Definition std_move (first last d_first : ptr) : M unit :=
  n ← distance first last;
  move_loop (N.to_nat n) first d_first.

Definition std_copy (first last d_first : ptr) : M unit :=
  std_move first last d_first.

(** [std::copy(init.begin(), init.end(), d_first)] from an initializer list. *)
Fixpoint copy_init (init : list T) (d_first : ptr) : M unit :=
  match init with
  | [] => ret tt
  | x :: init' => store d_first x;; copy_init init' (ptr_add d_first 1)
  end.

(** The loop of [std::move_backward]: while [first != last], decrement
    [last] and [d_last] and move the element at [last] to [d_last].
    Here [last = first + k] and [d_last = d_first + k]. *)
Fixpoint move_backward_loop (k : nat) (first d_first : ptr) : M unit :=
  match k with
  | O => ret tt
  | S k' =>
      x ← load (ptr_add first (N.of_nat k'));
      store (ptr_add d_first (N.of_nat k')) x;;
      move_backward_loop k' first d_first
  end.

Definition std_move_backward (first last d_last : ptr) : M unit :=
  n ← distance first last;
  if decide (n ≤ off d_last)
  then move_backward_loop (N.to_nat n) first (Ptr (base d_last) (off d_last - n))
  else undefined.

(** [std::move(first, last, x)] where the third argument is an element
    VALUE, as the size constructors and [Resize] call it.  The third
    parameter of the algorithm is the destination: every element of
    [first, last) is read and moved into what the temporary copy of [x]
    designates.  Nothing is written to the range itself.  The call is
    well-formed only when the element type is an output iterator; what
    a write through [x] does is then up to that type, and is taken
    here to fall outside the heap of blocks (for an element type that
    is a raw pointer it would be a store through [x], through
    [nullptr] when [x] is [Type()]). *)
Fixpoint move_out_loop (k : nat) (first : ptr) : M unit :=
  match k with
  | O => ret tt
  | S k' => _ ← load first; move_out_loop k' (ptr_add first 1)
  end.

Definition std_move_to_value (first last : ptr) (x : T) : M unit :=
  n ← distance first last;
  move_out_loop (N.to_nat n) first.

(** [std::equal(first1, last1, first2)] *)
Fixpoint equal_loop (k : nat) (first1 first2 : ptr) : M bool :=
  match k with
  | O => ret true
  | S k' =>
      x ← load first1;
      y ← load first2;
      if T_eq x y
      then equal_loop k' (ptr_add first1 1) (ptr_add first2 1)
      else ret false
  end.

Definition std_equal (first1 last1 first2 : ptr) : M bool :=
  n ← distance first1 last1;
  equal_loop (N.to_nat n) first1 first2.

(** [std::lexicographical_compare(first1, last1, first2, last2)]:
    [k1] and [k2] are the lengths of what is left of each range. *)
Fixpoint lexicographical_loop (k1 k2 : nat) (first1 first2 : ptr) : M bool :=
  match k1, k2 with
  | S k1', S k2' =>
      x ← load first1;
      y ← load first2;
      if T_lt x y then ret true
      else if T_lt y x then ret false
      else lexicographical_loop k1' k2' (ptr_add first1 1) (ptr_add first2 1)
  | O, S _ => ret true
  | _, O => ret false
  end.

Definition std_lexicographical_compare (first1 last1 first2 last2 : ptr) : M bool :=
  n1 ← distance first1 last1;
  n2 ← distance first2 last2;
  lexicographical_loop (N.to_nat n1) (N.to_nat n2) first1 first2.

(** ** [ArrayPtr] *)

(** Modelled from the spec: [array_ptr.h] is not part of the sources.
    "Construct(capacity): allocates a block of capacity
    default-initialized elements (capacity 0 allowed, yields an
    empty/null block)". *)
Definition ArrayPtr_new (size : size_t) : M ArrayPtr :=
  if decide (size = 0) then ret None
  else l ← alloc (replicate (N.to_nat size) T_default); ret (Some l).

(** Modelled from the spec: [array_ptr.h] is not part of the sources.
    "Release/Destroy: on destruction, frees the owned block, if any". *)
Definition ArrayPtr_delete (p : ArrayPtr) : M unit :=
  match p with
  | Some l => free l
  | None => ret tt
  end.

(** Modelled from the spec: [array_ptr.h] is not part of the sources.
    "Get(): returns the raw start of the block (or null if capacity is
    0); never bounds-checked". *)
Definition Get (p : ArrayPtr) : ptr := Ptr p 0.

(** Modelled from the spec: [array_ptr.h] is not part of the sources.
    [&items_[index]], the unchecked address of a slot. *)
Definition slot (p : ArrayPtr) (index : size_t) : ptr := Ptr p index.

(** ** Constructors *)

Definition GetSize (v : SimpleVector) : size_t := size_ v.
Definition GetCapacity (v : SimpleVector) : size_t := capacity_ v.
Definition IsEmpty (v : SimpleVector) : bool := bool_decide (size_ v = 0).

Definition begin (v : SimpleVector) : ptr := Get (items_ v).
Definition end_ (v : SimpleVector) : ptr := slot (items_ v) (size_ v).
Definition cbegin := begin.
Definition cend := end_.

(** [SimpleVector() noexcept = default] *)
Definition SimpleVector_default : SimpleVector := MkVec 0 0 None.

(** [explicit SimpleVector(size_t size)] *)
Definition SimpleVector_size (size : size_t) : M SimpleVector :=
  items ← ArrayPtr_new size;
  let this := MkVec size size items in
  std_move_to_value (begin this) (end_ this) T_default;;
  ret this.

(** [SimpleVector(size_t size, const Type& value)] *)
Definition SimpleVector_fill (size : size_t) (value : T) : M SimpleVector :=
  items ← ArrayPtr_new size;
  let this := MkVec size size items in
  std_move_to_value (begin this) (end_ this) value;;
  ret this.

(** [SimpleVector(std::initializer_list<Type> init)] *)
Definition SimpleVector_init (init : list T) : M SimpleVector :=
  let n := N.of_nat (length init) in
  items ← ArrayPtr_new n;
  let this := MkVec n n items in
  copy_init init (begin this);;
  ret this.

(** [SimpleVector(const SimpleVector& other)] *)
Definition SimpleVector_copy (other : SimpleVector) : M SimpleVector :=
  items ← ArrayPtr_new (size_ other);
  let this := MkVec (size_ other) (capacity_ other) items in
  std_copy (begin other) (end_ other) (begin this);;
  ret this.

(** [SimpleVector(SimpleVector&& other)]: the new object and what is
    left of [other].  The move constructor of [ArrayPtr] is modelled
    from the spec ("ownership transferred; source left empty"): the
    source is left with [nullptr]. *)
Definition SimpleVector_move (other : SimpleVector) : SimpleVector * SimpleVector :=
  (MkVec (size_ other) (capacity_ other) (items_ other), MkVec 0 0 None).

(** [SimpleVector(ReserveProxyObj reserve_proxy_obj)]: the members are
    initialised in declaration order, so [items_(size_)] sees [size_ = 0]. *)
Definition SimpleVector_reserve (reserve_proxy_obj : ReserveProxyObj) : M SimpleVector :=
  let size := 0 in
  items ← ArrayPtr_new size;
  ret (MkVec size (capacity_to_reserve_ reserve_proxy_obj) items).

(** [~SimpleVector()], implicit: destroys [items_]. *)
Definition SimpleVector_destroy (v : SimpleVector) : M unit :=
  ArrayPtr_delete (items_ v).

(** ** Member functions *)

(** [Type& operator[](size_t index) noexcept], unchecked. *)
Definition operator_index (v : SimpleVector) (index : size_t) : ptr :=
  slot (items_ v) index.

(** [Type& At(size_t index)] *)
Definition At (v : SimpleVector) (index : size_t) : M ptr :=
  if decide (size_ v ≤ index) then throw_out_of_range
  else ret (operator_index v index).

Definition Clear (v : SimpleVector) : SimpleVector :=
  MkVec 0 (capacity_ v) (items_ v).

(** [void swap(SimpleVector& other) noexcept]: the two sizes, the two
    capacities and, through [ArrayPtr::swap] (modelled from the spec:
    "exchanges owned blocks between two instances"), the two blocks. *)
Definition swap (this other : SimpleVector) : SimpleVector * SimpleVector :=
  (other, this).

(** [void Reserve(size_t new_capacity)] *)
Definition Reserve (v : SimpleVector) (new_capacity : size_t) : M SimpleVector :=
  if decide (capacity_ v ≤ new_capacity) then
    new_items ← ArrayPtr_new new_capacity;
    std_move (begin v) (end_ v) (Get new_items);;
    (* items_.swap(new_items); new_items is destroyed at the end of the block *)
    ArrayPtr_delete (items_ v);;
    ret (MkVec (size_ v) new_capacity new_items)
  else ret v.

(** [void Resize(size_t new_size)] *)
Definition Resize (v : SimpleVector) (new_size : size_t) : M SimpleVector :=
  if decide (new_size < size_ v) then
    ret (MkVec new_size (capacity_ v) (items_ v))
  else if decide (new_size ≤ capacity_ v) then
    std_move_to_value (end_ v) (slot (items_ v) (capacity_ v)) T_default;;
    ret (MkVec new_size (capacity_ v) (items_ v))
  else
    v' ← Reserve v (N.max new_size (wrap (2 * capacity_ v)));
    std_move_to_value (slot (items_ v') (size_ v')) (slot (items_ v') new_size) T_default;;
    ret (MkVec new_size (capacity_ v') (items_ v')).

(** [void PushBack(const Type& item)]; the overload taking [Type&&] has
    the same body.  [item] is a reference: in the second branch it is
    read after [Reserve] has moved the elements and freed the old
    block. *)
Definition PushBack (v : SimpleVector) (item : reference) : M SimpleVector :=
  v' ← (if decide (size_ v < capacity_ v) then
          x ← read item;
          store (slot (items_ v) (size_ v)) x;; ret v
        else
          v' ← Reserve v (N.max 1 (wrap (2 * capacity_ v)));
          x ← read item;
          store (slot (items_ v') (size_ v')) x;; ret v');
  ret (MkVec (incr (size_ v')) (capacity_ v') (items_ v')).

(** [void PopBack() noexcept] in a build with [NDEBUG]: the
    [assert(!IsEmpty())] is compiled out, the test that follows it is
    not.  On a non-empty vector the [assert] holds and every build
    does the same; on an empty vector a build with assertions aborts,
    where this function returns the vector unchanged. *)
Definition PopBack (v : SimpleVector) : SimpleVector :=
  if negb (IsEmpty v) then MkVec (decr (size_ v)) (capacity_ v) (items_ v)
  else v.

(** [size_t VectorMoveRigth(ConstIterator pos)] *)
Definition VectorMoveRigth (v : SimpleVector) (pos : ptr) : M (size_t * SimpleVector) :=
  number_pos ← distance (cbegin v) pos;
  v' ← (if decide (size_ v < capacity_ v) then
          std_move_backward (slot (items_ v) number_pos) (end_ v)
                            (slot (items_ v) (wrap (size_ v + 1)));;
          ret v
        else if decide (capacity_ v = 0) then
          Reserve v 1
        else
          v' ← Reserve v (wrap (2 * capacity_ v));
          std_move_backward (slot (items_ v') number_pos) (end_ v')
                            (slot (items_ v') (wrap (size_ v' + 1)));;
          ret v');
  ret (number_pos, MkVec (incr (size_ v')) (capacity_ v') (items_ v')).

(** [Iterator Insert(ConstIterator pos, const Type& value)]; the
    overload taking [Type&&] has the same body.  [value] is a
    reference: it is read after [VectorMoveRigth] has shifted the
    elements, or has moved them to a new block and freed the old one. *)
Definition Insert (v : SimpleVector) (pos : ptr) (value : reference) : M (ptr * SimpleVector) :=
  '(number_pos, v') ← VectorMoveRigth v pos;
  x ← read value;
  store (slot (items_ v') number_pos) x;;
  ret (slot (items_ v') number_pos, v').

(** [Iterator Erase(ConstIterator pos)]; the [assert] is compiled out:
    with [pos = end()] the range [it + 1, end()) is not a range. *)
Definition Erase (v : SimpleVector) (pos : ptr) : M (ptr * SimpleVector) :=
  n ← distance (cbegin v) pos;
  let it := slot (items_ v) n in
  std_move (ptr_add it 1) (end_ v) it;;
  ret (it, MkVec (decr (size_ v)) (capacity_ v) (items_ v)).

(** ** Comparison operators *)

Definition operator_eq (lhs rhs : SimpleVector) : M bool :=
  if decide (GetSize lhs = GetSize rhs)
  then std_equal (begin lhs) (end_ lhs) (begin rhs)
  else ret false.

Definition operator_ne (lhs rhs : SimpleVector) : M bool :=
  b ← operator_eq lhs rhs; ret (negb b).

Definition operator_lt (lhs rhs : SimpleVector) : M bool :=
  std_lexicographical_compare (begin lhs) (end_ lhs) (begin rhs) (end_ rhs).

Definition operator_le (lhs rhs : SimpleVector) : M bool :=
  b ← operator_lt rhs lhs; ret (negb b).

Definition operator_gt (lhs rhs : SimpleVector) : M bool :=
  operator_lt rhs lhs.

Definition operator_ge (lhs rhs : SimpleVector) : M bool :=
  b ← operator_gt rhs lhs; ret (negb b).

(** ** Objects, assignment and client programs

    The assignment operators compare the addresses of their operands,
    so they are stated over a store of objects. *)

Abbreviation addr := nat.
Abbreviation objects := (gmap nat SimpleVector).

(** [SimpleVector& operator=(const SimpleVector& rhs)] *)
Definition operator_assign (this rhs : addr) (σ : objects) : M objects :=
  if decide (this ≠ rhs) then
    match σ !! this, σ !! rhs with
    | Some v, Some r =>
        tmp ← SimpleVector_copy r;
        let '(v', tmp') := swap v tmp in
        SimpleVector_destroy tmp';;
        ret (<[this := v']> σ)
    | _, _ => undefined
    end
  else ret σ.

(** [SimpleVector& operator=(SimpleVector&& rhs)] *)
Definition operator_assign_move (this rhs : addr) (σ : objects) : M objects :=
  if decide (this ≠ rhs) then
    match σ !! this, σ !! rhs with
    | Some v, Some r =>
        let '(tmp, r') := SimpleVector_move r in
        let '(v', tmp') := swap v tmp in
        SimpleVector_destroy tmp';;
        ret (<[this := v']> (<[rhs := r']> σ))
    | _, _ => undefined
    end
  else ret σ.

(** The public operations, as statements of a client program.  An
    object is named by its address; [pos] arguments are arbitrary
    pointers, and the arguments of [PushBack] and [Insert] arbitrary
    references: temporaries, or lvalues anywhere in the heap, the
    elements of the vector itself included. *)
Inductive command :=
| NewDefault (a : addr)
| NewSize (a : addr) (size : size_t)
| NewFill (a : addr) (size : size_t) (value : T)
| NewInit (a : addr) (init : list T)
| NewCopy (a other : addr)
| NewMove (a other : addr)
| NewReserve (a : addr) (capacity_to_reserve : size_t)
| Assign (a rhs : addr)
| AssignMove (a rhs : addr)
| DoClear (a : addr)
| DoResize (a : addr) (new_size : size_t)
| DoPushBack (a : addr) (item : reference)
| DoInsert (a : addr) (pos : ptr) (value : reference)
| DoPopBack (a : addr)
| DoErase (a : addr) (pos : ptr)
| DoSwap (a other : addr)
| DoReserve (a : addr) (new_capacity : size_t).

(** Declaring the object [a] with the value a constructor returns. *)
Definition declare (a : addr) (σ : objects) (ctor : M SimpleVector) : M objects :=
  match σ !! a with
  | None => v ← ctor; ret (<[a := v]> σ)
  | Some _ => undefined
  end.

(** Calling a member function on the live object [a]. *)
Definition call (a : addr) (σ : objects) (f : SimpleVector → M SimpleVector) : M objects :=
  match σ !! a with
  | Some v => v' ← f v; ret (<[a := v']> σ)
  | None => undefined
  end.

Definition exec (c : command) (σ : objects) : M objects :=
  match c with
  | NewDefault a => declare a σ (ret SimpleVector_default)
  | NewSize a size => declare a σ (SimpleVector_size size)
  | NewFill a size value => declare a σ (SimpleVector_fill size value)
  | NewInit a init => declare a σ (SimpleVector_init init)
  | NewCopy a other =>
      match σ !! other with
      | Some o => declare a σ (SimpleVector_copy o)
      | None => undefined
      end
  | NewMove a other =>
      match σ !! a, σ !! other with
      | None, Some o =>
          let '(v, o') := SimpleVector_move o in
          ret (<[a := v]> (<[other := o']> σ))
      | _, _ => undefined
      end
  | NewReserve a n => declare a σ (SimpleVector_reserve (Reserve_proxy n))
  | Assign a rhs => operator_assign a rhs σ
  | AssignMove a rhs => operator_assign_move a rhs σ
  | DoClear a => call a σ (λ v, ret (Clear v))
  | DoResize a new_size => call a σ (λ v, Resize v new_size)
  | DoPushBack a item => call a σ (λ v, PushBack v item)
  | DoInsert a pos value => call a σ (λ v, r ← Insert v pos value; ret (snd r))
  | DoPopBack a => call a σ (λ v, ret (PopBack v))
  | DoErase a pos => call a σ (λ v, r ← Erase v pos; ret (snd r))
  | DoSwap a other =>
      match σ !! a, σ !! other with
      | Some v, Some o =>
          let '(v', o') := swap v o in
          ret (<[a := v']> (<[other := o']> σ))
      | _, _ => undefined
      end
  | DoReserve a new_capacity => call a σ (λ v, Reserve v new_capacity)
  end.

Fixpoint run (cs : list command) (σ : objects) : M objects :=
  match cs with
  | [] => ret σ
  | c :: cs' => σ' ← exec c σ; run cs' σ'
  end.

(** ** What a vector holds *)

(** The block an [ArrayPtr] owns; [nullptr] owns the empty block. *)
Definition block_of (h : heap T) (p : ArrayPtr) : option (list T) :=
  match p with
  | Some l => h !! l
  | None => Some []
  end.

(** The elements of [v]: the first [size_] slots of its block. *)
Definition elements (h : heap T) (v : SimpleVector) : option (list T) :=
  b ← block_of h (items_ v);
  if decide (N.to_nat (size_ v) ≤ length b)%nat
  then Some (take (N.to_nat (size_ v)) b) else None.

(** The data-structure invariant the class intends: the block has
    exactly [capacity_] slots, [size_] of them in use, and the capacity
    is a [size_t]. *)
Definition wf (h : heap T) (v : SimpleVector) : Prop :=
  ∃ b, block_of h (items_ v) = Some b
       ∧ N.of_nat (length b) = capacity_ v
       ∧ size_ v ≤ capacity_ v
       ∧ capacity_ v < SIZE_MODULUS.

(** What every reachable vector satisfies: the block has at least
    [size_] and at most [capacity_] slots. *)
Definition vec_ok (h : heap T) (v : SimpleVector) : Prop :=
  ∃ b, block_of h (items_ v) = Some b
       ∧ size_ v ≤ N.of_nat (length b)
       ∧ N.of_nat (length b) ≤ capacity_ v.

(** ** The words of the specification *)

(** [k] consecutive calls of [PushBack], one per item, each item a
    temporary. *)
Fixpoint PushBack_all (v : SimpleVector) (items : list T) : M SimpleVector :=
  match items with
  | [] => ret v
  | item :: items' => v' ← PushBack v (Temporary item); PushBack_all v' items'
  end.

(** The reference [item] does not point into the block [p]. *)
Definition outside (p : ArrayPtr) (item : reference) : Prop :=
  match item with
  | Temporary _ => True
  | Lvalue q => base q ≠ p
  end.

(** The doubling-from-1 chain 0, 1, 2, 4, 8, ... *)
Definition in_chain (c : N) : Prop := c = 0 ∨ ∃ e, c = 2 ^ e.

(** [c] is the smallest value of the chain that is at least [k]. *)
Definition least_in_chain (k c : N) : Prop :=
  in_chain c ∧ k ≤ c ∧ ∀ c', in_chain c' → k ≤ c' → c ≤ c'.

(** The invariant in the words of the specification: [size_ <=
    capacity_], the slots of [size_, capacity_) exist in the block, and
    each of them holds a default-initialized value. *)
Definition spec_invariant (h : heap T) (v : SimpleVector) : Prop :=
  size_ v ≤ capacity_ v
  ∧ ∃ b, block_of h (items_ v) = Some b
         ∧ capacity_ v ≤ N.of_nat (length b)
         ∧ ∀ i, size_ v ≤ i → i < capacity_ v → b !! N.to_nat i = Some T_default.

(** Two sequences are equal element by element: the sizes agree and
    so do the elements at every index. *)
Definition same_elements (xs ys : list T) : Prop :=
  length xs = length ys
  ∧ ∀ i x y, xs !! i = Some x → ys !! i = Some y → T_eq x y = true.

(** The lexicographic order on sequences: at the first position where
    the two differ under [<], the left one is smaller; or the left one
    is a proper prefix of the right one. *)
Inductive lexicographic : list T → list T → Prop :=
| lex_prefix y ys : lexicographic [] (y :: ys)
| lex_less x y xs ys : T_lt x y = true → lexicographic (x :: xs) (y :: ys)
| lex_next x y xs ys :
    T_lt x y = false → T_lt y x = false → lexicographic xs ys →
    lexicographic (x :: xs) (y :: ys).

(** A heap step that only writes inside the block of [p]: other blocks
    are untouched and no block changes its length. *)
Definition preserves (p : ArrayPtr) (h h' : heap T) : Prop :=
  ∀ l, (p ≠ Some l → h' !! l = h !! l)
       ∧ length <$> h' !! l = length <$> h !! l.

(** The block of [v], when there is one, has exactly [capacity_]
    slots, and the capacity is a [size_t]. *)
Definition exact (h : heap T) (v : SimpleVector) : Prop :=
  ∀ b, block_of h (items_ v) = Some b →
       N.of_nat (length b) = capacity_ v ∧ capacity_ v < SIZE_MODULUS.

Definition state_exact (σ : objects) (h : heap T) : Prop :=
  ∀ a v, σ !! a = Some v → exact h v.

(** Statements that pass [size_t] arguments and use neither a copy
    (construction or assignment) nor a reservation hint. *)
Definition copy_free (c : command) : Prop :=
  match c with
  | NewCopy _ _ | Assign _ _ | NewReserve _ _ => False
  | NewSize _ n | NewFill _ n _ | DoResize _ n | DoReserve _ n => n < SIZE_MODULUS
  | NewInit _ init => N.of_nat (length init) < SIZE_MODULUS
  | _ => True
  end.

(** A call on a vector whose block is [p] and ends up [p']: blocks of
    other owners are untouched, and [p'] is [p] or newly allocated. *)
Definition evolves (p p' : ArrayPtr) (h h' : heap T) : Prop :=
  (∀ l, p ≠ Some l → p' ≠ Some l → h' !! l = h !! l)
  ∧ (∀ l, p' = Some l → p = Some l ∨ h !! l = None).

(** The invariant of a whole program state: every object is [vec_ok]
    and no two objects share a block. *)
Definition state_ok (σ : objects) (h : heap T) : Prop :=
  (∀ a v, σ !! a = Some v → vec_ok h v)
  ∧ (∀ a1 a2 v1 v2 l, σ !! a1 = Some v1 → σ !! a2 = Some v2 →
       items_ v1 = Some l → items_ v2 = Some l → a1 = a2).

(** A computation that never ends in a thrown [std::out_of_range]. *)
Definition never_throws {A} (m : M A) : Prop := ∀ h, m h ≠ OutOfRange.

(** A call on a vector whose block goes from [p] to [p'] leaves no
    block behind: what is live afterwards is [p'] or was live before
    and is not the old block of the vector, unless it still is [p']. *)
Definition tight (p p' : ArrayPtr) (h h' : heap T) : Prop :=
  ∀ l, is_Some (h' !! l) → p' = Some l ∨ (p ≠ Some l ∧ is_Some (h !! l)).

(** Every live block is the block of some object. *)
Definition all_owned (σ : objects) (h : heap T) : Prop :=
  ∀ l, is_Some (h !! l) → ∃ a v, σ !! a = Some v ∧ items_ v = Some l.

(** * Lemmas *)

(** ** [size_t] arithmetic *)

Lemma wrap_small n : n < SIZE_MODULUS → wrap n = n.
Proof. intros. unfold wrap. by apply N.mod_small. Qed.

Lemma wrap_le n : wrap n ≤ n.
Proof. unfold wrap. apply N.Div0.mod_le. Qed.

Lemma wrap_lt n : wrap n < SIZE_MODULUS.
Proof. unfold wrap. apply N.mod_lt. by compute. Qed.

Lemma incr_le n : incr n ≤ n + 1.
Proof. apply wrap_le. Qed.

Lemma incr_small n : n + 1 < SIZE_MODULUS → incr n = n + 1.
Proof. apply wrap_small. Qed.

Lemma decr_lt n : n ≠ 0 → decr n < n.
Proof.
  intros Hn. unfold decr, wrap.
  replace (n + (SIZE_MODULUS - 1)) with ((n - 1) + 1 * SIZE_MODULUS).
  - rewrite N.Div0.mod_add. pose proof (N.Div0.mod_le (n - 1) SIZE_MODULUS). lia.
  - unfold SIZE_MODULUS. lia.
Qed.

Lemma decr_small n : n ≠ 0 → n < SIZE_MODULUS → decr n = n - 1.
Proof.
  intros Hn Hlt. unfold decr, wrap.
  replace (n + (SIZE_MODULUS - 1)) with ((n - 1) + 1 * SIZE_MODULUS).
  - rewrite N.Div0.mod_add. apply N.mod_small. lia.
  - unfold SIZE_MODULUS. lia.
Qed.

(** ** The monad *)

Lemma bind_run {A B} (m : M A) (k : A → M B) h a h' :
  m h = Ok (a, h') → (m ≫= k) h = k a h'.
Proof. intros E. unfold mbind, M_bind, bind. by rewrite E. Qed.

Lemma bind_Ok_inv {A B} (m : M A) (k : A → M B) h r :
  (m ≫= k) h = Ok r → ∃ a h', m h = Ok (a, h') ∧ k a h' = Ok r.
Proof.
  unfold mbind, M_bind, bind.
  destruct (m h) as [[a h']| |]; [eauto | done | done].
Qed.

Lemma bind_Undefined {A B} (m : M A) (k : A → M B) h :
  m h = Undefined → (m ≫= k) h = Undefined.
Proof. intros E. unfold mbind, M_bind, bind. by rewrite E. Qed.

Lemma ret_run {A} (a : A) h : ret a h = Ok (a, h).
Proof. done. Qed.

(** Splitting a successful run at its first bind. *)
Tactic Notation "bind_inv" hyp(H) :=
  let a := fresh "a" in
  let h := fresh "h" in
  let E := fresh "E" in
  apply bind_Ok_inv in H as (a & h & E & H).

Lemma ret_Ok_inv {A} (a a' : A) h h' : ret a h = Ok (a', h') → a' = a ∧ h' = h.
Proof. by intros [= -> ->]. Qed.

Tactic Notation "ret_inv" hyp(H) :=
  apply ret_Ok_inv in H as [-> ->].

Tactic Notation "bind_inv" hyp(H) "as" ident(E) :=
  let a := fresh "a" in
  let h := fresh "h" in
  apply bind_Ok_inv in H as (a & h & E & H).

(** ** Loads and stores *)

Lemma load_Ok p h b x :
  block_of h (base p) = Some b → b !! N.to_nat (off p) = Some x →
  load p h = Ok (x, h).
Proof.
  unfold load, block_of. destruct (base p) as [l|].
  - intros -> ->. done.
  - intros [= <-]. done.
Qed.

Lemma load_inv p h x h' :
  load p h = Ok (x, h') →
  h' = h ∧ ∃ l b, base p = Some l ∧ h !! l = Some b ∧ b !! N.to_nat (off p) = Some x.
Proof.
  unfold load. destruct (base p) as [l|]; [|done].
  destruct (h !! l) as [b|] eqn:Hb; [|done].
  destruct (b !! _) as [y|] eqn:Hy; [|done].
  intros [= <- <-]. eauto 10.
Qed.

Lemma read_inv r h x h' : read r h = Ok (x, h') → h' = h.
Proof.
  destruct r as [y|p]; simpl.
  - by intros [_ ->]%ret_Ok_inv.
  - by intros [-> _]%load_inv.
Qed.

Lemma read_Temporary x h : read (Temporary x) h = Ok (x, h).
Proof. done. Qed.

Lemma read_cases r h : (∃ x, read r h = Ok (x, h)) ∨ read r h = Undefined.
Proof.
  destruct r as [y|p]; simpl; [left; by exists y|].
  unfold load. destruct (base p) as [l|]; [|by right].
  destruct (h !! l) as [b|]; [|by right].
  destruct (b !! _) as [x|]; [left; by exists x | by right].
Qed.

(** A read that succeeded succeeds again, with the same value, in a
    heap that has the same block at the place read. *)
Lemma read_stable r h h' x :
  read r h = Ok (x, h) →
  (∀ p l, r = Lvalue p → base p = Some l → h' !! l = h !! l) →
  read r h' = Ok (x, h').
Proof.
  destruct r as [y|p]; simpl.
  - by intros [-> _]%ret_Ok_inv.
  - intros (_ & l & b & Hl & Hb & Hx)%load_inv Hsame.
    eapply load_Ok; [|done]. rewrite Hl. simpl. by rewrite (Hsame p l).
Qed.

Lemma store_Ok p x h l b :
  base p = Some l → h !! l = Some b → (N.to_nat (off p) < length b)%nat →
  store p x h = Ok (tt, <[l := <[N.to_nat (off p) := x]> b]> h).
Proof.
  intros Hp Hl Hlt. unfold store. rewrite Hp, Hl.
  by destruct (decide _).
Qed.

Lemma store_inv p x h u h' :
  store p x h = Ok (u, h') →
  ∃ l b, base p = Some l ∧ h !! l = Some b ∧ (N.to_nat (off p) < length b)%nat
         ∧ h' = <[l := <[N.to_nat (off p) := x]> b]> h.
Proof.
  unfold store. destruct (base p) as [l|]; [|done].
  destruct (h !! l) as [b|] eqn:Hb; [|done].
  destruct (decide _); [|done].
  intros [= <- <-]. eauto 10.
Qed.

Lemma store_null p x h : base p = None → store p x h = Undefined.
Proof. unfold store. by intros ->. Qed.

(** ** Heap steps that keep the shape *)

Lemma preserves_refl p h : preserves p h h.
Proof. by intros l. Qed.

Lemma preserves_trans p h1 h2 h3 :
  preserves p h1 h2 → preserves p h2 h3 → preserves p h1 h3.
Proof.
  intros H12 H23 l. destruct (H12 l) as [Ha Hb], (H23 l) as [Hc Hd]. split.
  - intros Hne. by rewrite Hc, Ha.
  - by rewrite Hd, Hb.
Qed.

Lemma store_preserves p x h u h' :
  store p x h = Ok (u, h') → preserves (base p) h h'.
Proof.
  intros (l & b & Hp & Hl & Hlt & ->)%store_inv l'. rewrite Hp. split.
  - intros Hne. rewrite lookup_insert_ne; [done | congruence].
  - destruct (decide (l = l')) as [<-|Hne].
    + rewrite lookup_insert_eq, Hl. simpl. by rewrite length_insert.
    + by rewrite lookup_insert_ne.
Qed.

Lemma move_loop_preserves k first d_first h u h' :
  move_loop k first d_first h = Ok (u, h') → preserves (base d_first) h h'.
Proof.
  revert first d_first h. induction k as [|k IH]; intros first d_first h H; simpl in H.
  - injection H as <- <-. apply preserves_refl.
  - bind_inv H. apply load_inv in E as [-> _].
    bind_inv H. apply store_preserves in E.
    apply IH in H. simpl in H. by eapply preserves_trans.
Qed.

Lemma move_backward_loop_preserves k first d_first h u h' :
  move_backward_loop k first d_first h = Ok (u, h') → preserves (base d_first) h h'.
Proof.
  revert h. induction k as [|k IH]; intros h H; simpl in H.
  - injection H as <- <-. apply preserves_refl.
  - bind_inv H. apply load_inv in E as [-> _].
    bind_inv H. apply store_preserves in E. simpl in E.
    apply IH in H. by eapply preserves_trans.
Qed.

Lemma copy_init_preserves init d_first h u h' :
  copy_init init d_first h = Ok (u, h') → preserves (base d_first) h h'.
Proof.
  revert d_first h. induction init as [|x init IH]; intros d_first h H; simpl in H.
  - injection H as <- <-. apply preserves_refl.
  - bind_inv H. apply store_preserves in E.
    apply IH in H. simpl in H. by eapply preserves_trans.
Qed.

Lemma move_out_loop_inv k first h u h' :
  move_out_loop k first h = Ok (u, h') → h' = h.
Proof.
  revert first h. induction k as [|k IH]; intros first h H; simpl in H.
  - by injection H as <- <-.
  - bind_inv H. apply load_inv in E as [-> _]. by apply IH in H.
Qed.

Lemma distance_inv first last h n h' :
  distance first last h = Ok (n, h') →
  h' = h ∧ base first = base last ∧ off first ≤ off last ∧ n = off last - off first.
Proof.
  unfold distance. destruct (decide _) as [[? ?]|]; [|done].
  by intros [= <- <-].
Qed.

Lemma distance_Ok first last h :
  base first = base last → off first ≤ off last →
  distance first last h = Ok (off last - off first, h).
Proof. intros. unfold distance. rewrite decide_True; done. Qed.

Lemma std_move_preserves first last d_first h u h' :
  std_move first last d_first h = Ok (u, h') → preserves (base d_first) h h'.
Proof.
  unfold std_move. intros H. bind_inv H.
  apply distance_inv in E as (-> & _). by eapply move_loop_preserves.
Qed.

Lemma std_move_backward_preserves first last d_last h u h' :
  std_move_backward first last d_last h = Ok (u, h') → preserves (base d_last) h h'.
Proof.
  unfold std_move_backward. intros H. bind_inv H.
  apply distance_inv in E as (-> & _).
  destruct (decide _); [|done].
  by apply move_backward_loop_preserves in H.
Qed.

Lemma std_move_to_value_inv first last x h u h' :
  std_move_to_value first last x h = Ok (u, h') → h' = h.
Proof.
  unfold std_move_to_value. intros H. bind_inv H.
  apply distance_inv in E as (-> & _). by eapply move_out_loop_inv.
Qed.

(** ** Moving a range into another block *)

Lemma move_loop_across k p l' i j b b2 h :
  block_of h p = Some b → p ≠ Some l' → h !! l' = Some b2 →
  (i + k ≤ length b)%nat → (j + k ≤ length b2)%nat →
  move_loop k (Ptr p (N.of_nat i)) (Ptr (Some l') (N.of_nat j)) h
  = Ok (tt, <[l' := take j b2 ++ take k (drop i b) ++ drop (j + k) b2]> h).
Proof.
  revert i j b2 h. induction k as [|k IH]; intros i j b2 h Hb Hne Hb2 Hi Hj; simpl.
  - rewrite Nat.add_0_r, take_drop, insert_id; done.
  - destruct (lookup_lt_is_Some_2 b i) as [x Hx]; [lia|].
    erewrite bind_run; [|eapply load_Ok; [exact Hb | simpl; by rewrite Nat2N.id]].
    erewrite bind_run; [|eapply store_Ok; [done | exact Hb2 | simpl; rewrite Nat2N.id; lia]].
    simpl. rewrite Nat2N.id. unfold ptr_add. simpl.
    replace (N.of_nat i + 1) with (N.of_nat (S i)) by lia.
    replace (N.of_nat j + 1) with (N.of_nat (S j)) by lia.
    rewrite (IH (S i) (S j) (<[j := x]> b2)).
    + rewrite insert_insert_eq. f_equal. f_equal. f_equal.
      rewrite (take_S_r _ j x) by (apply list_lookup_insert_eq; lia).
      rewrite take_insert_ge by lia.
      rewrite (drop_S b x i Hx). simpl.
      rewrite drop_insert_lt by lia.
      rewrite <- app_assoc. simpl.
      by replace (j + S k)%nat with (S (j + k)) by lia.
    + destruct p as [l|]; simpl in *; [|done].
      rewrite lookup_insert_ne; [done | congruence].
    + done.
    + apply lookup_insert_eq.
    + lia.
    + rewrite length_insert. lia.
Qed.

Lemma std_move_across p n l' b b2 h :
  block_of h p = Some b → p ≠ Some l' → h !! l' = Some b2 →
  (N.to_nat n ≤ length b)%nat → (N.to_nat n ≤ length b2)%nat →
  std_move (Ptr p 0) (Ptr p n) (Ptr (Some l') 0) h
  = Ok (tt, <[l' := take (N.to_nat n) b ++ drop (N.to_nat n) b2]> h).
Proof.
  intros Hb Hne Hb2 Hn Hn2. unfold std_move.
  erewrite bind_run by (apply distance_Ok; simpl; [done | lia]). simpl.
  rewrite N.sub_0_r. change 0 with (N.of_nat 0).
  by erewrite (move_loop_across _ _ _ 0 0 b).
Qed.

(** ** [ArrayPtr] *)

Lemma ArrayPtr_new_spec n h :
  ∃ p h', ArrayPtr_new n h = Ok (p, h')
          ∧ block_of h' p = Some (replicate (N.to_nat n) T_default)
          ∧ (p = None ↔ n = 0)
          ∧ (∀ l, p = Some l → h !! l = None ∧ h' = <[l := replicate (N.to_nat n) T_default]> h)
          ∧ (p = None → h' = h).
Proof.
  unfold ArrayPtr_new. destruct (decide (n = 0)) as [->|Hn].
  - exists None, h. simpl. repeat split; try done.
  - exists (Some (fresh (dom h))), (<[fresh (dom h) := replicate (N.to_nat n) T_default]> h).
    simpl. split; [done|]. split; [apply lookup_insert_eq|].
    split; [by split|]. split; [|done].
    intros l [= <-]. split; [|done]. apply not_elem_of_dom, is_fresh.
Qed.

Lemma ArrayPtr_delete_Ok p h b :
  block_of h p = Some b →
  ∃ h', ArrayPtr_delete p h = Ok (tt, h')
        ∧ (∀ l, p ≠ Some l → h' !! l = h !! l)
        ∧ (∀ l, p = Some l → h' !! l = None).
Proof.
  destruct p as [l|]; simpl; intros Hb.
  - exists (delete l h). unfold free. rewrite Hb. repeat split.
    + intros l' Hne. rewrite lookup_delete_ne; [done | congruence].
    + intros l' [= <-]. apply lookup_delete_eq.
  - exists h. by repeat split.
Qed.

Lemma ArrayPtr_delete_inv p h u h' :
  ArrayPtr_delete p h = Ok (u, h') →
  (∀ l, p ≠ Some l → h' !! l = h !! l) ∧ (∀ l, p = Some l → h' !! l = None).
Proof.
  destruct p as [l|]; simpl.
  - unfold free. destruct (h !! l); [|done]. intros [= <- <-]. split.
    + intros l' Hne. rewrite lookup_delete_ne; [done | congruence].
    + intros l' [= <-]. apply lookup_delete_eq.
  - intros [= <- <-]. by split.
Qed.

(** ** [Reserve] and the copy constructor *)

Lemma Reserve_grow v n h b :
  block_of h (items_ v) = Some b →
  (N.to_nat (size_ v) ≤ length b)%nat →
  capacity_ v ≤ n → size_ v ≤ n →
  ∃ p h', Reserve v n h = Ok (MkVec (size_ v) n p, h')
          ∧ block_of h' p
            = Some (take (N.to_nat (size_ v)) b
                    ++ replicate (N.to_nat n - N.to_nat (size_ v)) T_default)
          ∧ evolves (items_ v) p h h'.
Proof.
  intros Hb Hlen Hcap Hsz. unfold Reserve. rewrite decide_True by done.
  destruct (ArrayPtr_new_spec n h) as (p & h1 & Hnew & Hp & Hnull & Hfresh & Hsame).
  erewrite bind_run by exact Hnew.
  assert (Hmove : std_move (begin v) (end_ v) (Get p) h1
                  = Ok (tt, match p with
                            | Some l' => <[l' := take (N.to_nat (size_ v)) b
                                   ++ replicate (N.to_nat n - N.to_nat (size_ v)) T_default]> h1
                            | None => h1
                            end)).
  { unfold std_move, begin, end_, Get, slot.
    erewrite bind_run by (apply distance_Ok; simpl; [done | lia]). simpl.
    rewrite N.sub_0_r. destruct p as [l'|].
    - destruct (Hfresh l' eq_refl) as [Hl' ->].
      change 0 with (N.of_nat 0).
      erewrite (move_loop_across _ _ _ 0 0 b).
      + simpl. rewrite drop_replicate. done.
      + destruct (items_ v) as [l|]; simpl in *; [|done].
        rewrite lookup_insert_ne; [done | congruence].
      + destruct (items_ v) as [l|]; simpl in *; congruence.
      + apply lookup_insert_eq.
      + lia.
      + rewrite length_replicate. lia.
    - assert (size_ v = 0) as -> by (destruct Hnull as [Hn _]; specialize (Hn eq_refl); lia).
      done. }
  erewrite bind_run by exact Hmove.
  set (h2 := match p with Some l' => _ | None => h1 end) in *.
  assert (Hold : block_of h2 (items_ v) = Some b).
  { destruct (items_ v) as [l|] eqn:Hl; simpl in *; [|done].
    subst h2. destruct p as [l'|].
    - destruct (Hfresh l' eq_refl) as [Hl' ->].
      rewrite !lookup_insert_ne by congruence. done.
    - by rewrite (Hsame eq_refl). }
  destruct (ArrayPtr_delete_Ok _ _ _ Hold) as (h' & Hdel & Hkeep & Hgone).
  erewrite bind_run by exact Hdel.
  exists p, h'. split; [done|]. split; [|split].
  - destruct p as [l'|]; simpl.
    + destruct (Hfresh l' eq_refl) as [Hl' ->].
      rewrite Hkeep.
      * subst h2. apply lookup_insert_eq.
      * destruct (items_ v) as [l|]; simpl in *; congruence.
    + assert (size_ v = 0) as -> by (destruct Hnull as [Hn _]; specialize (Hn eq_refl); lia).
      destruct Hnull as [Hn _]. rewrite (Hn eq_refl). done.
  - intros l Hne Hne'. rewrite Hkeep by done. subst h2.
    destruct p as [l'|].
    + destruct (Hfresh l' eq_refl) as [Hl' ->].
      rewrite !lookup_insert_ne by congruence. done.
    + by rewrite (Hsame eq_refl).
  - intros l ->. right. by destruct (Hfresh l eq_refl).
Qed.

(** When [Reserve] reallocates, the old block is gone afterwards. *)
Lemma Reserve_frees v n h v' h' l :
  Reserve v n h = Ok (v', h') → capacity_ v ≤ n → items_ v = Some l → h' !! l = None.
Proof.
  intros H Hn Hl. unfold Reserve in H. rewrite decide_True in H by done.
  bind_inv H as Hnew. bind_inv H as Hmv. bind_inv H as Hdel. ret_inv H.
  apply ArrayPtr_delete_inv in Hdel as [_ Hgone]. by apply Hgone.
Qed.

Lemma SimpleVector_copy_Ok other h b :
  block_of h (items_ other) = Some b →
  (N.to_nat (size_ other) ≤ length b)%nat →
  ∃ p h', SimpleVector_copy other h = Ok (MkVec (size_ other) (capacity_ other) p, h')
          ∧ block_of h' p = Some (take (N.to_nat (size_ other)) b)
          ∧ evolves None p h h'.
Proof.
  intros Hb Hlen. unfold SimpleVector_copy.
  destruct (ArrayPtr_new_spec (size_ other) h) as (p & h1 & Hnew & Hp & Hnull & Hfresh & Hsame).
  erewrite bind_run by exact Hnew.
  destruct p as [l'|].
  - destruct (Hfresh l' eq_refl) as [Hl' ->].
    erewrite bind_run.
    2:{ unfold std_copy, begin, end_, Get, slot. simpl.
        apply (std_move_across _ _ _ b).
        + destruct (items_ other) as [l|]; simpl in *; [|done].
          rewrite lookup_insert_ne; [done | congruence].
        + destruct (items_ other) as [l|]; simpl in *; congruence.
        + apply lookup_insert_eq.
        + lia.
        + rewrite length_replicate. lia. }
    simpl. eexists _, _. split; [done|]. split; [|split].
    + simpl. rewrite lookup_insert_eq, drop_replicate, Nat.sub_diag. simpl.
      by rewrite app_nil_r.
    + intros l _ Hne. rewrite !lookup_insert_ne by congruence. done.
    + intros l [= <-]. by right.
  - destruct Hnull as [Hn _]. specialize (Hn eq_refl).
    rewrite (Hsame eq_refl).
    erewrite bind_run.
    2:{ unfold std_copy, std_move, begin, end_, Get, slot. simpl.
        erewrite bind_run by (apply distance_Ok; simpl; [done | lia]).
        simpl. rewrite Hn. done. }
    rewrite Hn. eexists _, _. split; [done|]. split; [done|].
    split; [done|]. intros l [=].
Qed.

(** ** Every member function keeps [vec_ok] and the blocks of others *)

Lemma preserves_block p h h' q b :
  preserves p h h' → block_of h q = Some b →
  ∃ b', block_of h' q = Some b' ∧ length b' = length b.
Proof.
  intros Hp Hb. destruct q as [l|]; simpl in *; [|eauto].
  destruct (Hp l) as [_ Hlen]. rewrite Hb in Hlen.
  destruct (h' !! l) as [b'|]; simplify_eq/=. eauto.
Qed.

Lemma preserves_evolves p h h' : preserves p h h' → evolves p p h h'.
Proof.
  intros Hp. split; [|by left]. intros l Hne _. by destruct (Hp l) as [-> _].
Qed.

Lemma evolves_refl p h : evolves p p h h.
Proof. apply preserves_evolves, preserves_refl. Qed.

Lemma evolves_preserves p p' h h1 h2 :
  evolves p p' h h1 → preserves p' h1 h2 → evolves p p' h h2.
Proof.
  intros [HF HN] Hp. split; [|done].
  intros l Hne Hne'. destruct (Hp l) as [-> _]; auto.
Qed.

Lemma vec_ok_resized h h' v p new_size :
  vec_ok h v → preserves p h h' →
  (∀ b, block_of h (items_ v) = Some b → new_size ≤ N.of_nat (length b)) →
  vec_ok h' (MkVec new_size (capacity_ v) (items_ v)).
Proof.
  intros (b & Hb & Hs & Hc) Hp Hnew.
  destruct (preserves_block _ _ _ _ _ Hp Hb) as (b' & Hb' & Hlen).
  exists b'. simpl. rewrite Hlen. split; [done|]. split; [by apply Hnew | done].
Qed.

Lemma Reserve_ok v n h v' h' :
  vec_ok h v → Reserve v n h = Ok (v', h') →
  vec_ok h' v' ∧ evolves (items_ v) (items_ v') h h'
  ∧ size_ v' = size_ v
  ∧ (capacity_ v ≤ n →
     capacity_ v' = n ∧ ∃ b, block_of h' (items_ v') = Some b ∧ N.of_nat (length b) = n)
  ∧ (n < capacity_ v → v' = v ∧ h' = h).
Proof.
  intros (b & Hb & Hs & Hc) H.
  destruct (decide (capacity_ v ≤ n)) as [Hn|Hn].
  - destruct (Reserve_grow v n h b) as (p & h1 & HR & Hp & Hev); [done | lia | done | lia |].
    rewrite HR in H. injection H as <- <-. simpl.
    assert (Hlen : N.of_nat (length (take (N.to_nat (size_ v)) b
              ++ replicate (N.to_nat n - N.to_nat (size_ v)) T_default)) = n).
    { rewrite length_app, length_take, length_replicate. lia. }
    split; [|split; [done|split; [done|split]]].
    + eexists. split; [exact Hp|]. simpl. rewrite Hlen. lia.
    + intros _. split; [done|]. eauto.
    + lia.
  - unfold Reserve in H. rewrite decide_False in H by done.
    injection H as <- <-. split; [|split; [|split; [|split]]].
    + by exists b.
    + apply evolves_refl.
    + done.
    + lia.
    + done.
Qed.

Lemma push_slot_ok h v item u h' :
  vec_ok h v → store (slot (items_ v) (size_ v)) item h = Ok (u, h') →
  vec_ok h' (MkVec (incr (size_ v)) (capacity_ v) (items_ v))
  ∧ preserves (items_ v) h h'.
Proof.
  intros Hok H. pose proof (store_preserves _ _ _ _ _ H) as Hp. simpl in Hp.
  split; [|done]. eapply vec_ok_resized; [done..|].
  intros b Hb. apply store_inv in H as (l & b0 & Hl & Hb0 & Hlt & _). simpl in *.
  rewrite Hl in Hb. simpl in Hb. simplify_eq. pose proof (incr_le (size_ v)). lia.
Qed.

Lemma PushBack_ok v item h v' h' :
  vec_ok h v → PushBack v item h = Ok (v', h') →
  vec_ok h' v' ∧ evolves (items_ v) (items_ v') h h'.
Proof.
  intros Hok H. unfold PushBack in H. bind_inv H as Hbody. ret_inv H.
  destruct (decide (size_ v < capacity_ v)).
  - bind_inv Hbody as Hrd. apply read_inv in Hrd as ->.
    bind_inv Hbody as Hst. ret_inv Hbody.
    apply push_slot_ok in Hst as [? ?]; [|done].
    split; [done|]. by apply preserves_evolves.
  - bind_inv Hbody as Hres. bind_inv Hbody as Hrd. apply read_inv in Hrd as ->.
    bind_inv Hbody as Hst. ret_inv Hbody.
    apply Reserve_ok in Hres as (Hok1 & Hev & _); [|done].
    apply push_slot_ok in Hst as [? Hp]; [|done].
    split; [done|]. simpl. by eapply evolves_preserves.
Qed.

Lemma move_out_loop_bound k first h u h' :
  move_out_loop k first h = Ok (u, h') →
  k = O ∨ ∃ b, block_of h (base first) = Some b
               ∧ (N.to_nat (off first) + k ≤ length b)%nat.
Proof.
  revert first. induction k as [|k IH]; intros first H; [by left|right].
  simpl in H. bind_inv H as Hld. apply load_inv in Hld as (-> & l & b & Hl & Hb & Hx).
  exists b. rewrite Hl. split; [done|].
  apply lookup_lt_Some in Hx.
  apply IH in H as [->|(b' & Hb' & Hlen)]; [lia|].
  simpl in *. rewrite Hl in Hb'. simpl in Hb'. simplify_eq. lia.
Qed.

Lemma Resize_ok v new_size h v' h' :
  vec_ok h v → Resize v new_size h = Ok (v', h') →
  vec_ok h' v' ∧ evolves (items_ v) (items_ v') h h'.
Proof.
  intros Hok H. unfold Resize in H.
  destruct (decide (new_size < size_ v)) as [Hlt|Hge].
  - ret_inv H. split; [|apply evolves_refl].
    apply (vec_ok_resized h h v None); [done | apply preserves_refl |].
    intros b Hb. destruct Hok as (b0 & Hb0 & ? & ?). simplify_eq. lia.
  - destruct (decide (new_size ≤ capacity_ v)) as [Hle|Hgt].
    + bind_inv H as Hmv. ret_inv H.
      unfold std_move_to_value in Hmv. bind_inv Hmv as Hd.
      apply distance_inv in Hd as (-> & _ & Hoff & ->). simpl in *.
      pose proof (move_out_loop_inv _ _ _ _ _ Hmv) as ->.
      split; [|apply evolves_refl].
      apply (vec_ok_resized h h v None); [done | apply preserves_refl |].
      intros b Hb. apply move_out_loop_bound in Hmv as [Hz|(b0 & Hb0 & Hlen)].
      * destruct Hok as (b1 & Hb1 & ? & ?). simplify_eq. lia.
      * simpl in *. simplify_eq. lia.
    + bind_inv H as Hres. bind_inv H as Hmv. ret_inv H.
      apply std_move_to_value_inv in Hmv as ->.
      apply Reserve_ok in Hres as (Hok1 & Hev & Hsz & Hgrow & _); [|done].
      destruct Hgrow as (Hcap & b & Hb & Hlen).
      { destruct Hok as (b1 & Hb1 & ? & ?). lia. }
      split; [|done]. exists b. simpl. split; [done|]. lia.
Qed.

Lemma move_backward_loop_bound k first d_first h u h' :
  move_backward_loop (S k) first d_first h = Ok (u, h') →
  ∃ b, block_of h (base d_first) = Some b
       ∧ (N.to_nat (off d_first) + k < length b)%nat.
Proof.
  simpl. intros H. bind_inv H as Hld. apply load_inv in Hld as (-> & _).
  bind_inv H as Hst. apply store_inv in Hst as (l & b & Hl & Hb & Hlt & _).
  simpl in *. exists b. rewrite Hl. split; [done|]. lia.
Qed.

Lemma shift_ok v number_pos value h u h1 u' h2 :
  vec_ok h v →
  std_move_backward (slot (items_ v) number_pos) (end_ v)
                    (slot (items_ v) (wrap (size_ v + 1))) h = Ok (u, h1) →
  store (slot (items_ v) number_pos) value h1 = Ok (u', h2) →
  vec_ok h2 (MkVec (incr (size_ v)) (capacity_ v) (items_ v))
  ∧ preserves (items_ v) h h2.
Proof.
  intros Hok Hmb Hst.
  pose proof (std_move_backward_preserves _ _ _ _ _ _ Hmb) as Hp1.
  pose proof (store_preserves _ _ _ _ _ Hst) as Hp2. simpl in *.
  assert (Hp : preserves (items_ v) h h2) by (by eapply preserves_trans).
  split; [|done]. eapply vec_ok_resized; [done..|].
  intros b Hb. unfold std_move_backward in Hmb. bind_inv Hmb as Hd.
  apply distance_inv in Hd as (-> & _ & Hoff & ->). simpl in *.
  destruct (decide _) as [Hdl|]; [|done].
  destruct (N.to_nat (size_ v - number_pos)) as [|k] eqn:Hk.
  - apply store_inv in Hst as (l & b2 & Hl & Hb2 & Hlt & _). simpl in *.
    destruct (preserves_block _ _ _ _ _ Hp1 Hb) as (b' & Hb' & Hlen).
    rewrite Hl in Hb'. simpl in Hb'. simplify_eq.
    pose proof (incr_le (size_ v)). lia.
  - apply move_backward_loop_bound in Hmb as (b2 & Hb2 & Hlt). simpl in *.
    simplify_eq. unfold incr. lia.
Qed.

Lemma Insert_ok v pos value h r h' :
  vec_ok h v → Insert v pos value h = Ok (r, h') →
  vec_ok h' (snd r) ∧ evolves (items_ v) (items_ (snd r)) h h'.
Proof.
  intros Hok H. unfold Insert in H. bind_inv H as Hvm. destruct a as [number_pos v1].
  bind_inv H as Hrd. apply read_inv in Hrd as ->. bind_inv H as Hst. ret_inv H. simpl.
  unfold VectorMoveRigth in Hvm. bind_inv Hvm as Hd.
  apply distance_inv in Hd as (-> & _). bind_inv Hvm as Hbody.
  apply ret_Ok_inv in Hvm as [[= -> ->] ->]. simpl in *.
  destruct (decide (size_ v < capacity_ v)).
  - bind_inv Hbody as Hmb. ret_inv Hbody.
    destruct (shift_ok _ _ _ _ _ _ _ _ Hok Hmb Hst) as [? ?].
    split; [done|]. by apply preserves_evolves.
  - destruct (decide (capacity_ v = 0)) as [Hz|Hnz].
    + apply Reserve_ok in Hbody as (Hok1 & Hev & Hsz & Hgrow & _); [|done].
      destruct Hgrow as (Hcap & b & Hb & Hlen); [lia|].
      pose proof (store_preserves _ _ _ _ _ Hst) as Hp. simpl in Hp.
      split; [|by eapply evolves_preserves].
      eapply vec_ok_resized; [done..|].
      intros b' Hb'. simplify_eq. rewrite Hsz.
      destruct Hok as (b1 & Hb1 & ? & ?).
      assert (size_ v = 0) as -> by lia. rewrite Hlen. by compute.
    + bind_inv Hbody as Hres. bind_inv Hbody as Hmb. ret_inv Hbody.
      apply Reserve_ok in Hres as (Hok1 & Hev & _); [|done].
      destruct (shift_ok _ _ _ _ _ _ _ _ Hok1 Hmb Hst) as [? ?].
      split; [done|]. by eapply evolves_preserves.
Qed.

Lemma Erase_ok v pos h r h' :
  vec_ok h v → Erase v pos h = Ok (r, h') →
  vec_ok h' (snd r) ∧ evolves (items_ v) (items_ (snd r)) h h'.
Proof.
  intros Hok H. unfold Erase in H. bind_inv H as Hd.
  apply distance_inv in Hd as (-> & _). bind_inv H as Hmv. ret_inv H. simpl.
  pose proof (std_move_preserves _ _ _ _ _ _ Hmv) as Hp. simpl in Hp.
  split; [|by apply preserves_evolves].
  eapply vec_ok_resized; [done..|].
  intros b Hb. unfold std_move in Hmv. bind_inv Hmv as Hd.
  apply distance_inv in Hd as (-> & _ & Hoff & _). simpl in Hoff.
  destruct Hok as (b1 & Hb1 & ? & ?). simplify_eq.
  assert (size_ v ≠ 0) by lia. pose proof (decr_lt (size_ v)). lia.
Qed.

Lemma Clear_ok h v : vec_ok h v → vec_ok h (Clear v).
Proof.
  intros Hok. apply (vec_ok_resized h h v None); [done | apply preserves_refl |].
  intros. lia.
Qed.

Lemma PopBack_ok h v : vec_ok h v → vec_ok h (PopBack v) ∧ items_ (PopBack v) = items_ v.
Proof.
  intros Hok. unfold PopBack, IsEmpty. case_bool_decide as Hz; simpl; [done|].
  split; [|done].
  apply (vec_ok_resized h h v None); [done | apply preserves_refl |].
  intros b Hb. destruct Hok as (b1 & Hb1 & ? & ?). simplify_eq.
  pose proof (decr_lt (size_ v)). lia.
Qed.

(** ** Constructors *)

Lemma move_out_loop_Ok k p i b h :
  block_of h p = Some b → (i + k ≤ length b)%nat →
  move_out_loop k (Ptr p (N.of_nat i)) h = Ok (tt, h).
Proof.
  revert i. induction k as [|k IH]; intros i Hb Hlen; simpl; [done|].
  destruct (lookup_lt_is_Some_2 b i) as [x Hx]; [lia|].
  erewrite bind_run; [|eapply load_Ok; [exact Hb | simpl; by rewrite Nat2N.id]].
  unfold ptr_add. simpl. replace (N.of_nat i + 1) with (N.of_nat (S i)) by lia.
  apply IH; [done | lia].
Qed.

Lemma std_move_to_value_Ok p i j x b h :
  block_of h p = Some b → i ≤ j → (N.to_nat j ≤ length b)%nat →
  std_move_to_value (Ptr p i) (Ptr p j) x h = Ok (tt, h).
Proof.
  intros Hb Hij Hj. unfold std_move_to_value.
  erewrite bind_run by (by apply distance_Ok). simpl.
  rewrite <- (N2Nat.id i) at 2. eapply move_out_loop_Ok; [done | lia].
Qed.

Lemma copy_init_Ok init l j b h :
  h !! l = Some b → (j + length init ≤ length b)%nat →
  copy_init init (Ptr (Some l) (N.of_nat j)) h
  = Ok (tt, <[l := take j b ++ init ++ drop (j + length init) b]> h).
Proof.
  revert j b h. induction init as [|x init IH]; intros j b h Hb Hlen; simpl in *.
  - rewrite Nat.add_0_r, take_drop, insert_id; done.
  - erewrite bind_run; [|eapply store_Ok; [done | exact Hb | simpl; rewrite Nat2N.id; lia]].
    simpl. rewrite Nat2N.id. unfold ptr_add. simpl.
    replace (N.of_nat j + 1) with (N.of_nat (S j)) by lia.
    rewrite (IH (S j) (<[j := x]> b)).
    + rewrite insert_insert_eq. do 3 f_equal.
      rewrite (take_S_r _ j x) by (apply list_lookup_insert_eq; lia).
      rewrite take_insert_ge by lia.
      rewrite drop_insert_lt by lia.
      rewrite <- app_assoc. simpl.
      by replace (j + S (length init))%nat with (S j + length init)%nat by lia.
    + apply lookup_insert_eq.
    + rewrite length_insert. lia.
Qed.

Lemma ArrayPtr_new_evolves n h p h' :
  ArrayPtr_new n h = Ok (p, h') →
  block_of h' p = Some (replicate (N.to_nat n) T_default) ∧ evolves None p h h'.
Proof.
  intros H.
  destruct (ArrayPtr_new_spec n h) as (p0 & h0 & Hnew & Hp & _ & Hfresh & Hsame).
  rewrite Hnew in H. injection H as <- <-. split; [done|]. split.
  - intros l _ Hne. destruct p0 as [l'|].
    + destruct (Hfresh l' eq_refl) as [_ ->].
      rewrite lookup_insert_ne; [done | congruence].
    + by rewrite Hsame.
  - intros l ->. right. by destruct (Hfresh l eq_refl).
Qed.

Lemma SimpleVector_size_Ok size h :
  ∃ p h', SimpleVector_size size h = Ok (MkVec size size p, h')
          ∧ block_of h' p = Some (replicate (N.to_nat size) T_default)
          ∧ evolves None p h h'.
Proof.
  unfold SimpleVector_size.
  destruct (ArrayPtr_new_spec size h) as (p & h' & Hnew & Hp & _).
  destruct (ArrayPtr_new_evolves _ _ _ _ Hnew) as [_ Hev].
  exists p, h'. erewrite bind_run by exact Hnew.
  unfold begin, end_, Get, slot. simpl.
  erewrite bind_run.
  2:{ eapply std_move_to_value_Ok; [exact Hp | lia | rewrite length_replicate; lia]. }
  done.
Qed.

Lemma SimpleVector_fill_Ok size value h :
  ∃ p h', SimpleVector_fill size value h = Ok (MkVec size size p, h')
          ∧ block_of h' p = Some (replicate (N.to_nat size) T_default)
          ∧ evolves None p h h'.
Proof.
  unfold SimpleVector_fill.
  destruct (ArrayPtr_new_spec size h) as (p & h' & Hnew & Hp & _).
  destruct (ArrayPtr_new_evolves _ _ _ _ Hnew) as [_ Hev].
  exists p, h'. erewrite bind_run by exact Hnew.
  unfold begin, end_, Get, slot. simpl.
  erewrite bind_run.
  2:{ eapply std_move_to_value_Ok; [exact Hp | lia | rewrite length_replicate; lia]. }
  done.
Qed.

Lemma SimpleVector_init_Ok init h :
  ∃ p h', SimpleVector_init init h
          = Ok (MkVec (N.of_nat (length init)) (N.of_nat (length init)) p, h')
          ∧ block_of h' p = Some init
          ∧ evolves None p h h'.
Proof.
  unfold SimpleVector_init.
  destruct (ArrayPtr_new_spec (N.of_nat (length init)) h)
    as (p & h1 & Hnew & Hp & Hnull & Hfresh & Hsame).
  destruct (ArrayPtr_new_evolves _ _ _ _ Hnew) as [_ Hev].
  erewrite bind_run by exact Hnew. unfold begin, Get. simpl.
  destruct p as [l|].
  - destruct (Hfresh l eq_refl) as [Hl ->]. simpl in Hp.
    change 0 with (N.of_nat 0).
    erewrite bind_run.
    2:{ eapply copy_init_Ok; [exact Hp | rewrite length_replicate; lia]. }
    eexists _, _. split; [done|]. split.
    + simpl. rewrite lookup_insert_eq. f_equal.
      rewrite drop_ge by (rewrite length_replicate; lia). by rewrite app_nil_r.
    + destruct Hev as [HF HN]. split; [|done].
      intros l' _ Hne. rewrite !lookup_insert_ne by congruence. done.
  - destruct Hnull as [Hn _]. specialize (Hn eq_refl).
    destruct init; [|done]. simpl. eexists _, _. split; [done|]. by split.
Qed.

Lemma SimpleVector_reserve_Ok r h :
  SimpleVector_reserve r h = Ok (MkVec 0 (capacity_to_reserve_ r) None, h).
Proof. done. Qed.

Lemma vec_ok_default h : vec_ok h SimpleVector_default.
Proof. exists []. simpl. split; [done|]. lia. Qed.

(** ** Program states *)

Lemma state_ok_update σ h a v' h' :
  state_ok σ h → vec_ok h' v' →
  (∀ a2 v2 l, a2 ≠ a → σ !! a2 = Some v2 → items_ v2 = Some l →
     items_ v' ≠ Some l ∧ h' !! l = h !! l) →
  state_ok (<[a := v']> σ) h'.
Proof.
  intros [Hall Hsep] Hv' Hothers. split.
  - intros a2 v2. destruct (decide (a = a2)) as [<-|Hne].
    + rewrite lookup_insert_eq. by intros [= <-].
    + rewrite lookup_insert_ne by done. intros Ha2.
      destruct (Hall _ _ Ha2) as (b & Hb & ?).
      exists b. split; [|done].
      destruct (items_ v2) as [l|] eqn:Hl; [|done]. simpl in *.
      destruct (Hothers a2 v2 l) as [_ ->]; done.
  - intros a1 a2 v1 v2 l.
    destruct (decide (a = a1)) as [<-|Hne1], (decide (a = a2)) as [<-|Hne2];
      rewrite ?lookup_insert_eq, ?lookup_insert_ne by done; try done.
    + intros [= <-] Ha2 Hl1 Hl2. by destruct (Hothers a2 v2 l) as [? _].
    + intros Ha1 [= <-] Hl1 Hl2. by destruct (Hothers a1 v1 l) as [? _].
    + apply Hsep.
Qed.

Lemma evolves_others σ h a p' h' :
  state_ok σ h → evolves (σ !! a ≫= items_) p' h h' →
  ∀ a2 v2 l, a2 ≠ a → σ !! a2 = Some v2 → items_ v2 = Some l →
    p' ≠ Some l ∧ h' !! l = h !! l.
Proof.
  intros [Hall Hsep] [HF HN] a2 v2 l Hne Ha2 Hl.
  assert (Hold : σ !! a ≫= items_ ≠ Some l).
  { destruct (σ !! a) as [v|] eqn:Ha; simpl; [|done].
    intros Hv. apply Hne. by eapply Hsep. }
  assert (Hnew : p' ≠ Some l).
  { intros Hp. destruct (HN l Hp) as [?|Hnone]; [done|].
    destruct (Hall _ _ Ha2) as (b & Hb & _). rewrite Hl in Hb. simpl in Hb. congruence. }
  split; [done|]. by apply HF.
Qed.

Lemma state_ok_call σ h a v v' h' :
  state_ok σ h → σ !! a = Some v → vec_ok h' v' →
  evolves (items_ v) (items_ v') h h' →
  state_ok (<[a := v']> σ) h'.
Proof.
  intros Hok Ha Hv' Hev. apply state_ok_update with h; [done..|].
  eapply evolves_others; [done|]. by rewrite Ha.
Qed.

Lemma state_ok_declare σ h a v' h' :
  state_ok σ h → σ !! a = None → vec_ok h' v' →
  evolves None (items_ v') h h' →
  state_ok (<[a := v']> σ) h'.
Proof.
  intros Hok Ha Hv' Hev. apply state_ok_update with h; [done..|].
  eapply evolves_others; [done|]. by rewrite Ha.
Qed.

(** Renaming the objects of a state along an injective map of addresses. *)
Lemma state_ok_rename (f : addr → addr) σ σ' h :
  (∀ x y, f x = f y → x = y) → (∀ x, σ' !! x = σ !! f x) →
  state_ok σ h → state_ok σ' h.
Proof.
  intros Hinj Hf [Hall Hsep]. split.
  - intros a v. rewrite Hf. apply Hall.
  - intros a1 a2 v1 v2 l. rewrite !Hf. intros. apply Hinj. by eapply Hsep.
Qed.

Lemma declare_ok a σ ctor h σ' h' :
  state_ok σ h →
  (∀ v h1, ctor h = Ok (v, h1) → vec_ok h1 v ∧ evolves None (items_ v) h h1) →
  declare a σ ctor h = Ok (σ', h') → state_ok σ' h'.
Proof.
  intros Hok Hctor H. unfold declare in H.
  destruct (σ !! a) eqn:Ha; [done|].
  bind_inv H as Hc. ret_inv H.
  destruct (Hctor _ _ Hc). by eapply state_ok_declare.
Qed.

Lemma call_ok a σ f h σ' h' :
  state_ok σ h →
  (∀ v v' h1, vec_ok h v → f v h = Ok (v', h1) →
     vec_ok h1 v' ∧ evolves (items_ v) (items_ v') h h1) →
  call a σ f h = Ok (σ', h') → state_ok σ' h'.
Proof.
  intros Hok Hf H. unfold call in H.
  destruct (σ !! a) as [v|] eqn:Ha; [|done].
  bind_inv H as Hc. ret_inv H.
  destruct (Hf _ _ _ (proj1 Hok _ _ Ha) Hc). by eapply state_ok_call.
Qed.

Lemma vec_ok_block h v p b :
  items_ v = p → block_of h p = Some b →
  size_ v ≤ N.of_nat (length b) → N.of_nat (length b) ≤ capacity_ v → vec_ok h v.
Proof. intros <- ? ? ?. by exists b. Qed.

Lemma operator_assign_ok this rhs σ h σ' h' :
  state_ok σ h → operator_assign this rhs σ h = Ok (σ', h') → state_ok σ' h'.
Proof.
  intros Hok H. unfold operator_assign in H.
  destruct (decide (this ≠ rhs)) as [Hne|]; [|by ret_inv H].
  destruct (σ !! this) as [v|] eqn:Hthis; [|done].
  destruct (σ !! rhs) as [r|] eqn:Hrhs; [|done].
  destruct (proj1 Hok _ _ Hrhs) as (b & Hb & Hs & Hc).
  destruct (SimpleVector_copy_Ok r h b) as (p & h1 & Hcopy & Hp & HF & HN); [done | lia |].
  erewrite bind_run in H by exact Hcopy. simpl in H.
  bind_inv H as Hdel. ret_inv H.
  apply ArrayPtr_delete_inv in Hdel as [Hkeep Hgone].
  destruct (proj1 Hok _ _ Hthis) as (bv & Hbv & _).
  assert (Hpv : ∀ l, p = Some l → items_ v ≠ Some l).
  { intros l -> Hv. destruct (HN l eq_refl) as [?|Hnone]; [done|].
    rewrite Hv in Hbv. simpl in Hbv. congruence. }
  apply state_ok_update with h; [done | |].
  - apply vec_ok_block with p (take (N.to_nat (size_ r)) b); simpl; [done | | |].
    + destruct p as [l|]; [|done]. simpl in *. rewrite Hkeep by (by apply Hpv). done.
    + rewrite length_take. lia.
    + rewrite length_take. lia.
  - intros a2 v2 l Ha2 Hv2 Hl. simpl.
    assert (p ≠ Some l).
    { intros ->. destruct (HN l eq_refl) as [?|Hnone]; [done|].
      destruct (proj1 Hok _ _ Hv2) as (b2 & Hb2 & _).
      rewrite Hl in Hb2. simpl in Hb2. congruence. }
    split; [done|]. rewrite Hkeep.
    + by apply HF.
    + intros Hv. apply Ha2. by eapply (proj2 Hok).
Qed.

Lemma vec_ok_empty h : vec_ok h (MkVec 0 0 None).
Proof. apply vec_ok_default. Qed.

Lemma state_ok_moved σ h rhs r :
  state_ok σ h → σ !! rhs = Some r →
  state_ok (<[rhs := MkVec 0 0 None]> σ) h.
Proof.
  intros Hok Hrhs. eapply state_ok_call; [done.. | apply vec_ok_empty |].
  simpl. split; [done|]. intros l [=].
Qed.

Lemma operator_assign_move_ok this rhs σ h σ' h' :
  state_ok σ h → operator_assign_move this rhs σ h = Ok (σ', h') → state_ok σ' h'.
Proof.
  intros Hok H. unfold operator_assign_move in H.
  destruct (decide (this ≠ rhs)) as [Hne|]; [|by ret_inv H].
  destruct (σ !! this) as [v|] eqn:Hthis; [|done].
  destruct (σ !! rhs) as [r|] eqn:Hrhs; [|done].
  simpl in H. bind_inv H as Hdel. ret_inv H.
  apply ArrayPtr_delete_inv in Hdel as [Hkeep Hgone].
  pose proof (state_ok_moved _ _ _ _ Hok Hrhs) as Hok1.
  assert (Hrv : ∀ l, items_ r = Some l → items_ v ≠ Some l).
  { intros l Hr Hv. apply Hne. by eapply (proj2 Hok). }
  apply state_ok_update with h; [done | |].
  - destruct (proj1 Hok _ _ Hrhs) as (b & Hb & Hs & Hc).
    apply vec_ok_block with (items_ r) b; simpl; [done | | done | done].
    destruct (items_ r) as [l|]; [|done]. simpl in *. rewrite Hkeep by (by apply Hrv). done.
  - intros a2 v2 l Ha2. destruct (decide (a2 = rhs)) as [->|Hne2].
    + rewrite lookup_insert_eq. by intros [= <-].
    + rewrite lookup_insert_ne by done. intros Hv2 Hl. simpl. split.
      * intros Hr. apply Hne2. by eapply (proj2 Hok).
      * apply Hkeep. intros Hv. apply Ha2. by eapply (proj2 Hok).
Qed.

Lemma exec_ok c σ h σ' h' :
  state_ok σ h → exec c σ h = Ok (σ', h') → state_ok σ' h'.
Proof.
  intros Hok H. destruct c; simpl in H.
  - eapply declare_ok; [done | | done].
    intros v h1 Hr. ret_inv Hr. split; [apply vec_ok_default | apply evolves_refl].
  - eapply declare_ok; [done | | done]. intros v h1 Hr.
    destruct (SimpleVector_size_Ok size h) as (p & h2 & Hc & Hp & Hev).
    rewrite Hc in Hr. injection Hr as <- <-. split; [|done].
    eapply vec_ok_block; [done | exact Hp | |]; simpl; rewrite length_replicate; lia.
  - eapply declare_ok; [done | | done]. intros v h1 Hr.
    destruct (SimpleVector_fill_Ok size value h) as (p & h2 & Hc & Hp & Hev).
    rewrite Hc in Hr. injection Hr as <- <-. split; [|done].
    eapply vec_ok_block; [done | exact Hp | |]; simpl; rewrite length_replicate; lia.
  - eapply declare_ok; [done | | done]. intros v h1 Hr.
    destruct (SimpleVector_init_Ok init h) as (p & h2 & Hc & Hp & Hev).
    rewrite Hc in Hr. injection Hr as <- <-. split; [|done].
    eapply vec_ok_block; [done | exact Hp | |]; simpl; lia.
  - destruct (σ !! other) as [o|] eqn:Ho; [|done].
    eapply declare_ok; [done | | done]. intros v h1 Hr.
    destruct (proj1 Hok _ _ Ho) as (b & Hb & Hs & Hc).
    destruct (SimpleVector_copy_Ok o h b) as (p & h2 & Hcopy & Hp & Hev); [done | lia |].
    rewrite Hcopy in Hr. injection Hr as <- <-. split; [|done].
    eapply vec_ok_block; [done | exact Hp | |]; simpl; rewrite length_take; lia.
  - destruct (σ !! a) eqn:Ha; [done|].
    destruct (σ !! other) as [o|] eqn:Ho; [|done].
    simpl in H. ret_inv H.
    pose proof (state_ok_moved _ _ _ _ Hok Ho) as Hok1.
    assert (a ≠ other) by congruence.
    apply state_ok_update with h; [done | |].
    + destruct (proj1 Hok _ _ Ho) as (b & Hb & Hs & Hc).
      by apply vec_ok_block with (items_ o) b.
    + intros a2 v2 l Ha2. destruct (decide (a2 = other)) as [->|Hne2].
      * rewrite lookup_insert_eq. by intros [= <-].
      * rewrite lookup_insert_ne by done. intros Hv2 Hl. simpl. split; [|done].
        intros Hr. apply Hne2. by eapply (proj2 Hok).
  - eapply declare_ok; [done | | done]. intros v h1 Hr.
    rewrite SimpleVector_reserve_Ok in Hr. injection Hr as <- <-.
    split; [|apply evolves_refl].
    eapply (vec_ok_block _ _ None []); simpl; [done | done | lia | lia].
  - by eapply operator_assign_ok.
  - by eapply operator_assign_move_ok.
  - eapply call_ok; [done | | done]. intros v v' h1 Hv Hr. ret_inv Hr.
    split; [by apply Clear_ok | apply evolves_refl].
  - eapply call_ok; [done | | done]. intros v v' h1 Hv Hr. eapply Resize_ok; [exact Hv | exact Hr].
  - eapply call_ok; [done | | done]. intros v v' h1 Hv Hr. eapply PushBack_ok; [exact Hv | exact Hr].
  - eapply call_ok; [done | | done]. intros v v' h1 Hv Hr.
    bind_inv Hr as Hi. ret_inv Hr. eapply Insert_ok; [exact Hv | exact Hi].
  - eapply call_ok; [done | | done]. intros v v' h1 Hv Hr. ret_inv Hr.
    destruct (PopBack_ok h v Hv) as [? ->]. split; [done | apply evolves_refl].
  - eapply call_ok; [done | | done]. intros v v' h1 Hv Hr.
    bind_inv Hr as He. ret_inv Hr. eapply Erase_ok; [exact Hv | exact He].
  - destruct (σ !! a) as [v|] eqn:Ha; [|done].
    destruct (σ !! other) as [o|] eqn:Ho; [|done].
    simpl in H. ret_inv H.
    apply (state_ok_rename
             (λ x, if decide (x = a) then other else if decide (x = other) then a else x)
             σ); [| |done].
    + intros x y. repeat case_decide; congruence.
    + intros x. destruct (decide (x = a)) as [->|Hxa].
      * by rewrite lookup_insert_eq.
      * rewrite lookup_insert_ne by done. destruct (decide (x = other)) as [->|Hxo].
        -- by rewrite lookup_insert_eq.
        -- by rewrite lookup_insert_ne.
  - eapply call_ok; [done | | done]. intros v v' h1 Hv Hr.
    by destruct (Reserve_ok _ _ _ _ _ Hv Hr) as (? & ? & _).
Qed.

Lemma run_ok cs σ h σ' h' :
  state_ok σ h → run cs σ h = Ok (σ', h') → state_ok σ' h'.
Proof.
  revert σ h. induction cs as [|c cs IH]; intros σ h Hok H; simpl in H.
  - by ret_inv H.
  - bind_inv H as Hc. eapply IH; [|done]. by eapply exec_ok.
Qed.

Lemma state_ok_empty : state_ok ∅ ∅.
Proof. split; intros *; by rewrite lookup_empty. Qed.

(** ** What the elements are after a store, a shift and a growth *)

Lemma elements_block h v b :
  block_of h (items_ v) = Some b → (N.to_nat (size_ v) ≤ length b)%nat →
  elements h v = Some (take (N.to_nat (size_ v)) b).
Proof.
  intros Hb Hlen. unfold elements. rewrite Hb. simpl. by rewrite decide_True.
Qed.

Lemma elements_inv h v xs :
  elements h v = Some xs →
  ∃ b, block_of h (items_ v) = Some b ∧ (N.to_nat (size_ v) ≤ length b)%nat
       ∧ xs = take (N.to_nat (size_ v)) b.
Proof.
  unfold elements. destruct (block_of h (items_ v)) as [b|]; simpl; [|done].
  case_decide; [|done]. intros [= <-]. eauto.
Qed.

Lemma elements_length h v xs :
  elements h v = Some xs → N.of_nat (length xs) = size_ v.
Proof.
  intros (b & _ & Hlen & ->)%elements_inv. rewrite length_take. lia.
Qed.

Lemma vec_ok_elements h v : vec_ok h v → is_Some (elements h v).
Proof.
  intros (b & Hb & Hs & _). erewrite elements_block; [done | done | lia].
Qed.

Lemma wf_vec_ok h v : wf h v → vec_ok h v.
Proof. intros (b & Hb & Hlen & Hs & _). exists b. split; [done|]. lia. Qed.

Lemma store_block p i x h b :
  block_of h p = Some b → (N.to_nat i < length b)%nat →
  ∃ h', store (Ptr p i) x h = Ok (tt, h')
        ∧ block_of h' p = Some (<[N.to_nat i := x]> b)
        ∧ preserves p h h'.
Proof.
  intros Hb Hlt. destruct p as [l|]; simpl in Hb.
  - eexists. split; [by eapply store_Ok|]. split.
    + simpl. apply lookup_insert_eq.
    + eapply (store_preserves (Ptr (Some l) i)). by eapply store_Ok.
  - injection Hb as <-. simpl in Hlt. lia.
Qed.

Lemma move_backward_loop_shift k l i b h :
  h !! l = Some b → (i + 1 + k ≤ length b)%nat →
  move_backward_loop k (Ptr (Some l) (N.of_nat i)) (Ptr (Some l) (N.of_nat (i + 1))) h
  = Ok (tt, <[l := take (i + 1) b ++ take k (drop i b) ++ drop (i + 1 + k) b]> h).
Proof.
  revert b h. induction k as [|k IH]; intros b h Hb Hlen; simpl.
  - rewrite Nat.add_0_r, take_drop, insert_id; done.
  - destruct (lookup_lt_is_Some_2 b (i + k)) as [x Hx]; [lia|].
    erewrite bind_run.
    2:{ eapply load_Ok; [exact Hb|]. simpl.
        by replace (N.to_nat (N.of_nat i + N.of_nat k)) with (i + k)%nat by lia. }
    erewrite bind_run.
    2:{ eapply store_Ok; [done | exact Hb | simpl; lia]. }
    simpl. replace (N.to_nat (N.of_nat (i + 1) + N.of_nat k)) with (i + 1 + k)%nat by lia.
    rewrite (IH (<[(i + 1 + k)%nat := x]> b)).
    + rewrite insert_insert_eq. do 3 f_equal.
      rewrite take_insert_ge by lia.
      rewrite drop_insert_ge by lia.
      rewrite take_insert_ge by lia.
      rewrite drop_insert_ge by lia.
      replace (i + 1 + k - (i + 1 + k))%nat with O by lia.
      destruct (lookup_lt_is_Some_2 b (i + 1 + k)) as [y Hy]; [lia|].
      rewrite (drop_S b y (i + 1 + k) Hy). simpl.
      rewrite (take_S_r (drop i b) k x) by (by rewrite lookup_drop).
      rewrite <- !app_assoc. simpl.
      by replace (S (i + 1 + k)) with (i + 1 + S k)%nat by lia.
    + apply lookup_insert_eq.
    + rewrite length_insert. lia.
Qed.

Lemma std_move_backward_shift p k s b h :
  block_of h p = Some b → k ≤ s → (N.to_nat s + 1 ≤ length b)%nat →
  ∃ h', std_move_backward (Ptr p k) (Ptr p s) (Ptr p (s + 1)) h = Ok (tt, h')
        ∧ block_of h' p
          = Some (take (N.to_nat k + 1) b
                  ++ take (N.to_nat s - N.to_nat k) (drop (N.to_nat k) b)
                  ++ drop (N.to_nat s + 1) b)
        ∧ preserves p h h'.
Proof.
  intros Hb Hks Hlen. destruct p as [l|]; simpl in Hb.
  - assert (Hrun : std_move_backward (Ptr (Some l) k) (Ptr (Some l) s) (Ptr (Some l) (s + 1)) h
       = Ok (tt, <[l := take (N.to_nat k + 1) b
                  ++ take (N.to_nat s - N.to_nat k) (drop (N.to_nat k) b)
                  ++ drop (N.to_nat s + 1) b]> h)).
    { unfold std_move_backward.
      erewrite bind_run by (by apply distance_Ok). simpl.
      rewrite decide_True by lia.
      replace (s + 1 - (s - k)) with (N.of_nat (N.to_nat k + 1)) by lia.
      replace (Ptr (Some l) k) with (Ptr (Some l) (N.of_nat (N.to_nat k)))
        by (by rewrite N2Nat.id).
      rewrite move_backward_loop_shift with (b := b); [|done|lia].
      replace (N.to_nat (s - k)) with (N.to_nat s - N.to_nat k)%nat by lia.
      by replace (N.to_nat k + 1 + (N.to_nat s - N.to_nat k))%nat
        with (N.to_nat s + 1)%nat by lia. }
    eexists. split; [exact Hrun|]. split.
    + simpl. apply lookup_insert_eq.
    + by apply std_move_backward_preserves in Hrun.
  - injection Hb as <-. simpl in Hlen. lia.
Qed.

(** ** [PushBack] *)

Lemma take_push (b : list T) n item :
  (n < length b)%nat → take (S n) (<[n := item]> b) = take n b ++ [item].
Proof.
  intros Hn. rewrite (take_S_r _ n item) by (by apply list_lookup_insert_eq).
  by rewrite take_insert_ge.
Qed.

(** A reference that could be read before a call on a vector can be
    read after it, with the same value, when it lies outside the block
    of the vector. *)
Lemma read_evolves item x p p' h h' :
  read item h = Ok (x, h) → outside p item → evolves p p' h h' →
  read item h' = Ok (x, h').
Proof.
  intros Hrd Hout [Hsame Hfresh]. eapply read_stable; [done|].
  intros q l -> Hl. simpl in *.
  apply load_inv in Hrd as (_ & l' & b & Hl' & Hb & _).
  assert (l' = l) as -> by congruence.
  apply Hsame; [congruence|].
  intros Hp'. destruct (Hfresh l Hp') as [?|?]; congruence.
Qed.

(** [PushBack] of an item that reads as [x]: a temporary, an lvalue
    outside the vector, or, while there is room, any lvalue. *)
Lemma PushBack_spec h v item x xs :
  wf h v → elements h v = Some xs →
  read item h = Ok (x, h) →
  (size_ v = capacity_ v → outside (items_ v) item) →
  (size_ v = capacity_ v → 2 * capacity_ v < SIZE_MODULUS) →
  ∃ v' h', PushBack v item h = Ok (v', h')
    ∧ size_ v' = size_ v + 1
    ∧ capacity_ v' = (if decide (size_ v < capacity_ v) then capacity_ v
                      else N.max 1 (2 * capacity_ v))
    ∧ elements h' v' = Some (xs ++ [x])
    ∧ wf h' v'
    ∧ evolves (items_ v) (items_ v') h h'.
Proof.
  intros (b & Hb & Hlen & Hs & Hc) Hxs Hrd Hout Hfit.
  apply elements_inv in Hxs as (b0 & Hb0 & _ & ->). simplify_eq.
  unfold PushBack. destruct (decide (size_ v < capacity_ v)) as [Hlt|Hge].
  - destruct (store_block (items_ v) (size_ v) x h b) as (h' & Hst & Hb' & Hp);
      [done | lia |].
    erewrite bind_run.
    2:{ erewrite bind_run by exact Hrd. erewrite bind_run by exact Hst. done. }
    rewrite ret_run. rewrite incr_small by lia.
    eexists _, _. split; [done|]. simpl. split; [done|]. split; [done|].
    split; [|split].
    + erewrite elements_block; [|exact Hb'|simpl; rewrite length_insert; lia].
      simpl. replace (N.to_nat (size_ v + 1)) with (S (N.to_nat (size_ v))) by lia.
      rewrite take_push by lia. done.
    + eexists. split; [exact Hb'|]. simpl. rewrite length_insert. repeat split; lia.
    + by apply preserves_evolves.
  - assert (size_ v = capacity_ v) as Heq by lia. specialize (Hfit Heq).
    rewrite (wrap_small (2 * capacity_ v)) by done.
    set (n := N.max 1 (2 * capacity_ v)).
    destruct (Reserve_grow v n h b) as (p & h1 & HR & Hp & Hev); [done | lia | lia | lia |].
    pose proof (read_evolves _ _ _ _ _ _ Hrd (Hout Heq) Hev) as Hrd1.
    destruct (store_block p (size_ v) x h1 _ Hp) as (h2 & Hst & Hb2 & Hpres).
    { rewrite length_app, length_take, length_replicate. lia. }
    erewrite bind_run.
    2:{ erewrite bind_run by exact HR. erewrite bind_run by exact Hrd1.
        erewrite bind_run by exact Hst. done. }
    rewrite ret_run. simpl. rewrite incr_small by (unfold SIZE_MODULUS in *; lia).
    eexists _, _. split; [done|]. simpl. split; [done|]. split; [done|].
    split; [|split].
    + erewrite elements_block; [|exact Hb2|].
      * simpl. replace (N.to_nat (size_ v + 1)) with (S (N.to_nat (size_ v))) by lia.
        rewrite take_push by (rewrite length_app, length_take, length_replicate; lia).
        rewrite take_app_le by (rewrite length_take; lia).
        by rewrite take_take, Nat.min_id.
      * simpl. rewrite length_insert, length_app, length_take, length_replicate. lia.
    + eexists. split; [exact Hb2|]. simpl.
      rewrite length_insert, length_app, length_take, length_replicate.
      unfold SIZE_MODULUS in *. repeat split; lia.
    + by eapply evolves_preserves.
Qed.

(** ** The chain of capacities *)

Lemma least_in_chain_0 : least_in_chain 0 0.
Proof. split; [by left|]. split; [done|]. intros. lia. Qed.

Lemma least_in_chain_keep k c : least_in_chain k c → k < c → least_in_chain (k + 1) c.
Proof.
  intros (Hin & Hk & Hmin) Hlt. split; [done|]. split; [lia|].
  intros c' Hc' Hle. apply Hmin; [done | lia].
Qed.

Lemma least_in_chain_double c : in_chain c → least_in_chain (c + 1) (N.max 1 (2 * c)).
Proof.
  intros [->|[e ->]].
  - split; [right; by exists 0|]. split; [done|].
    intros c' [->|[e' ->]] Hle; [lia|]. simpl. pose proof (N.pow_nonzero 2 e'). lia.
  - assert (2 ^ e ≠ 0) by (by apply N.pow_nonzero).
    rewrite N.max_r by lia. rewrite <- N.pow_succ_r'.
    split; [right; by eexists|]. split; [rewrite N.pow_succ_r'; lia|].
    intros c' [->|[e' ->]] Hle; [lia|].
    apply N.pow_le_mono_r; [done|].
    destruct (decide (e' ≤ e)) as [He|He]; [|lia].
    pose proof (N.pow_le_mono_r 2 e' e). lia.
Qed.

Lemma PushBack_all_spec items : ∀ h v xs,
  wf h v → elements h v = Some xs →
  least_in_chain (size_ v) (capacity_ v) →
  size_ v + N.of_nat (length items) ≤ 2 ^ 63 →
  ∃ v' h', PushBack_all v items h = Ok (v', h')
    ∧ size_ v' = size_ v + N.of_nat (length items)
    ∧ elements h' v' = Some (xs ++ items)
    ∧ least_in_chain (size_ v') (capacity_ v')
    ∧ wf h' v'.
Proof.
  induction items as [|item items IH]; intros h v xs Hwf Hxs Hch Hfit; simpl.
  - exists v, h. rewrite app_nil_r, N.add_0_r. done.
  - destruct (PushBack_spec h v (Temporary item) item xs Hwf Hxs)
      as (v1 & h1 & Hpb & Hsz & Hcap & Hel & Hwf1 & _); [done | done | |].
    { intros Heq. change SIZE_MODULUS with (2 * 2 ^ 63). simpl in Hfit. lia. }
    erewrite bind_run by exact Hpb.
    destruct (IH h1 v1 (xs ++ [item]) Hwf1 Hel) as (v' & h' & Hall & Hsz' & Hel' & Hch' & Hwf').
    + rewrite Hsz, Hcap. destruct (decide (size_ v < capacity_ v)) as [Hlt|Hge].
      * by apply least_in_chain_keep.
      * destruct Hch as (Hin & Hk & _).
        replace (size_ v) with (capacity_ v) by lia.
        by apply least_in_chain_double.
    + rewrite Hsz. simpl in Hfit. lia.
    + exists v', h'. split; [done|]. split; [simpl in *; lia|].
      split; [by rewrite <- app_assoc in Hel'|done].
Qed.

(** ** [At] *)

Lemma At_load h v xs index x :
  elements h v = Some xs → xs !! N.to_nat index = Some x →
  (p ← At v index; load p) h = Ok (x, h).
Proof.
  intros (b & Hb & Hlen & ->)%elements_inv Hx.
  pose proof (lookup_lt_Some _ _ _ Hx) as Hlt. rewrite length_take in Hlt.
  unfold At. rewrite decide_False by lia.
  erewrite bind_run by apply ret_run.
  eapply load_Ok; [exact Hb|]. simpl.
  rewrite lookup_take_lt in Hx by lia. done.
Qed.

(** C7: [At(i)] throws [std::out_of_range] exactly when [i >= size_];
    otherwise it returns a reference to slot [i], which holds the
    [i]-th element, and the heap is as it was.  So [At(size())] throws
    and [At(size() - 1)] succeeds on a non-empty vector. *)
Theorem C7_At_bounds_checked h v xs index :
  elements h v = Some xs →
  (At v index h = OutOfRange ↔ size_ v ≤ index)
  ∧ (index < size_ v →
     ∃ x, xs !! N.to_nat index = Some x
          ∧ At v index h = Ok (operator_index v index, h)
          ∧ (p ← At v index; load p) h = Ok (x, h))
  ∧ At v (GetSize v) h = OutOfRange
  ∧ (0 < GetSize v → ∃ p, At v (GetSize v - 1) h = Ok (p, h)).
Proof.
  intros Hxs. pose proof (elements_length _ _ _ Hxs) as Hlen.
  split; [|split; [|split]].
  - unfold At. destruct (decide (size_ v ≤ index)); [done|]. split; [done | lia].
  - intros Hlt. destruct (lookup_lt_is_Some_2 xs (N.to_nat index)) as [x Hx]; [lia|].
    exists x. split; [done|]. split; [|by eapply At_load].
    unfold At. by rewrite decide_False by lia.
  - unfold At, GetSize. by rewrite decide_True by lia.
  - intros Hpos. unfold At, GetSize in *. rewrite decide_False by lia. by eexists.
Qed.

(** Where [PushBack] does append: on a vector whose block has
    [capacity_] slots, with an item that lies outside the vector or
    with room to spare, [PushBack] returns with the size one larger,
    the value of the item last, the old elements in place, and the
    capacity unchanged when there was room and [max(1, 2 * capacity)]
    otherwise; and from capacity 0, after any number [k] of calls with
    temporaries the capacity is the least value of the chain 0, 1, 2,
    4, 8, ... that is at least [k]. *)
Lemma PushBack_appends_and_doubles :
  (∀ h v item x xs,
     wf h v → elements h v = Some xs →
     read item h = Ok (x, h) →
     (size_ v = capacity_ v → outside (items_ v) item) →
     (size_ v = capacity_ v → 2 * capacity_ v < SIZE_MODULUS) →
     ∃ v' h', PushBack v item h = Ok (v', h')
       ∧ GetSize v' = GetSize v + 1
       ∧ (p ← At v' (GetSize v' - 1); load p) h' = Ok (x, h')
       ∧ elements h' v' = Some (xs ++ [x])
       ∧ GetCapacity v' = (if decide (GetSize v < GetCapacity v) then GetCapacity v
                           else N.max 1 (2 * GetCapacity v)))
  ∧ (∀ h v items,
       wf h v → GetCapacity v = 0 → N.of_nat (length items) ≤ 2 ^ 63 →
       ∃ v' h', PushBack_all v items h = Ok (v', h')
         ∧ GetSize v' = N.of_nat (length items)
         ∧ elements h' v' = Some items
         ∧ least_in_chain (N.of_nat (length items)) (GetCapacity v')).
Proof.
  split.
  - intros h v item x xs Hwf Hxs Hrd Hout Hfit.
    destruct (PushBack_spec h v item x xs Hwf Hxs Hrd Hout Hfit)
      as (v' & h' & Hpb & Hsz & Hcap & Hel & _).
    exists v', h'. unfold GetSize, GetCapacity. repeat split; try done.
    eapply At_load; [exact Hel|].
    pose proof (elements_length _ _ _ Hxs).
    rewrite Hsz. replace (N.to_nat (size_ v + 1 - 1)) with (length xs) by lia.
    by rewrite lookup_app_r, Nat.sub_diag.
  - intros h v items Hwf Hcap Hfit. unfold GetCapacity, GetSize in *.
    assert (size_ v = 0) as Hsz by (destruct Hwf as (b & _ & _ & ? & _); lia).
    assert (elements h v = Some []) as Hxs.
    { destruct (vec_ok_elements h v (wf_vec_ok _ _ Hwf)) as [xs Hxs].
      pose proof (elements_length _ _ _ Hxs). destruct xs; [done | simpl in *; lia]. }
    destruct (PushBack_all_spec items h v [] Hwf Hxs)
      as (v' & h' & Hall & Hsz' & Hel & Hch & _).
    + rewrite Hsz, Hcap. apply least_in_chain_0.
    + lia.
    + exists v', h'. rewrite Hsz in Hsz'. rewrite Hsz' in Hch. simpl in *. done.
Qed.

(** C5: [PushBack] does not append for every vector and every value.
    Its parameter is a reference, and on a full vector it is read
    after [Reserve] has moved the elements and freed the block they
    were in: [v.PushBack(v[i])] on a full vector, where [v[i]] is an
    element that reads as [x] before the call, reads a freed block and
    is undefined, where the specification has it append [x]. *)
Theorem C5_PushBack_of_own_element_reads_freed_block h v i xs x :
  vec_ok h v → elements h v = Some xs → xs !! N.to_nat i = Some x →
  GetSize v = GetCapacity v → 2 * GetCapacity v < SIZE_MODULUS →
  read (Lvalue (operator_index v i)) h = Ok (x, h)
  ∧ PushBack v (Lvalue (operator_index v i)) h = Undefined.
Proof.
  intros (b & Hb & Hs & Hc) Hxs Hx Hfull Hfit. unfold GetSize, GetCapacity in *.
  apply elements_inv in Hxs as (b0 & Hb0 & Hle & ->). simplify_eq.
  pose proof (lookup_lt_Some _ _ _ Hx) as Hi. rewrite length_take in Hi.
  rewrite lookup_take_lt in Hx by lia.
  split.
  - simpl. by eapply load_Ok.
  - destruct (items_ v) as [l|] eqn:Hl; [|simplify_eq/=; lia].
    unfold PushBack. rewrite decide_False by lia.
    rewrite (wrap_small (2 * capacity_ v)) by done.
    destruct (Reserve_grow v (N.max 1 (2 * capacity_ v)) h b)
      as (p & h1 & HR & _ & _); [by rewrite Hl | lia | lia | lia |].
    pose proof (Reserve_frees _ _ _ _ _ l HR ltac:(lia) Hl) as Hgone.
    apply bind_Undefined. erewrite bind_run by exact HR.
    apply bind_Undefined. unfold read, load, operator_index, slot. simpl.
    by rewrite Hl, Hgone.
Qed.

(** ** [Insert] *)

Lemma shift_block (b : list T) k s :
  (k ≤ s)%nat → (s + 1 ≤ length b)%nat →
  let b1 := take (k + 1) b ++ take (s - k) (drop k b) ++ drop (s + 1) b in
  length b1 = length b
  ∧ take k b1 = take k (take s b)
  ∧ take (s - k) (drop (S k) b1) = drop k (take s b).
Proof.
  intros Hk Hs b1. subst b1. split; [|split].
  - rewrite !length_app, !length_take, !length_drop. lia.
  - rewrite take_app_le by (rewrite length_take; lia).
    rewrite !take_take. f_equal. lia.
  - rewrite drop_app_length' by (rewrite length_take; lia).
    rewrite take_app_length' by (rewrite length_take, length_drop; lia).
    rewrite take_drop_commute. do 2 f_equal. lia.
Qed.

Lemma take_insert_middle (b : list T) k s value :
  (k < length b)%nat → (k ≤ s)%nat →
  take (S s) (<[k := value]> b) = take k b ++ value :: take (s - k) (drop (S k) b).
Proof.
  intros Hk Hs. rewrite insert_take_drop by done.
  rewrite take_app, take_take, length_take.
  replace (S s `min` k)%nat with k by lia.
  replace (S s - k `min` length b)%nat with (S (s - k)) by lia. done.
Qed.

Lemma preserves_None p h h' l : preserves p h h' → h !! l = None → h' !! l = None.
Proof.
  intros Hp Hl. destruct (Hp l) as [_ Hlen]. rewrite Hl in Hlen.
  by destruct (h' !! l).
Qed.

Lemma VectorMoveRigth_spec h v k xs :
  wf h v → elements h v = Some xs → k ≤ size_ v →
  (size_ v = capacity_ v → 2 * capacity_ v < SIZE_MODULUS) →
  ∃ p h1 b1 cap',
    VectorMoveRigth v (ptr_add (begin v) k) h = Ok ((k, MkVec (size_ v + 1) cap' p), h1)
    ∧ cap' = (if decide (size_ v < capacity_ v) then capacity_ v
              else if decide (capacity_ v = 0) then 1 else 2 * capacity_ v)
    ∧ block_of h1 p = Some b1
    ∧ N.of_nat (length b1) = cap' ∧ size_ v + 1 ≤ cap' ∧ cap' < SIZE_MODULUS
    ∧ take (N.to_nat k) b1 = take (N.to_nat k) xs
    ∧ take (N.to_nat (size_ v) - N.to_nat k) (drop (S (N.to_nat k)) b1)
      = drop (N.to_nat k) xs
    ∧ evolves (items_ v) p h h1
    ∧ (size_ v < capacity_ v → p = items_ v)
    ∧ (size_ v = capacity_ v → ∀ l, items_ v = Some l → h1 !! l = None).
Proof.
  intros (b & Hb & Hlen & Hs & Hc) Hxs Hk Hfit.
  apply elements_inv in Hxs as (b0 & Hb0 & _ & ->). simplify_eq.
  unfold VectorMoveRigth, cbegin, begin, Get, ptr_add. simpl.
  erewrite bind_run by (apply distance_Ok; simpl; [done | lia]). simpl.
  rewrite N.sub_0_r.
  destruct (decide (size_ v < capacity_ v)) as [Hlt|Hge].
  - rewrite wrap_small by lia.
    destruct (std_move_backward_shift (items_ v) k (size_ v) b h)
      as (h1 & Hmb & Hb1 & Hp); [done | done | lia |].
    destruct (shift_block b (N.to_nat k) (N.to_nat (size_ v))) as (Hl1 & Ht & Hd); [lia..|].
    erewrite bind_run.
    2:{ unfold slot, end_, slot. erewrite bind_run by exact Hmb. done. }
    rewrite ret_run. simpl. rewrite incr_small by lia.
    eexists _, _, _, _. split; [done|]. split; [done|]. split; [exact Hb1|].
    split; [rewrite Hl1; lia|]. split; [lia|]. split; [done|].
    split; [done|]. split; [done|]. split; [by apply preserves_evolves|].
    split; [done | lia].
  - assert (size_ v = capacity_ v) as Heq by lia. specialize (Hfit Heq).
    destruct (decide (capacity_ v = 0)) as [Hz|Hnz].
    + destruct (Reserve_grow v 1 h b) as (p & h1 & HR & Hp & Hev); [done | lia | lia | lia |].
      erewrite bind_run by exact HR. rewrite ret_run. simpl.
      rewrite incr_small by (unfold SIZE_MODULUS; lia).
      eexists _, _, _, _. split; [done|]. split; [done|]. split; [exact Hp|].
      assert (N.to_nat (size_ v) = O) as -> by lia.
      assert (N.to_nat k = O) as -> by lia. simpl.
      split; [done|]. split; [lia|]. split; [by compute|].
      split; [done|]. split; [done|]. split; [done|]. split; [lia|].
      intros _ l Hl. eapply Reserve_frees; [exact HR | lia | done].
    + rewrite (wrap_small (2 * capacity_ v)) by done.
      destruct (Reserve_grow v (2 * capacity_ v) h b) as (p & h1 & HR & Hp & Hev);
        [done | lia | lia | lia |].
      set (b' := take (N.to_nat (size_ v)) b
                 ++ replicate (N.to_nat (2 * capacity_ v) - N.to_nat (size_ v)) T_default) in *.
      assert (Hlen' : length b' = N.to_nat (2 * capacity_ v)).
      { subst b'. rewrite length_app, length_take, length_replicate. lia. }
      destruct (std_move_backward_shift p k (size_ v) b' h1)
        as (h2 & Hmb & Hb2 & Hpres); [done | done | lia |].
      destruct (shift_block b' (N.to_nat k) (N.to_nat (size_ v))) as (Hl1 & Ht & Hd); [lia..|].
      erewrite bind_run.
      2:{ erewrite bind_run by exact HR. simpl.
          rewrite wrap_small by (unfold SIZE_MODULUS in *; lia).
          unfold slot, end_, slot. simpl. erewrite bind_run by exact Hmb. done. }
      rewrite ret_run. simpl. rewrite incr_small by (unfold SIZE_MODULUS in *; lia).
      assert (Hxs' : take (N.to_nat (size_ v)) b' = take (N.to_nat (size_ v)) b).
      { subst b'. rewrite take_app_le by (rewrite length_take; lia).
        by rewrite take_take, Nat.min_id. }
      eexists _, _, _, _. split; [done|]. split; [done|]. split; [exact Hb2|].
      split; [rewrite Hl1; lia|]. split; [lia|]. split; [done|].
      split; [by rewrite Ht, Hxs'|]. split; [by rewrite Hd, Hxs'|].
      split; [by eapply evolves_preserves|]. split; [lia|].
      intros _ l Hl. eapply preserves_None; [exact Hpres|].
      eapply Reserve_frees; [exact HR | lia | done].
Qed.

(** What [Insert] leaves once [VectorMoveRigth] has returned into the
    heap [h1] and the value read there is [x]. *)
Lemma Insert_after_shift h v k value x xs :
  wf h v → elements h v = Some xs → k ≤ size_ v →
  (size_ v = capacity_ v → 2 * capacity_ v < SIZE_MODULUS) →
  (∀ r h1, VectorMoveRigth v (ptr_add (begin v) k) h = Ok (r, h1) →
           read value h1 = Ok (x, h1)) →
  ∃ v' h', Insert v (ptr_add (begin v) k) value h = Ok ((ptr_add (begin v') k, v'), h')
    ∧ size_ v' = size_ v + 1
    ∧ capacity_ v' = (if decide (size_ v < capacity_ v) then capacity_ v
                      else if decide (capacity_ v = 0) then 1 else 2 * capacity_ v)
    ∧ elements h' v' = Some (take (N.to_nat k) xs ++ x :: drop (N.to_nat k) xs)
    ∧ wf h' v'
    ∧ evolves (items_ v) (items_ v') h h'.
Proof.
  intros Hwf Hxs Hk Hfit Hrd.
  destruct (VectorMoveRigth_spec h v k xs Hwf Hxs Hk Hfit)
    as (p & h1 & b1 & cap' & Hvm & Hcap & Hb1 & Hlen & Hsz & Hmax & Ht & Hd & Hev & _).
  specialize (Hrd _ _ Hvm).
  destruct (store_block p k x h1 b1 Hb1) as (h2 & Hst & Hb2 & Hpres); [lia|].
  unfold Insert. erewrite bind_run by exact Hvm. simpl.
  erewrite bind_run by exact Hrd.
  erewrite bind_run by exact Hst. rewrite ret_run.
  exists (MkVec (size_ v + 1) cap' p), h2.
  split; [done|]. simpl. split; [done|]. split; [done|].
  split; [|split].
  - erewrite elements_block; [|exact Hb2|simpl; rewrite length_insert; lia].
    simpl. replace (N.to_nat (size_ v + 1)) with (S (N.to_nat (size_ v))) by lia.
    rewrite take_insert_middle by lia. by rewrite Ht, Hd.
  - eexists. split; [exact Hb2|]. simpl. rewrite length_insert. done.
  - by eapply evolves_preserves.
Qed.

(** [Insert] of a value that reads as [x] and lies outside the vector:
    a temporary, or an lvalue in another block. *)
Lemma Insert_spec h v k value x xs :
  wf h v → elements h v = Some xs → k ≤ size_ v →
  read value h = Ok (x, h) → outside (items_ v) value →
  (size_ v = capacity_ v → 2 * capacity_ v < SIZE_MODULUS) →
  ∃ v' h', Insert v (ptr_add (begin v) k) value h = Ok ((ptr_add (begin v') k, v'), h')
    ∧ size_ v' = size_ v + 1
    ∧ capacity_ v' = (if decide (size_ v < capacity_ v) then capacity_ v
                      else if decide (capacity_ v = 0) then 1 else 2 * capacity_ v)
    ∧ elements h' v' = Some (take (N.to_nat k) xs ++ x :: drop (N.to_nat k) xs)
    ∧ wf h' v'
    ∧ evolves (items_ v) (items_ v') h h'.
Proof.
  intros Hwf Hxs Hk Hrd Hout Hfit.
  apply Insert_after_shift; [done..|].
  intros [n v1] h1 Hvm.
  apply (read_evolves value x (items_ v) (items_ v1) h h1); [done | done |].
  unfold VectorMoveRigth in Hvm. bind_inv Hvm as Hd.
  apply distance_inv in Hd as (-> & _). bind_inv Hvm as Hbody.
  apply ret_Ok_inv in Hvm as [[= -> ->] ->]. simpl.
  destruct (decide (size_ v < capacity_ v)).
  - bind_inv Hbody as Hmb. ret_inv Hbody.
    apply preserves_evolves. by apply std_move_backward_preserves in Hmb.
  - pose proof (wf_vec_ok _ _ Hwf) as Hok.
    destruct (decide (capacity_ v = 0)).
    + by apply Reserve_ok in Hbody as (_ & Hev & _).
    + bind_inv Hbody as Hres. bind_inv Hbody as Hmb. ret_inv Hbody.
      apply Reserve_ok in Hres as (_ & Hev & _); [|done].
      eapply evolves_preserves; [done|].
      by apply std_move_backward_preserves in Hmb.
Qed.

(** Where [Insert] does insert the value: on a vector whose block has
    [capacity_] slots, with a value that lies outside the vector,
    [Insert(pos, value)] at a position of [begin, end] returns the
    position of the new element; the elements before [pos] stay, the
    value follows, then the elements that were at and after [pos]; the
    size grows by one and the capacity doubles (or becomes 1) only
    when the vector was full.  On {a, b, c}, inserting a temporary [d]
    at [begin() + 1] gives {a, d, b, c} of size 4. *)
Lemma Insert_shifts_right :
  (∀ h v k value x xs,
     wf h v → elements h v = Some xs → k ≤ GetSize v →
     read value h = Ok (x, h) → outside (items_ v) value →
     (size_ v = capacity_ v → 2 * capacity_ v < SIZE_MODULUS) →
     ∃ v' h',
       Insert v (ptr_add (begin v) k) value h = Ok ((ptr_add (begin v') k, v'), h')
       ∧ elements h' v' = Some (take (N.to_nat k) xs ++ x :: drop (N.to_nat k) xs)
       ∧ GetSize v' = GetSize v + 1
       ∧ GetCapacity v'
         = (if decide (GetSize v < GetCapacity v) then GetCapacity v
            else if decide (GetCapacity v = 0) then 1 else 2 * GetCapacity v))
  ∧ (∀ h a b c d,
       ∃ v' h', (v ← SimpleVector_init [a; b; c];
                 Insert v (ptr_add (begin v) 1) (Temporary d)) h
                = Ok ((ptr_add (begin v') 1, v'), h')
         ∧ elements h' v' = Some [a; d; b; c]
         ∧ GetSize v' = 4).
Proof.
  split.
  - intros h v k value x xs Hwf Hxs Hk Hrd Hout Hfit.
    destruct (Insert_spec h v k value x xs Hwf Hxs Hk Hrd Hout Hfit)
      as (v' & h' & Hins & Hsz & Hcap & Hel & _).
    exists v', h'. done.
  - intros h a b c d.
    destruct (SimpleVector_init_Ok [a; b; c] h) as (p & h1 & Hinit & Hp & _).
    simpl in Hinit. set (v := MkVec 3 3 p) in *.
    assert (Hwf : wf h1 v).
    { exists [a; b; c]. split; [done|]. by compute. }
    assert (Hxs : elements h1 v = Some [a; b; c]).
    { erewrite elements_block; [|exact Hp|simpl; lia]. done. }
    destruct (Insert_spec h1 v 1 (Temporary d) d [a; b; c] Hwf Hxs)
      as (v' & h' & Hins & Hsz & _ & Hel & _); [by compute | done | done | by compute |].
    exists v', h'. erewrite bind_run by exact Hinit. done.
Qed.

(** C6: [Insert] does not place the value it was given at [pos] for
    every vector and every value.  Its parameter is a reference, read
    after [VectorMoveRigth] has shifted the elements: for an element
    [v[i]] behind [pos] that reads as [x] before the call,
    [v.Insert(pos, v[i])] with room to spare inserts the element that
    was at [i - 1] and has moved into slot [i], not [x]; on a full
    vector the reference points into the block that [Reserve] has
    freed, and the call is undefined. *)
Theorem C6_Insert_of_own_element_reads_after_the_shift h v k i xs x :
  wf h v → elements h v = Some xs →
  k < i → xs !! N.to_nat i = Some x →
  (GetSize v = GetCapacity v → 2 * GetCapacity v < SIZE_MODULUS) →
  read (Lvalue (operator_index v i)) h = Ok (x, h)
  ∧ (GetSize v < GetCapacity v →
     ∃ y v' h', xs !! (N.to_nat i - 1)%nat = Some y
       ∧ Insert v (ptr_add (begin v) k) (Lvalue (operator_index v i)) h
         = Ok ((ptr_add (begin v') k, v'), h')
       ∧ elements h' v' = Some (take (N.to_nat k) xs ++ y :: drop (N.to_nat k) xs))
  ∧ (GetSize v = GetCapacity v →
     Insert v (ptr_add (begin v) k) (Lvalue (operator_index v i)) h = Undefined).
Proof.
  intros Hwf Hxs Hki Hx Hfit. unfold GetSize, GetCapacity in *.
  pose proof (elements_length _ _ _ Hxs) as Hlx.
  pose proof (lookup_lt_Some _ _ _ Hx) as Hi.
  assert (Hk : k ≤ size_ v) by lia.
  destruct (VectorMoveRigth_spec h v k xs Hwf Hxs Hk Hfit)
    as (p & h1 & b1 & cap' & Hvm & _ & Hb1 & _ & _ & _ & _ & Hd & _ & Hsame & Hfreed).
  split; [|split].
  - destruct (elements_inv _ _ _ Hxs) as (b & Hb & Hle & ->).
    rewrite lookup_take_lt in Hx by lia. simpl. by eapply load_Ok.
  - intros Hlt. rewrite (Hsame Hlt) in *.
    destruct (lookup_lt_is_Some_2 xs (N.to_nat i - 1)) as [y Hy]; [lia|].
    exists y.
    destruct (Insert_after_shift h v k (Lvalue (operator_index v i)) y xs Hwf Hxs Hk Hfit)
      as (v' & h' & Hins & _ & _ & Hel & _).
    + intros r h2 Hvm2. rewrite Hvm in Hvm2. injection Hvm2 as <- <-.
      simpl. eapply load_Ok; [exact Hb1|]. simpl.
      apply (f_equal (λ l, l !! (N.to_nat i - N.to_nat k - 1)%nat)) in Hd.
      rewrite lookup_take_lt, !lookup_drop in Hd by lia.
      replace (S (N.to_nat k) + (N.to_nat i - N.to_nat k - 1))%nat with (N.to_nat i) in Hd by lia.
      replace (N.to_nat k + (N.to_nat i - N.to_nat k - 1))%nat
        with (N.to_nat i - 1)%nat in Hd by lia.
      by rewrite Hd.
    + by exists v', h'.
  - intros Hfull. specialize (Hfreed Hfull).
    unfold Insert. erewrite bind_run by exact Hvm. simpl.
    apply bind_Undefined. unfold load, operator_index, slot. simpl.
    destruct (items_ v) as [l|] eqn:Hl.
    + by rewrite (Hfreed l eq_refl).
    + done.
Qed.

(** ** Comparisons *)

Lemma equal_loop_spec k p q i j b1 b2 h :
  block_of h p = Some b1 → block_of h q = Some b2 →
  (i + k ≤ length b1)%nat → (j + k ≤ length b2)%nat →
  ∃ r, equal_loop k (Ptr p (N.of_nat i)) (Ptr q (N.of_nat j)) h = Ok (r, h)
       ∧ (r = true ↔ same_elements (take k (drop i b1)) (take k (drop j b2))).
Proof.
  intros Hb1 Hb2. revert i j. induction k as [|k IH]; intros i j Hi Hj; simpl.
  - exists true. split; [done|]. split; [|done]. intros _. split; [done|].
    by intros [|m] x y.
  - destruct (lookup_lt_is_Some_2 b1 i) as [x Hx]; [lia|].
    destruct (lookup_lt_is_Some_2 b2 j) as [y Hy]; [lia|].
    erewrite bind_run; [|eapply load_Ok; [exact Hb1 | simpl; by rewrite Nat2N.id]].
    erewrite bind_run; [|eapply load_Ok; [exact Hb2 | simpl; by rewrite Nat2N.id]].
    rewrite (drop_S b1 x i Hx), (drop_S b2 y j Hy). simpl.
    destruct (T_eq x y) eqn:Hxy.
    + unfold ptr_add. simpl.
      replace (N.of_nat i + 1) with (N.of_nat (S i)) by lia.
      replace (N.of_nat j + 1) with (N.of_nat (S j)) by lia.
      destruct (IH (S i) (S j)) as (r & Hr & Hiff); [lia..|].
      exists r. split; [done|]. rewrite Hiff. split.
      * intros [Hlen Hall]. split; [simpl; by rewrite Hlen|].
        intros [|m] x' y'; simpl; [by intros [= <-] [= <-]|]. apply Hall.
      * intros [Hlen Hall]. split; [simpl in Hlen; lia|].
        intros m x' y'. apply (Hall (S m)).
    + exists false. split; [done|]. split; [done|].
      intros [_ Hall]. specialize (Hall O x y eq_refl eq_refl). congruence.
Qed.

Lemma lexicographical_loop_spec k1 p q b1 b2 h : ∀ k2 i j,
  block_of h p = Some b1 → block_of h q = Some b2 →
  (i + k1 ≤ length b1)%nat → (j + k2 ≤ length b2)%nat →
  ∃ r, lexicographical_loop k1 k2 (Ptr p (N.of_nat i)) (Ptr q (N.of_nat j)) h = Ok (r, h)
       ∧ (r = true ↔ lexicographic (take k1 (drop i b1)) (take k2 (drop j b2))).
Proof.
  induction k1 as [|k1 IH]; intros k2 i j Hb1 Hb2 Hi Hj.
  - destruct k2 as [|k2]; simpl.
    + exists false. split; [done|]. split; [done|]. inversion 1.
    + destruct (lookup_lt_is_Some_2 b2 j) as [y Hy]; [lia|].
      rewrite (drop_S b2 y j Hy). simpl.
      exists true. split; [done|]. split; [|done]. intros _. constructor.
  - destruct (lookup_lt_is_Some_2 b1 i) as [x Hx]; [lia|].
    rewrite (drop_S b1 x i Hx).
    destruct k2 as [|k2]; simpl.
    + exists false. split; [done|]. split; [done|]. inversion 1.
    + destruct (lookup_lt_is_Some_2 b2 j) as [y Hy]; [lia|].
      rewrite (drop_S b2 y j Hy). simpl.
      erewrite bind_run; [|eapply load_Ok; [exact Hb1 | simpl; by rewrite Nat2N.id]].
      erewrite bind_run; [|eapply load_Ok; [exact Hb2 | simpl; by rewrite Nat2N.id]].
      destruct (T_lt x y) eqn:Hxy.
      * exists true. split; [done|]. split; [|done]. intros _. by constructor.
      * destruct (T_lt y x) eqn:Hyx.
        -- exists false. split; [done|]. split; [done|]. inversion 1; congruence.
        -- unfold ptr_add. simpl.
           replace (N.of_nat i + 1) with (N.of_nat (S i)) by lia.
           replace (N.of_nat j + 1) with (N.of_nat (S j)) by lia.
           destruct (IH k2 (S i) (S j)) as (r & Hr & Hiff); [done | done | lia | lia |].
           exists r. split; [done|]. rewrite Hiff. split.
           ++ intros. by constructor.
           ++ inversion 1; [congruence | done].
Qed.

(** C9: [operator==] returns true exactly when the sizes are equal and
    the elements agree index by index, and [operator<] is the
    lexicographic order of the two element sequences; neither looks at
    a capacity, so vectors with equal elements and different capacities
    compare equal. *)
Theorem C9_equality_and_lexicographic_order h lhs rhs xs ys :
  elements h lhs = Some xs → elements h rhs = Some ys →
  (∃ r, operator_eq lhs rhs h = Ok (r, h) ∧ (r = true ↔ same_elements xs ys))
  ∧ (∃ r, operator_lt lhs rhs h = Ok (r, h) ∧ (r = true ↔ lexicographic xs ys))
  ∧ ((∀ x, T_eq x x = true) → xs = ys → operator_eq lhs rhs h = Ok (true, h)).
Proof.
  intros Hxs Hys.
  pose proof (elements_length _ _ _ Hxs) as Hlx.
  pose proof (elements_length _ _ _ Hys) as Hly.
  apply elements_inv in Hxs as (b1 & Hb1 & Hl1 & ->).
  apply elements_inv in Hys as (b2 & Hb2 & Hl2 & ->).
  assert (Heq : ∃ r, operator_eq lhs rhs h = Ok (r, h)
                ∧ (r = true ↔ same_elements (take (N.to_nat (size_ lhs)) b1)
                                             (take (N.to_nat (size_ rhs)) b2))).
  { unfold operator_eq, GetSize. destruct (decide (size_ lhs = size_ rhs)) as [Hsz|Hsz].
    - unfold std_equal, begin, end_, Get, slot.
      erewrite bind_run by (apply distance_Ok; simpl; [done | lia]). simpl.
      rewrite N.sub_0_r. change 0 with (N.of_nat 0).
      destruct (equal_loop_spec (N.to_nat (size_ lhs)) (items_ lhs) (items_ rhs) 0 0 b1 b2 h)
        as (r & Hr & Hiff); [done | done | lia | lia |].
      exists r. split; [done|]. by rewrite Hiff, Hsz.
    - exists false. split; [done|]. split; [done|]. intros [Hlen _]. lia. }
  split; [done|]. split.
  - unfold operator_lt, std_lexicographical_compare, begin, end_, Get, slot.
    erewrite bind_run by (apply distance_Ok; simpl; [done | lia]).
    erewrite bind_run by (apply distance_Ok; simpl; [done | lia]). simpl.
    rewrite !N.sub_0_r. change 0 with (N.of_nat 0).
    apply (lexicographical_loop_spec _ _ _ b1 b2 h _ 0%nat 0%nat); [done | done | lia | lia].
  - intros Hrefl Hsame. destruct Heq as (r & Hr & Hiff). rewrite Hr.
    do 2 f_equal. apply Hiff. rewrite Hsame. split; [done|].
    intros i x y Hx Hy. rewrite Hx in Hy. injection Hy as <-. apply Hrefl.
Qed.

(** ** Without copies and reservation hints every block has [capacity_] slots *)

Lemma wf_exact h v : wf h v ↔ vec_ok h v ∧ exact h v.
Proof.
  split.
  - intros (b & Hb & Hlen & Hs & Hc). split.
    + exists b. split; [done|]. lia.
    + intros b' Hb'. by simplify_eq.
  - intros [(b & Hb & Hs & Hc) Hex]. destruct (Hex b Hb) as [Hlen Hmax].
    exists b. repeat split; try done. lia.
Qed.

Lemma exact_resized h h' v p new_size :
  exact h v → preserves p h h' →
  exact h' (MkVec new_size (capacity_ v) (items_ v)).
Proof.
  intros Hex Hp b' Hb'. simpl in *.
  destruct (items_ v) as [l|] eqn:Hl; simpl in *.
  - destruct (Hp l) as [_ Hlen]. rewrite Hb' in Hlen.
    destruct (h !! l) as [b|] eqn:Hb; [|done]. simpl in Hlen.
    injection Hlen as Hlen. rewrite Hlen. apply Hex. by rewrite Hl.
  - apply Hex. by rewrite Hl.
Qed.

Lemma Reserve_exact v n h v' h' :
  vec_ok h v → exact h v → n < SIZE_MODULUS →
  Reserve v n h = Ok (v', h') → exact h' v'.
Proof.
  intros Hok Hex Hn H.
  destruct (Reserve_ok _ _ _ _ _ Hok H) as (_ & _ & _ & Hgrow & Hsame).
  destruct (decide (capacity_ v ≤ n)) as [Hle|Hgt].
  - destruct (Hgrow Hle) as (Hcap & b & Hb & Hlen).
    intros b' Hb'. rewrite Hb in Hb'. injection Hb' as <-. by rewrite Hcap.
  - destruct Hsame as [-> ->]; [lia | done].
Qed.

Lemma PushBack_exact v item h v' h' :
  vec_ok h v → exact h v → PushBack v item h = Ok (v', h') → exact h' v'.
Proof.
  intros Hok Hex H. unfold PushBack in H. bind_inv H as Hbody. ret_inv H.
  destruct (decide (size_ v < capacity_ v)).
  - bind_inv Hbody as Hrd. apply read_inv in Hrd as ->.
    bind_inv Hbody as Hst. ret_inv Hbody.
    apply store_preserves in Hst. by eapply exact_resized.
  - bind_inv Hbody as Hres. bind_inv Hbody as Hrd. apply read_inv in Hrd as ->.
    bind_inv Hbody as Hst. ret_inv Hbody.
    apply Reserve_exact in Hres; [|done|done|].
    + apply store_preserves in Hst. by eapply exact_resized.
    + apply N.max_lub_lt; [by compute | apply wrap_lt].
Qed.

Lemma Resize_exact v new_size h v' h' :
  vec_ok h v → exact h v → new_size < SIZE_MODULUS →
  Resize v new_size h = Ok (v', h') → exact h' v'.
Proof.
  intros Hok Hex Hn H. unfold Resize in H.
  destruct (decide (new_size < size_ v)).
  - ret_inv H. eapply exact_resized; [done | apply (preserves_refl None)].
  - destruct (decide (new_size ≤ capacity_ v)).
    + bind_inv H as Hmv. ret_inv H. apply std_move_to_value_inv in Hmv as ->.
      eapply exact_resized; [done | apply (preserves_refl None)].
    + bind_inv H as Hres. bind_inv H as Hmv. ret_inv H.
      apply std_move_to_value_inv in Hmv as ->.
      apply Reserve_exact in Hres; [|done|done|].
      * eapply exact_resized; [done | apply (preserves_refl None)].
      * apply N.max_lub_lt; [done | apply wrap_lt].
Qed.

Lemma Insert_exact v pos value h r h' :
  vec_ok h v → exact h v → Insert v pos value h = Ok (r, h') → exact h' (snd r).
Proof.
  intros Hok Hex H. unfold Insert in H. bind_inv H as Hvm. destruct a as [number_pos v1].
  bind_inv H as Hrd. apply read_inv in Hrd as ->. bind_inv H as Hst. ret_inv H. simpl.
  unfold VectorMoveRigth in Hvm. bind_inv Hvm as Hd.
  apply distance_inv in Hd as (-> & _). bind_inv Hvm as Hbody.
  apply ret_Ok_inv in Hvm as [[= -> ->] ->]. simpl in *.
  apply store_preserves in Hst. simpl in Hst.
  destruct (decide (size_ v < capacity_ v)).
  - bind_inv Hbody as Hmb. ret_inv Hbody.
    apply std_move_backward_preserves in Hmb. simpl in Hmb.
    eapply exact_resized; [done | by eapply preserves_trans].
  - destruct (decide (capacity_ v = 0)).
    + apply Reserve_exact in Hbody; [|done|done|by compute].
      by eapply exact_resized.
    + bind_inv Hbody as Hres. bind_inv Hbody as Hmb. ret_inv Hbody.
      apply Reserve_exact in Hres; [|done|done|apply wrap_lt].
      apply std_move_backward_preserves in Hmb. simpl in Hmb.
      eapply exact_resized; [done | by eapply preserves_trans].
Qed.

Lemma Erase_exact v pos h r h' :
  vec_ok h v → exact h v → Erase v pos h = Ok (r, h') → exact h' (snd r).
Proof.
  intros Hok Hex H. unfold Erase in H. bind_inv H as Hd.
  apply distance_inv in Hd as (-> & _). bind_inv H as Hmv. ret_inv H. simpl.
  apply std_move_preserves in Hmv. by eapply exact_resized.
Qed.

Lemma state_exact_update σ h a v' h' :
  state_exact σ h → exact h' v' →
  (∀ a2 v2 l, a2 ≠ a → σ !! a2 = Some v2 → items_ v2 = Some l →
     items_ v' ≠ Some l ∧ h' !! l = h !! l) →
  state_exact (<[a := v']> σ) h'.
Proof.
  intros Hall Hv' Hothers a2 v2. destruct (decide (a = a2)) as [<-|Hne].
  - rewrite lookup_insert_eq. by intros [= <-].
  - rewrite lookup_insert_ne by done. intros Ha2 b Hb. apply (Hall _ _ Ha2).
    destruct (items_ v2) as [l|] eqn:Hl; [|done]. simpl in *.
    destruct (Hothers a2 v2 l) as [_ <-]; done.
Qed.

Lemma declare_exact a σ ctor h σ' h' :
  state_ok σ h → state_exact σ h →
  (∀ v h1, ctor h = Ok (v, h1) → exact h1 v ∧ evolves None (items_ v) h h1) →
  declare a σ ctor h = Ok (σ', h') → state_exact σ' h'.
Proof.
  intros Hok Hex Hctor H. unfold declare in H.
  destruct (σ !! a) eqn:Ha; [done|].
  bind_inv H as Hc. ret_inv H. destruct (Hctor _ _ Hc) as [? Hev].
  apply state_exact_update with h; [done..|].
  eapply evolves_others; [done|]. by rewrite Ha.
Qed.

Lemma call_exact a σ f h σ' h' :
  state_ok σ h → state_exact σ h →
  (∀ v v' h1, vec_ok h v → exact h v → f v h = Ok (v', h1) →
     exact h1 v' ∧ evolves (items_ v) (items_ v') h h1) →
  call a σ f h = Ok (σ', h') → state_exact σ' h'.
Proof.
  intros Hok Hex Hf H. unfold call in H.
  destruct (σ !! a) as [v|] eqn:Ha; [|done].
  bind_inv H as Hc. ret_inv H.
  destruct (Hf _ _ _ (proj1 Hok _ _ Ha) (Hex _ _ Ha) Hc) as [? Hev].
  apply state_exact_update with h; [done..|].
  eapply evolves_others; [done|]. by rewrite Ha.
Qed.

Lemma exact_block h v b :
  block_of h (items_ v) = Some b → N.of_nat (length b) = capacity_ v →
  capacity_ v < SIZE_MODULUS → exact h v.
Proof. intros Hb Hlen Hmax b' Hb'. by simplify_eq. Qed.

Lemma exact_same_block h h' v v' :
  exact h v → items_ v' = items_ v → capacity_ v' = capacity_ v →
  block_of h' (items_ v) = block_of h (items_ v) → exact h' v'.
Proof. intros Hex Hi Hc Hb b. rewrite Hi, Hc, Hb. apply Hex. Qed.

Lemma exec_exact c σ h σ' h' :
  state_ok σ h → state_exact σ h → copy_free c →
  exec c σ h = Ok (σ', h') → state_exact σ' h'.
Proof.
  intros Hok Hex Hfree H. destruct c; simpl in H, Hfree; try done.
  - eapply declare_exact; [done.. | | done]. intros v h1 Hr. ret_inv Hr.
    split; [|apply evolves_refl]. by apply (exact_block _ _ []).
  - eapply declare_exact; [done.. | | done]. intros v h1 Hr.
    destruct (SimpleVector_size_Ok size h) as (p & h2 & Hc & Hp & Hev).
    rewrite Hc in Hr. injection Hr as <- <-. split; [|done].
    eapply exact_block; [exact Hp | simpl; rewrite length_replicate; lia | done].
  - eapply declare_exact; [done.. | | done]. intros v h1 Hr.
    destruct (SimpleVector_fill_Ok size value h) as (p & h2 & Hc & Hp & Hev).
    rewrite Hc in Hr. injection Hr as <- <-. split; [|done].
    eapply exact_block; [exact Hp | simpl; rewrite length_replicate; lia | done].
  - eapply declare_exact; [done.. | | done]. intros v h1 Hr.
    destruct (SimpleVector_init_Ok init h) as (p & h2 & Hc & Hp & Hev).
    rewrite Hc in Hr. injection Hr as <- <-. split; [|done].
    by eapply exact_block.
  - destruct (σ !! a) eqn:Ha; [done|].
    destruct (σ !! other) as [o|] eqn:Ho; [|done].
    simpl in H. ret_inv H. assert (a ≠ other) by congruence.
    apply state_exact_update with h.
    + apply state_exact_update with h; [done | by intros b [= <-]; compute | by split].
    + by apply (exact_same_block h h o); [apply (Hex _ _ Ho)|..].
    + intros a2 v2 l Ha2. destruct (decide (a2 = other)) as [->|Hne2].
      * rewrite lookup_insert_eq. by intros [= <-].
      * rewrite lookup_insert_ne by done. intros Hv2 Hl. simpl. split; [|done].
        intros Hr. apply Hne2. by eapply (proj2 Hok).
  - unfold operator_assign_move in H.
    destruct (decide (a ≠ rhs)) as [Hne|]; [|by ret_inv H].
    destruct (σ !! a) as [v|] eqn:Hthis; [|done].
    destruct (σ !! rhs) as [r|] eqn:Hrhs; [|done].
    simpl in H. bind_inv H as Hdel. ret_inv H.
    apply ArrayPtr_delete_inv in Hdel as [Hkeep Hgone].
    assert (Hrv : ∀ l, items_ r = Some l → items_ v ≠ Some l).
    { intros l Hr Hv. apply Hne. by eapply (proj2 Hok). }
    apply state_exact_update with h.
    + apply state_exact_update with h; [done | by intros b [= <-]; compute | by split].
    + apply (exact_same_block h _ r); [by apply (Hex _ _ Hrhs) | done | done |].
      destruct (items_ r) as [l|]; [|done]. simpl. apply Hkeep. by apply Hrv.
    + intros a2 v2 l Ha2. destruct (decide (a2 = rhs)) as [->|Hne2].
      * rewrite lookup_insert_eq. by intros [= <-].
      * rewrite lookup_insert_ne by done. intros Hv2 Hl. simpl. split.
        -- intros Hr. apply Hne2. by eapply (proj2 Hok).
        -- apply Hkeep. intros Hv. apply Ha2. by eapply (proj2 Hok).
  - eapply call_exact; [done.. | | done]. intros v v' h1 Hv Hxv Hr. ret_inv Hr.
    split; [|apply evolves_refl]. by apply (exact_same_block h h v).
  - eapply call_exact; [done.. | | done]. intros v v' h1 Hv Hxv Hr.
    split; [eapply Resize_exact; [exact Hv | exact Hxv | exact Hfree | exact Hr] | eapply Resize_ok; [exact Hv | exact Hr]].
  - eapply call_exact; [done.. | | done]. intros v v' h1 Hv Hxv Hr.
    split; [eapply PushBack_exact; [exact Hv | exact Hxv | exact Hr] | eapply PushBack_ok; [exact Hv | exact Hr]].
  - eapply call_exact; [done.. | | done]. intros v v' h1 Hv Hxv Hr.
    bind_inv Hr as Hi. ret_inv Hr.
    split; [eapply Insert_exact; [exact Hv | exact Hxv | exact Hi] | eapply Insert_ok; [exact Hv | exact Hi]].
  - eapply call_exact; [done.. | | done]. intros v v' h1 Hv Hxv Hr. ret_inv Hr.
    destruct (PopBack_ok h v Hv) as [_ Hi]. rewrite Hi. split; [|apply evolves_refl].
    apply (exact_same_block h h v); [done | done | | done].
    unfold PopBack. by destruct (negb _).
  - eapply call_exact; [done.. | | done]. intros v v' h1 Hv Hxv Hr.
    bind_inv Hr as He. ret_inv Hr.
    split; [eapply Erase_exact; [exact Hv | exact Hxv | exact He] | eapply Erase_ok; [exact Hv | exact He]].
  - destruct (σ !! a) as [v|] eqn:Ha; [|done].
    destruct (σ !! other) as [o|] eqn:Ho; [|done].
    simpl in H. ret_inv H. intros x w.
    destruct (decide (x = a)) as [->|Hxa].
    + rewrite lookup_insert_eq. intros [= <-]. by apply (Hex _ _ Ho).
    + rewrite lookup_insert_ne by done. destruct (decide (x = other)) as [->|Hxo].
      * rewrite lookup_insert_eq. intros [= <-]. by apply (Hex _ _ Ha).
      * rewrite lookup_insert_ne by done. apply Hex.
  - eapply call_exact; [done.. | | done]. intros v v' h1 Hv Hxv Hr.
    split; [eapply Reserve_exact; [exact Hv | exact Hxv | exact Hfree | exact Hr]|].
    by destruct (Reserve_ok _ _ _ _ _ Hv Hr) as (_ & ? & _).
Qed.

(** In a program without copies and reservation hints, every vector
    satisfies [wf]: its block has exactly [capacity_] slots. *)
Lemma copy_free_programs_keep_wf cs : ∀ σ h σ' h',
  Forall copy_free cs → state_ok σ h → state_exact σ h →
  run cs σ h = Ok (σ', h') →
  ∀ a v, σ' !! a = Some v → wf h' v.
Proof.
  induction cs as [|c cs IH]; intros σ h σ' h' Hfree Hok Hex H; simpl in H.
  - ret_inv H. intros a v Ha. apply wf_exact. split; [by eapply (proj1 Hok) | by eapply Hex].
  - apply Forall_cons in Hfree as [Hc Hcs]. bind_inv H as Hexec.
    eapply IH; [done | | | done].
    + by eapply exec_ok.
    + by eapply exec_exact.
Qed.

Corollary copy_free_programs_reach_wf cs σ h a v :
  Forall copy_free cs → run cs ∅ ∅ = Ok (σ, h) → σ !! a = Some v → wf h v.
Proof.
  intros Hfree Hrun. eapply copy_free_programs_keep_wf; [done | | | done].
  - apply state_ok_empty.
  - intros a' v'. by rewrite lookup_empty.
Qed.

(** ** [Resize] where it does what the specification says *)

Lemma Resize_shrink h v new_size xs :
  elements h v = Some xs → new_size < size_ v →
  Resize v new_size h = Ok (MkVec new_size (capacity_ v) (items_ v), h)
  ∧ elements h (MkVec new_size (capacity_ v) (items_ v))
    = Some (take (N.to_nat new_size) xs).
Proof.
  intros (b & Hb & Hlen & ->)%elements_inv Hlt. unfold Resize.
  rewrite decide_True by done. split; [done|].
  erewrite elements_block; [|exact Hb|simpl; lia].
  simpl. rewrite take_take. do 2 f_equal. lia.
Qed.

Lemma Resize_grow h v new_size xs :
  wf h v → elements h v = Some xs → capacity_ v < new_size →
  2 * capacity_ v < SIZE_MODULUS →
  ∃ v' h', Resize v new_size h = Ok (v', h')
    ∧ size_ v' = new_size
    ∧ capacity_ v' = N.max new_size (2 * capacity_ v)
    ∧ elements h' v'
      = Some (xs ++ replicate (N.to_nat new_size - N.to_nat (size_ v)) T_default)
    ∧ evolves (items_ v) (items_ v') h h'.
Proof.
  intros (b & Hb & Hlen & Hs & Hc) Hxs Hgt Hfit.
  apply elements_inv in Hxs as (b0 & Hb0 & _ & ->). simplify_eq.
  unfold Resize. rewrite decide_False by lia. rewrite decide_False by lia.
  rewrite wrap_small by done.
  set (m := N.max new_size (2 * capacity_ v)).
  destruct (Reserve_grow v m h b) as (p & h1 & HR & Hp & Hev); [done | lia | lia | lia |].
  erewrite bind_run by exact HR. simpl.
  erewrite bind_run.
  2:{ eapply std_move_to_value_Ok; [exact Hp | lia |].
      rewrite length_app, length_take, length_replicate. lia. }
  rewrite ret_run. eexists _, _. split; [done|]. simpl.
  split; [done|]. split; [done|]. split; [|done].
  erewrite elements_block; [|exact Hp|].
  - simpl. rewrite take_app, length_take, take_take, take_replicate.
    do 2 f_equal; [f_equal; lia | f_equal; lia].
  - simpl. rewrite length_app, length_take, length_replicate. lia.
Qed.

(** ** A call on one vector leaves the blocks of the others alone *)

Lemma evolves_other_block p p' h h' l :
  evolves p p' h h' → p ≠ Some l → is_Some (h !! l) →
  p' ≠ Some l ∧ h' !! l = h !! l.
Proof.
  intros [HF HN] Hne [b Hb].
  assert (p' ≠ Some l) as Hne'.
  { intros Hp'. destruct (HN l Hp'); congruence. }
  split; [done|]. by apply HF.
Qed.

Lemma elements_other_block h h' v l :
  items_ v = Some l → h' !! l = h !! l → elements h' v = elements h v.
Proof. intros Hl Heq. unfold elements. rewrite Hl. simpl. by rewrite Heq. Qed.

(** Whenever a mutation of [c] is defined, a vector [v] that owns
    another block keeps its elements. *)
Lemma mutation_keeps_other_vector h c v :
  vec_ok h c → vec_ok h v → items_ v ≠ items_ c ∨ items_ v = None →
  (∀ item c' h', PushBack c item h = Ok (c', h') → elements h' v = elements h v)
  ∧ (∀ pos value r h', Insert c pos value h = Ok (r, h') → elements h' v = elements h v)
  ∧ (∀ pos r h', Erase c pos h = Ok (r, h') → elements h' v = elements h v)
  ∧ (∀ n c' h', Resize c n h = Ok (c', h') → elements h' v = elements h v)
  ∧ (∀ n c' h', Reserve c n h = Ok (c', h') → elements h' v = elements h v).
Proof.
  intros Hc (b & Hb & _) Hne.
  assert (Hkeep : ∀ p' h', evolves (items_ c) p' h h' → elements h' v = elements h v).
  { intros p' h' Hev. destruct (items_ v) as [l|] eqn:Hl; [|by unfold elements; rewrite Hl].
    destruct Hne as [Hne|?]; [|done].
    destruct (evolves_other_block _ _ _ _ l Hev) as [_ Heq]; [congruence | by eexists |].
    by apply elements_other_block with l. }
  repeat split.
  - intros item c' h' H. by destruct (PushBack_ok _ _ _ _ _ Hc H) as [_ ?%Hkeep].
  - intros pos value r h' H. by destruct (Insert_ok _ _ _ _ _ _ Hc H) as [_ ?%Hkeep].
  - intros pos r h' H. by destruct (Erase_ok _ _ _ _ _ Hc H) as [_ ?%Hkeep].
  - intros n c' h' H. by destruct (Resize_ok _ _ _ _ _ Hc H) as [_ ?%Hkeep].
  - intros n c' h' H. by destruct (Reserve_ok _ _ _ _ _ Hc H) as (_ & ?%Hkeep & _).
Qed.

(** ** The claims on constructors, [Resize] and assignment *)

(** What does hold of every vector in a state that a client program
    reaches by defined calls: [size_ <= capacity_], and the block has
    a slot for every index of [0, size_), so the elements can be
    read. *)
Lemma reachable_vectors_hold_their_elements cs σ h a v :
  run cs ∅ ∅ = Ok (σ, h) → σ !! a = Some v →
  size_ v ≤ capacity_ v
  ∧ ∃ xs, elements h v = Some xs ∧ N.of_nat (length xs) = size_ v.
Proof.
  intros Hrun Ha.
  pose proof (run_ok _ _ _ _ _ state_ok_empty Hrun) as [Hall _].
  pose proof (Hall _ _ Ha) as Hok.
  split; [destruct Hok as (b & _ & ? & ?); lia|].
  destruct (vec_ok_elements _ _ Hok) as [xs Hxs].
  exists xs. split; [done|]. by eapply elements_length.
Qed.

(** C2: the constructor from a reservation hint returns size 0 and
    capacity [hint], but it allocates a block of [size_ = 0] slots: the
    first [PushBack] stores through a null pointer. *)
Theorem C2_reserved_vector_has_no_block hint item h :
  hint ≠ 0 →
  ∃ v, SimpleVector_reserve (Reserve_proxy hint) h = Ok (v, h)
       ∧ GetSize v = 0 ∧ GetCapacity v = hint ∧ items_ v = None
       ∧ PushBack v item h = Undefined.
Proof.
  intros Hhint. eexists. split; [apply SimpleVector_reserve_Ok|].
  repeat split. unfold PushBack. simpl.
  rewrite decide_True by lia. apply bind_Undefined.
  destruct (read_cases item h) as [[x Hx]|Hu]; [|by apply bind_Undefined].
  erewrite bind_run by exact Hx. by apply bind_Undefined.
Qed.

(** C3: [Resize(n)] with [size_ <= n <= capacity_] changes [size_] and
    nothing else: the slots of the block keep what they held, so the
    indices from the old size on read as the block's old contents and
    not as default values. *)
Theorem C3_Resize_within_capacity_keeps_the_slots h v new_size b :
  block_of h (items_ v) = Some b → N.of_nat (length b) = capacity_ v →
  size_ v ≤ new_size → new_size ≤ capacity_ v →
  ∃ v', Resize v new_size h = Ok (v', h)
        ∧ GetSize v' = new_size ∧ GetCapacity v' = GetCapacity v
        ∧ elements h v' = Some (take (N.to_nat new_size) b).
Proof.
  intros Hb Hlen Hs Hn. eexists. split; [|split; [|split]].
  - unfold Resize. rewrite decide_False by lia. rewrite decide_True by done.
    erewrite bind_run; [apply ret_run|].
    apply std_move_to_value_Ok with b; [done | lia | lia].
  - done.
  - done.
  - apply elements_block; [done | simpl; lia].
Qed.

(** C4: the constructor from a size and a value returns size and
    capacity [size], and a block of default values whatever the value:
    [std::move(begin(), end(), value)] moves the elements out, it does
    not fill the range. *)
Theorem C4_fill_constructor_ignores_the_value size value h :
  ∃ v h', SimpleVector_fill size value h = Ok (v, h')
          ∧ GetSize v = size ∧ GetCapacity v = size
          ∧ elements h' v = Some (replicate (N.to_nat size) T_default).
Proof.
  destruct (SimpleVector_fill_Ok size value h) as (p & h' & Hfill & Hp & _).
  eexists _, _. split; [exact Hfill|]. split; [done|]. split; [done|].
  erewrite elements_block; [|exact Hp|simpl; rewrite length_replicate; lia].
  simpl. by rewrite take_replicate, Nat.min_id.
Qed.

Lemma SimpleVector_copy_spec h v xs :
  vec_ok h v → elements h v = Some xs →
  ∃ c h', SimpleVector_copy v h = Ok (c, h')
    ∧ GetSize c = GetSize v ∧ GetCapacity c = GetCapacity v
    ∧ elements h' c = Some xs
    ∧ elements h' v = Some xs
    ∧ (∀ l, items_ c = Some l → h !! l = None)
    ∧ block_of h' (items_ c) = Some xs.
Proof.
  intros Hok (b & Hb & Hlen & ->)%elements_inv.
  destruct (SimpleVector_copy_Ok v h b Hb Hlen) as (p & h' & Hcopy & Hp & HF & HN).
  eexists _, _. split; [exact Hcopy|]. split; [done|]. split; [done|].
  split; [|split; [|split]].
  - erewrite elements_block; [|exact Hp|simpl; rewrite length_take; lia].
    simpl. by rewrite take_take, Nat.min_id.
  - apply elements_block; [|done].
    destruct (items_ v) as [l|] eqn:Hl; [|done]. simpl in *.
    rewrite HF; [done | done |]. intros ->.
    destruct (HN l eq_refl); congruence.
  - simpl. intros l ->. by destruct (HN l eq_refl).
  - done.
Qed.

(** C1: the invariant does not hold of every reachable vector.  The
    constructor from a reservation hint returns the capacity [hint]
    over no block at all, and the copy constructor returns the
    capacity of the original over a block of [size_] slots: for a hint
    of at least 1, and for an original with spare capacity, the slots
    of [size_, capacity_) that the invariant speaks of do not exist. *)
Theorem C1_constructors_break_the_invariant :
  (∀ hint h, 0 < hint →
     ∃ v, SimpleVector_reserve (Reserve_proxy hint) h = Ok (v, h)
          ∧ GetSize v = 0 ∧ GetCapacity v = hint
          ∧ block_of h (items_ v) = Some []
          ∧ ¬ spec_invariant h v)
  ∧ (∀ h v xs,
       vec_ok h v → elements h v = Some xs → GetSize v < GetCapacity v →
       ∃ c h', SimpleVector_copy v h = Ok (c, h')
          ∧ GetSize c = GetSize v ∧ GetCapacity c = GetCapacity v
          ∧ block_of h' (items_ c) = Some xs
          ∧ N.of_nat (length xs) < GetCapacity c
          ∧ ¬ spec_invariant h' c).
Proof.
  split.
  - intros hint h Hhint. eexists. split; [apply SimpleVector_reserve_Ok|].
    repeat split. intros (_ & b & Hb & Hlen & _). simpl in *.
    injection Hb as <-. simpl in Hlen. lia.
  - intros h v xs Hok Hxs Hlt.
    pose proof (elements_length _ _ _ Hxs) as Hlx.
    destruct (SimpleVector_copy_spec h v xs Hok Hxs)
      as (c & h' & Hcopy & Hsz & Hcap & _ & _ & _ & Hblock).
    unfold GetSize, GetCapacity in *.
    exists c, h'. split; [done|]. split; [done|]. split; [done|]. split; [done|].
    split; [lia|].
    intros (_ & b & Hb & Hlen & _). rewrite Hblock in Hb. injection Hb as <-. lia.
Qed.

(** C8: the copy constructor returns a vector in a block of its own
    with the elements of the original, but the block has [size_] slots
    while the copy takes over [capacity_]: when the original has spare
    capacity, [PushBack] on the copy stores past the end of the copy's
    block. *)
Theorem C8_copy_with_spare_capacity_overflows h v item xs :
  wf h v → elements h v = Some xs → size_ v < capacity_ v →
  ∃ c h', SimpleVector_copy v h = Ok (c, h')
    ∧ elements h' c = Some xs
    ∧ elements h' v = Some xs
    ∧ (∀ l, items_ c = Some l → items_ v ≠ Some l)
    ∧ GetCapacity c = GetCapacity v
    ∧ block_of h' (items_ c) = Some xs
    ∧ PushBack c item h' = Undefined.
Proof.
  intros Hwf Hxs Hlt.
  destruct (SimpleVector_copy_spec h v xs (wf_vec_ok _ _ Hwf) Hxs)
    as (c & h' & Hcopy & Hsz & Hcap & Hel & Helv & Hfresh & Hblock).
  exists c, h'. split; [done|]. split; [done|]. split; [done|].
  split; [|split; [done|split; [done|]]].
  - intros l Hc Hv. specialize (Hfresh l Hc).
    destruct Hwf as (b & Hb & _). rewrite Hv in Hb. simpl in Hb. congruence.
  - unfold GetSize, GetCapacity in *. unfold PushBack.
    rewrite decide_True by lia. apply bind_Undefined.
    destruct (read_cases item h') as [[x Hx]|Hu]; [|by apply bind_Undefined].
    erewrite bind_run by exact Hx.
    apply bind_Undefined. unfold store, slot. simpl.
    destruct (items_ c) as [l|]; [|done]. simpl in Hblock. rewrite Hblock.
    rewrite decide_False; [done|].
    pose proof (elements_length _ _ _ Hxs). lia.
Qed.

(** C10: assigning a vector to itself, by copy or by move, returns at
    once: the objects and the heap are as they were. *)
Theorem C10_self_assignment_changes_nothing σ h a :
  operator_assign a a σ h = Ok (σ, h)
  ∧ operator_assign_move a a σ h = Ok (σ, h).
Proof.
  unfold operator_assign, operator_assign_move.
  destruct (decide (a ≠ a)) as [Hne|_]; [by destruct Hne | done].
Qed.

(** * Further properties of the class *)

(** ** [Erase] *)

Lemma move_loop_shift_left k : ∀ l i b h,
  h !! l = Some b → (i + 1 + k ≤ length b)%nat →
  move_loop k (Ptr (Some l) (N.of_nat (i + 1))) (Ptr (Some l) (N.of_nat i)) h
  = Ok (tt, <[l := take i b ++ take k (drop (i + 1) b) ++ drop (i + k) b]> h).
Proof.
  induction k as [|k IH]; intros l i b h Hb Hlen; simpl.
  - rewrite Nat.add_0_r, take_drop, insert_id; done.
  - destruct (lookup_lt_is_Some_2 b (i + 1)) as [x Hx]; [lia|].
    erewrite bind_run; [|eapply load_Ok; [exact Hb | simpl; by rewrite Nat2N.id]].
    erewrite bind_run; [|eapply store_Ok; [done | exact Hb | simpl; lia]].
    simpl. rewrite Nat2N.id. unfold ptr_add. simpl.
    replace (N.of_nat (i + 1) + 1) with (N.of_nat (i + 1 + 1)) by lia.
    replace (N.of_nat i + 1) with (N.of_nat (i + 1)) by lia.
    rewrite (IH l (i + 1)%nat (<[i := x]> b)).
    + rewrite insert_insert_eq. do 3 f_equal.
      replace (i + 1)%nat with (S i) by lia.
      rewrite take_push by lia.
      rewrite !drop_insert_lt by lia.
      rewrite (drop_S b x (S i)) by (by replace (S i) with (i + 1)%nat by lia).
      rewrite <- app_assoc. simpl.
      replace (S (i + 1)) with (S (S i)) by lia.
      by replace (i + S k)%nat with (S (i + k)) by lia.
    + apply lookup_insert_eq.
    + rewrite length_insert. lia.
Qed.

Lemma Erase_spec h v k xs :
  elements h v = Some xs → k < size_ v → size_ v < SIZE_MODULUS →
  ∃ h', Erase v (ptr_add (begin v) k) h
        = Ok ((ptr_add (begin v) k, MkVec (size_ v - 1) (capacity_ v) (items_ v)), h')
    ∧ elements h' (MkVec (size_ v - 1) (capacity_ v) (items_ v))
      = Some (take (N.to_nat k) xs ++ drop (S (N.to_nat k)) xs)
    ∧ preserves (items_ v) h h'.
Proof.
  intros (b & Hb & Hlen & ->)%elements_inv Hk Hmax.
  destruct (items_ v) as [l|] eqn:Hl; simpl in Hb.
  2:{ injection Hb as <-. simpl in Hlen. lia. }
  set (i := N.to_nat k). set (s := N.to_nat (size_ v)).
  assert (Hmv : std_move (Ptr (Some l) (k + 1)) (Ptr (Some l) (size_ v)) (Ptr (Some l) k) h
                = Ok (tt, <[l := take i b ++ take (s - i - 1) (drop (i + 1) b)
                                 ++ drop (s - 1) b]> h)).
  { unfold std_move. erewrite bind_run by (apply distance_Ok; simpl; [done | subst i s; lia]). simpl.
    replace (Ptr (Some l) (k + 1)) with (Ptr (Some l) (N.of_nat (i + 1)))
      by (f_equal; subst i s; lia).
    replace (Ptr (Some l) k) with (Ptr (Some l) (N.of_nat i)) by (f_equal; subst i s; lia).
    rewrite move_loop_shift_left with (b := b); [|done|subst i s; lia].
    do 3 f_equal. replace (N.to_nat (size_ v - (k + 1))) with (s - i - 1)%nat by (subst i s; lia).
    by replace (i + (s - i - 1))%nat with (s - 1)%nat by (subst i s; lia). }
  eexists. split; [|split].
  - unfold Erase, cbegin, begin, Get, ptr_add, slot. rewrite Hl. simpl.
    erewrite bind_run by (apply distance_Ok; simpl; [done | subst i s; lia]). simpl.
    rewrite N.sub_0_r. unfold end_, slot. rewrite Hl.
    erewrite bind_run by exact Hmv. rewrite ret_run.
    rewrite decr_small by (subst i s; lia). done.
  - erewrite elements_block; [|simpl; apply lookup_insert_eq|].
    + simpl. replace (N.to_nat (size_ v - 1)) with (s - 1)%nat by (subst i s; lia).
      rewrite app_assoc. rewrite take_app_length'.
      * rewrite !take_take. replace (i `min` s)%nat with i by (subst i s; lia).
        do 2 f_equal. rewrite take_drop_commute. do 2 f_equal; subst i s; lia.
      * rewrite length_app, !length_take, length_drop. subst i s; lia.
    + simpl. rewrite !length_app, !length_take, !length_drop. subst i s; lia.
  - by apply std_move_preserves in Hmv.
Qed.

Lemma Erase_past_end h v k :
  size_ v ≤ k → Erase v (ptr_add (begin v) k) h = Undefined.
Proof.
  intros Hk. unfold Erase, cbegin, begin, Get, ptr_add. simpl.
  erewrite bind_run by (apply distance_Ok; simpl; [done | lia]). simpl.
  apply bind_Undefined. unfold std_move. apply bind_Undefined.
  unfold distance. rewrite decide_False; [done|]. simpl. lia.
Qed.

(** ** [PopBack] *)

Lemma PopBack_spec h v xs :
  elements h v = Some xs → size_ v < SIZE_MODULUS →
  elements h (PopBack v) = Some (take (length xs - 1) xs)
  ∧ GetSize (PopBack v) = GetSize v - 1
  ∧ GetCapacity (PopBack v) = GetCapacity v
  ∧ items_ (PopBack v) = items_ v.
Proof.
  intros Hxs Hmax. pose proof (elements_length _ _ _ Hxs) as Hlx.
  apply elements_inv in Hxs as (b & Hb & Hlen & ->).
  unfold PopBack, IsEmpty, GetSize, GetCapacity. case_bool_decide as Hz; simpl.
  - rewrite Hz. simpl. split; [|done].
    erewrite elements_block; [|exact Hb | rewrite Hz; simpl; lia]. by rewrite Hz.
  - rewrite decr_small by done. split; [|done].
    erewrite elements_block; [|exact Hb | simpl; lia]. simpl.
    rewrite take_take, length_take. do 2 f_equal. lia.
Qed.

(** ** Writing a slot that is out of the block *)

Lemma store_out_of_block p i x h b :
  block_of h p = Some b → (length b ≤ N.to_nat i)%nat →
  store (Ptr p i) x h = Undefined.
Proof.
  intros Hb Hlen. unfold store. simpl. destruct p as [l|]; [|done].
  simpl in Hb. rewrite Hb. rewrite decide_False; [done | lia].
Qed.

Lemma std_move_backward_past_end p k s d h :
  s < k → std_move_backward (Ptr p k) (Ptr p s) d h = Undefined.
Proof.
  intros Hk. unfold std_move_backward. apply bind_Undefined.
  unfold distance. rewrite decide_False; [done|]. simpl. lia.
Qed.

Lemma Insert_past_end h v k value :
  vec_ok h v → size_ v < k → Insert v (ptr_add (begin v) k) value h = Undefined.
Proof.
  intros (b & Hb & Hs & Hc) Hk. unfold Insert, VectorMoveRigth, cbegin, begin, Get, ptr_add.
  simpl. destruct (decide (size_ v < capacity_ v)) as [Hlt|Hge].
  - apply bind_Undefined.
    erewrite bind_run by (apply distance_Ok; simpl; [done | lia]). simpl.
    rewrite N.sub_0_r. do 2 apply bind_Undefined.
    by apply std_move_backward_past_end.
  - destruct (decide (capacity_ v = 0)) as [Hz|Hnz].
    + destruct (Reserve_grow v 1 h b) as (p & h1 & HR & Hp & _); [done | lia | lia | lia |].
      erewrite bind_run.
      2:{ erewrite bind_run by (apply distance_Ok; simpl; [done | lia]). simpl.
          erewrite bind_run by exact HR. apply ret_run. }
      simpl. rewrite N.sub_0_r.
      destruct (read_cases value h1) as [[x Hx]|Hu]; [|by apply bind_Undefined].
      erewrite bind_run by exact Hx. apply bind_Undefined.
      eapply (store_out_of_block p k); [exact Hp|].
      rewrite length_app, length_take, length_replicate. lia.
    + apply bind_Undefined.
      erewrite bind_run by (apply distance_Ok; simpl; [done | lia]). simpl.
      rewrite N.sub_0_r. apply bind_Undefined.
      destruct (decide (capacity_ v ≤ wrap (2 * capacity_ v))) as [Hle|Hgt].
      * destruct (Reserve_grow v (wrap (2 * capacity_ v)) h b) as (p & h1 & HR & _);
          [done | lia | lia | lia |].
        erewrite bind_run by exact HR. apply bind_Undefined.
        by apply std_move_backward_past_end.
      * unfold Reserve. rewrite decide_False by done.
        erewrite bind_run by apply ret_run. apply bind_Undefined.
        by apply std_move_backward_past_end.
Qed.

(** ** [Reserve] *)

Lemma Reserve_spec h v n xs :
  vec_ok h v → elements h v = Some xs →
  (capacity_ v ≤ n → n < SIZE_MODULUS →
   ∃ v' h', Reserve v n h = Ok (v', h')
     ∧ GetSize v' = GetSize v ∧ GetCapacity v' = n
     ∧ elements h' v' = Some xs ∧ wf h' v'
     ∧ evolves (items_ v) (items_ v') h h')
  ∧ (n < capacity_ v → Reserve v n h = Ok (v, h)).
Proof.
  intros (b & Hb & Hs & Hc) Hxs. split.
  - intros Hn Hmax.
    apply elements_inv in Hxs as (b0 & Hb0 & Hlen & ->). simplify_eq.
    destruct (Reserve_grow v n h b) as (p & h' & HR & Hp & Hev); [done | lia | done | lia |].
    eexists _, _. split; [exact HR|]. split; [done|]. split; [done|].
    assert (Hl : length (take (N.to_nat (size_ v)) b
                         ++ replicate (N.to_nat n - N.to_nat (size_ v)) T_default)
                 = N.to_nat n).
    { rewrite length_app, length_take, length_replicate. lia. }
    split; [|split; [|done]].
    + erewrite elements_block; [|exact Hp|simpl; lia]. simpl.
      rewrite take_app_le by (rewrite length_take; lia).
      by rewrite take_take, Nat.min_id.
    + eexists. split; [exact Hp|]. simpl. rewrite Hl. repeat split; lia.
  - intros Hn. unfold Reserve. by rewrite decide_False by lia.
Qed.

(** ** [PushBack] with room to spare *)

Lemma PushBack_in_place h v item x xs :
  wf h v → elements h v = Some xs → size_ v < capacity_ v →
  read item h = Ok (x, h) →
  ∃ h', PushBack v item h = Ok (MkVec (size_ v + 1) (capacity_ v) (items_ v), h')
    ∧ elements h' (MkVec (size_ v + 1) (capacity_ v) (items_ v)) = Some (xs ++ [x])
    ∧ wf h' (MkVec (size_ v + 1) (capacity_ v) (items_ v))
    ∧ preserves (items_ v) h h'.
Proof.
  intros (b & Hb & Hlen & Hs & Hc) Hxs Hlt Hrd.
  apply elements_inv in Hxs as (b0 & Hb0 & _ & ->). simplify_eq.
  destruct (store_block (items_ v) (size_ v) x h b) as (h' & Hst & Hb' & Hp);
    [done | lia |].
  exists h'. split; [|split; [|split; [|done]]].
  - unfold PushBack. rewrite decide_True by done.
    erewrite bind_run.
    2:{ erewrite bind_run by exact Hrd. erewrite bind_run by exact Hst. apply ret_run. }
    rewrite ret_run. by rewrite incr_small by lia.
  - erewrite elements_block; [|exact Hb'|simpl; rewrite length_insert; lia].
    simpl. replace (N.to_nat (size_ v + 1)) with (S (N.to_nat (size_ v))) by lia.
    by rewrite take_push by lia.
  - eexists. split; [exact Hb'|]. simpl. rewrite length_insert. repeat split; lia.
Qed.

Lemma PushBack_all_in_place items : ∀ h v xs,
  wf h v → elements h v = Some xs →
  size_ v + N.of_nat (length items) ≤ capacity_ v →
  ∃ h', PushBack_all v items h
        = Ok (MkVec (size_ v + N.of_nat (length items)) (capacity_ v) (items_ v), h')
    ∧ elements h' (MkVec (size_ v + N.of_nat (length items)) (capacity_ v) (items_ v))
      = Some (xs ++ items)
    ∧ preserves (items_ v) h h'.
Proof.
  induction items as [|item items IH]; intros h v xs Hwf Hxs Hroom; simpl in *.
  - exists h. rewrite N.add_0_r, app_nil_r. destruct v. simpl in *.
    split; [done|]. split; [done | apply preserves_refl].
  - destruct (PushBack_in_place h v (Temporary item) item xs Hwf Hxs)
      as (h1 & Hpb & Hel & Hwf1 & Hp1); [lia | done |].
    erewrite bind_run by exact Hpb.
    destruct (IH h1 _ _ Hwf1 Hel) as (h' & Hall & Hel' & Hp'); [simpl; lia|].
    simpl in *. exists h'.
    replace (size_ v + N.of_nat (S (length items)))
      with (size_ v + 1 + N.of_nat (length items)) by lia.
    split; [done|]. split; [by rewrite <- app_assoc in Hel'|].
    by eapply preserves_trans.
Qed.

(** ** Comparison operators *)

Lemma operator_eq_spec h lhs rhs xs ys :
  elements h lhs = Some xs → elements h rhs = Some ys →
  ∃ r, operator_eq lhs rhs h = Ok (r, h) ∧ (r = true ↔ same_elements xs ys).
Proof.
  intros Hxs Hys.
  pose proof (elements_length _ _ _ Hxs) as Hlx.
  pose proof (elements_length _ _ _ Hys) as Hly.
  apply elements_inv in Hxs as (b1 & Hb1 & Hl1 & ->).
  apply elements_inv in Hys as (b2 & Hb2 & Hl2 & ->).
  unfold operator_eq, GetSize. destruct (decide (size_ lhs = size_ rhs)) as [Hsz|Hsz].
  - unfold std_equal, begin, end_, Get, slot.
    erewrite bind_run by (apply distance_Ok; simpl; [done | lia]). simpl.
    rewrite N.sub_0_r. change 0 with (N.of_nat 0).
    destruct (equal_loop_spec (N.to_nat (size_ lhs)) (items_ lhs) (items_ rhs) 0 0 b1 b2 h)
      as (r & Hr & Hiff); [done | done | lia | lia |].
    exists r. split; [done|]. by rewrite Hiff, Hsz.
  - exists false. split; [done|]. split; [done|]. intros [Hlen _]. lia.
Qed.

Lemma operator_lt_spec h lhs rhs xs ys :
  elements h lhs = Some xs → elements h rhs = Some ys →
  ∃ r, operator_lt lhs rhs h = Ok (r, h) ∧ (r = true ↔ lexicographic xs ys).
Proof.
  intros (b1 & Hb1 & Hl1 & ->)%elements_inv (b2 & Hb2 & Hl2 & ->)%elements_inv.
  unfold operator_lt, std_lexicographical_compare, begin, end_, Get, slot.
  erewrite bind_run by (apply distance_Ok; simpl; [done | lia]).
  erewrite bind_run by (apply distance_Ok; simpl; [done | lia]). simpl.
  rewrite !N.sub_0_r. change 0 with (N.of_nat 0).
  apply (lexicographical_loop_spec _ _ _ b1 b2 h _ 0%nat 0%nat); [done | done | lia | lia].
Qed.

Lemma lexicographic_irrefl xs : (∀ x, T_lt x x = false) → ¬ lexicographic xs xs.
Proof.
  intros Hirr. induction xs as [|x xs IH]; inversion 1; subst; [|done].
  rewrite Hirr in *. done.
Qed.

Lemma negb_true_false (b : bool) (P : Prop) : (b = true ↔ P) → (negb b = true ↔ ¬ P).
Proof.
  destruct b; simpl; intros [H1 H2]; split.
  - done.
  - intros HnP. destruct HnP. by apply H1.
  - intros _ HP. by specialize (H2 HP).
  - done.
Qed.

(** X1: on vectors whose elements can be read, the six comparison
    operators return without touching the heap; [!=] is true exactly
    when [==] is not, [a > b] exactly when [b < a] lexicographically,
    [a <= b] exactly when not [b < a], and [a >= b] exactly when not
    [a < b]. *)
Theorem X1_comparison_operators h lhs rhs xs ys :
  elements h lhs = Some xs → elements h rhs = Some ys →
  ∃ ne gt le ge,
    operator_ne lhs rhs h = Ok (ne, h) ∧ (ne = true ↔ ¬ same_elements xs ys)
    ∧ operator_gt lhs rhs h = Ok (gt, h) ∧ (gt = true ↔ lexicographic ys xs)
    ∧ operator_le lhs rhs h = Ok (le, h) ∧ (le = true ↔ ¬ lexicographic ys xs)
    ∧ operator_ge lhs rhs h = Ok (ge, h) ∧ (ge = true ↔ ¬ lexicographic xs ys).
Proof.
  intros Hxs Hys.
  destruct (operator_eq_spec h lhs rhs xs ys Hxs Hys) as (e & He & Heiff).
  destruct (operator_lt_spec h lhs rhs xs ys Hxs Hys) as (l & Hl & Hliff).
  destruct (operator_lt_spec h rhs lhs ys xs Hys Hxs) as (g & Hg & Hgiff).
  exists (negb e), g, (negb g), (negb l).
  unfold operator_ne, operator_le, operator_ge, operator_gt.
  split; [by erewrite bind_run by exact He|].
  split; [by apply negb_true_false|].
  split; [done|]. split; [done|].
  split; [by erewrite bind_run by exact Hg|].
  split; [by apply negb_true_false|].
  split; [by erewrite bind_run by exact Hl|].
  by apply negb_true_false.
Qed.

(** X2: when [<] of the element type is irreflexive, no vector is less
    than itself, and every vector is [<=] and [>=] itself. *)
Theorem X2_comparison_with_itself h v xs :
  elements h v = Some xs → (∀ x, T_lt x x = false) →
  operator_lt v v h = Ok (false, h)
  ∧ operator_le v v h = Ok (true, h)
  ∧ operator_ge v v h = Ok (true, h).
Proof.
  intros Hxs Hirr.
  destruct (operator_lt_spec h v v xs xs Hxs Hxs) as (l & Hl & Hliff).
  assert (l = false) as ->.
  { destruct l; [|done]. by destruct (lexicographic_irrefl xs Hirr); apply Hliff. }
  split; [done|]. unfold operator_le, operator_ge, operator_gt.
  by erewrite !bind_run by exact Hl.
Qed.

(** ** Erasing, popping and what they undo *)

(** X3: [Erase(begin() + k)] with [k < size] removes the element at
    index [k] and keeps the others in order; the size drops by one, the
    capacity and the block stay, no other block changes, and the
    returned position is [begin() + k], where the next element now is. *)
Theorem X3_Erase_removes_one_element h v k xs :
  elements h v = Some xs → k < GetSize v → GetSize v < SIZE_MODULUS →
  ∃ v' h', Erase v (ptr_add (begin v) k) h = Ok ((ptr_add (begin v') k, v'), h')
    ∧ elements h' v' = Some (take (N.to_nat k) xs ++ drop (S (N.to_nat k)) xs)
    ∧ GetSize v' = GetSize v - 1
    ∧ GetCapacity v' = GetCapacity v
    ∧ items_ v' = items_ v
    ∧ preserves (items_ v) h h'.
Proof.
  intros Hxs Hk Hmax.
  destruct (Erase_spec h v k xs Hxs Hk Hmax) as (h' & Her & Hel & Hp).
  by exists (MkVec (size_ v - 1) (capacity_ v) (items_ v)), h'.
Qed.

(** X4: [Erase] at [end()] or beyond, so every [Erase] on an empty
    vector, does not return: [it + 1, end()) is not a range. *)
Theorem X4_Erase_at_or_past_end_is_undefined h v k :
  GetSize v ≤ k → Erase v (ptr_add (begin v) k) h = Undefined.
Proof. apply Erase_past_end. Qed.

(** X5: [Insert] at a position beyond [end()] does not return, whether
    the vector has room, is full, or has capacity 0. *)
Theorem X5_Insert_past_end_is_undefined h v k value :
  vec_ok h v → GetSize v < k → Insert v (ptr_add (begin v) k) value h = Undefined.
Proof. apply Insert_past_end. Qed.

(** X6: [PopBack] on a non-empty vector, where the [assert] of the
    source holds, drops the last element and nothing else: capacity
    and block stay.  On an empty vector the [assert] fails and a build
    with assertions aborts; with assertions compiled out ([NDEBUG]),
    which is what [PopBack] models, the call changes nothing. *)
Theorem X6_PopBack_drops_the_last_element h v xs :
  elements h v = Some xs → GetSize v < SIZE_MODULUS →
  (IsEmpty v = false →
     elements h (PopBack v) = Some (take (length xs - 1) xs)
     ∧ GetSize (PopBack v) = GetSize v - 1
     ∧ GetCapacity (PopBack v) = GetCapacity v
     ∧ items_ (PopBack v) = items_ v)
  ∧ (IsEmpty v = true → PopBack v = v).
Proof.
  intros Hxs Hmax. split.
  - intros _. apply (PopBack_spec h v xs Hxs Hmax).
  - intros He. unfold PopBack. by rewrite He.
Qed.

(** X7: on a vector whose block has [capacity_] slots, [PushBack] of
    an item that can be read and that, when the vector is full, lies
    outside the vector (a temporary, or an lvalue in another block),
    followed by [PopBack()], gives back the elements and the size the
    vector had (the capacity may have grown).  The vector is not empty
    when [PopBack] is called, so its [assert] holds. *)
Theorem X7_PushBack_then_PopBack h v item x xs :
  wf h v → elements h v = Some xs →
  read item h = Ok (x, h) →
  (size_ v = capacity_ v → outside (items_ v) item) →
  (size_ v = capacity_ v → 2 * capacity_ v < SIZE_MODULUS) →
  ∃ v' h', PushBack v item h = Ok (v', h')
    ∧ IsEmpty v' = false
    ∧ elements h' (PopBack v') = Some xs
    ∧ GetSize (PopBack v') = GetSize v
    ∧ GetCapacity v ≤ GetCapacity (PopBack v').
Proof.
  intros Hwf Hxs Hrd Hout Hfit.
  destruct (PushBack_spec h v item x xs Hwf Hxs Hrd Hout Hfit)
    as (v' & h' & Hpb & Hsz & Hcap & Hel & Hwf' & _).
  assert (size_ v' < SIZE_MODULUS) as Hmax by (destruct Hwf' as (? & _ & _ & ? & ?); lia).
  destruct (PopBack_spec h' v' _ Hel Hmax) as (Hpop & Hsz' & Hcap' & _).
  exists v', h'. split; [done|]. split; [|split; [|split]].
  - unfold IsEmpty. apply bool_decide_eq_false. lia.
  - rewrite Hpop, length_app. simpl. rewrite take_app_length'; [done | lia].
  - unfold GetSize in *. lia.
  - unfold GetCapacity in *. rewrite Hcap', Hcap. case_decide; lia.
Qed.

Lemma take_drop_insert_erase (xs : list T) k value :
  (k ≤ length xs)%nat →
  take k (take k xs ++ value :: drop k xs) ++ drop (S k) (take k xs ++ value :: drop k xs)
  = xs.
Proof.
  intros Hk. rewrite take_app_length' by (rewrite length_take; lia).
  rewrite drop_app, length_take. rewrite drop_ge by (rewrite length_take; lia).
  replace (S k - k `min` length xs)%nat with 1%nat by lia. simpl.
  by rewrite drop_0, take_drop.
Qed.

(** X8: on a vector whose block has [capacity_] slots, [Insert] at a
    position of [begin, end] of a value that can be read and lies
    outside the vector (a temporary, or an lvalue in another block),
    followed by [Erase] at the position [Insert] returned, gives back
    the elements and the size the vector had. *)
Theorem X8_Insert_then_Erase h v k value x xs :
  wf h v → elements h v = Some xs → k ≤ GetSize v →
  read value h = Ok (x, h) → outside (items_ v) value →
  (size_ v = capacity_ v → 2 * capacity_ v < SIZE_MODULUS) →
  ∃ pos v1 h1 r h2,
    Insert v (ptr_add (begin v) k) value h = Ok ((pos, v1), h1)
    ∧ Erase v1 pos h1 = Ok (r, h2)
    ∧ elements h2 (snd r) = Some xs
    ∧ GetSize (snd r) = GetSize v.
Proof.
  intros Hwf Hxs Hk Hrd Hout Hfit. pose proof (elements_length _ _ _ Hxs) as Hlen.
  destruct (Insert_spec h v k value x xs Hwf Hxs Hk Hrd Hout Hfit)
    as (v1 & h1 & Hins & Hsz & _ & Hel & Hwf1 & _).
  assert (size_ v1 < SIZE_MODULUS) as Hmax by (destruct Hwf1 as (? & _ & _ & ? & ?); lia).
  destruct (Erase_spec h1 v1 k _ Hel) as (h2 & Her & Hel2 & _); [unfold GetSize in *; lia | done |].
  eexists _, _, _, _, _. split; [exact Hins|]. split; [exact Her|]. simpl. split.
  - rewrite Hel2. f_equal. apply take_drop_insert_erase. unfold GetSize in *. lia.
  - unfold GetSize in *. simpl. lia.
Qed.

(** ** Capacity *)

(** X9: [Reserve(n)] with [n >= capacity] moves the elements into a
    new block of exactly [n] slots, whatever the size of the old block
    was, and leaves size and elements as they were; with
    [n < capacity] it does nothing. *)
Theorem X9_Reserve_reallocates_to_exactly_n h v n xs :
  vec_ok h v → elements h v = Some xs →
  (GetCapacity v ≤ n → n < SIZE_MODULUS →
   ∃ v' h', Reserve v n h = Ok (v', h')
     ∧ GetSize v' = GetSize v ∧ GetCapacity v' = n
     ∧ elements h' v' = Some xs
     ∧ block_of h' (items_ v') = Some (xs ++ replicate (N.to_nat n - length xs) T_default)
     ∧ wf h' v')
  ∧ (n < GetCapacity v → Reserve v n h = Ok (v, h)).
Proof.
  intros Hok Hxs. split; [|by apply (Reserve_spec h v n xs)].
  intros Hn Hmax. pose proof (elements_length _ _ _ Hxs) as Hlen.
  destruct Hok as (b & Hb & Hs & Hc).
  apply elements_inv in Hxs as (b0 & Hb0 & Hl & ->). simplify_eq.
  destruct (Reserve_grow v n h b) as (p & h' & HR & Hp & Hev);
    [done | lia | done | unfold GetCapacity in *; lia |].
  assert (Hl' : length (take (N.to_nat (size_ v)) b
                        ++ replicate (N.to_nat n - N.to_nat (size_ v)) T_default)
                = N.to_nat n).
  { rewrite length_app, length_take, length_replicate. unfold GetCapacity in *. lia. }
  eexists _, _. split; [exact HR|]. split; [done|]. split; [done|].
  split; [|split].
  - erewrite elements_block; [|exact Hp|simpl; rewrite Hl'; unfold GetCapacity in *; lia]. simpl.
    rewrite take_app_le by (rewrite length_take; lia).
    by rewrite take_take, Nat.min_id.
  - simpl. rewrite Hp. do 3 f_equal. rewrite length_take. lia.
  - eexists. split; [exact Hp|]. simpl. rewrite Hl'.
    unfold GetCapacity in *. repeat split; lia.
Qed.

(** X10: after [Reserve(n)] with [n] at least the capacity, so that
    [Reserve] allocates a block of [n] slots, appending temporaries
    while the size stays within [n] never reallocates: the capacity
    stays [n], the block pointer does not change, no other block is
    written, and the items follow the old elements in order. *)
Theorem X10_no_reallocation_within_reserved_capacity h v n xs items :
  vec_ok h v → elements h v = Some xs →
  GetCapacity v ≤ n → n < SIZE_MODULUS →
  GetSize v + N.of_nat (length items) ≤ n →
  ∃ v1 h1 v2 h2,
    Reserve v n h = Ok (v1, h1)
    ∧ PushBack_all v1 items h1 = Ok (v2, h2)
    ∧ GetCapacity v2 = n
    ∧ items_ v2 = items_ v1
    ∧ preserves (items_ v1) h1 h2
    ∧ elements h2 v2 = Some (xs ++ items).
Proof.
  intros Hok Hxs Hn Hmax Hroom.
  destruct (Reserve_spec h v n xs Hok Hxs) as [Hgrow _].
  destruct (Hgrow Hn Hmax) as (v1 & h1 & HR & Hsz & Hcap & Hel & Hwf & _).
  destruct (PushBack_all_in_place items h1 v1 xs Hwf Hel) as (h2 & Hall & Hel2 & Hp).
  { unfold GetSize, GetCapacity in *. lia. }
  eexists _, _, _, _. split; [exact HR|]. split; [exact Hall|]. done.
Qed.

(** ** Constructors *)

(** X11: the constructor from an initializer list returns a vector in
    a new block whose size and capacity are the length of the list and
    whose elements are the list, in order; no existing block changes. *)
Theorem X11_initializer_list_constructor init h :
  N.of_nat (length init) < SIZE_MODULUS →
  ∃ v h', SimpleVector_init init h = Ok (v, h')
    ∧ GetSize v = N.of_nat (length init)
    ∧ GetCapacity v = N.of_nat (length init)
    ∧ elements h' v = Some init
    ∧ wf h' v
    ∧ evolves None (items_ v) h h'.
Proof.
  intros Hmax. destruct (SimpleVector_init_Ok init h) as (p & h' & Hinit & Hp & Hev).
  eexists _, _. split; [exact Hinit|]. split; [done|]. split; [done|].
  split; [|split; [|done]].
  - erewrite elements_block; [|exact Hp|simpl; lia]. simpl.
    by rewrite Nat2N.id, firstn_all.
  - exists init. by repeat split.
Qed.


(** ** [Resize], shrinking and growing *)

(** ** Ownership *)

(** X15: whenever [PushBack], [Insert], [Erase], [Resize] or [Reserve]
    on one vector returns, a vector that owns another block (or none)
    has the elements it had. *)
Theorem X15_a_call_leaves_other_vectors_alone h c v :
  vec_ok h c → vec_ok h v → items_ v ≠ items_ c ∨ items_ v = None →
  (∀ item c' h', PushBack c item h = Ok (c', h') → elements h' v = elements h v)
  ∧ (∀ pos value r h', Insert c pos value h = Ok (r, h') → elements h' v = elements h v)
  ∧ (∀ pos r h', Erase c pos h = Ok (r, h') → elements h' v = elements h v)
  ∧ (∀ n c' h', Resize c n h = Ok (c', h') → elements h' v = elements h v)
  ∧ (∀ n c' h', Reserve c n h = Ok (c', h') → elements h' v = elements h v).
Proof. apply mutation_keeps_other_vector. Qed.

(** X16: in every state a client program reaches, no two objects own
    the same block, and the block of every object is live. *)
Theorem X16_blocks_are_owned_exclusively cs σ h :
  run cs ∅ ∅ = Ok (σ, h) →
  (∀ a1 a2 v1 v2 l, σ !! a1 = Some v1 → σ !! a2 = Some v2 →
     items_ v1 = Some l → items_ v2 = Some l → a1 = a2)
  ∧ (∀ a v l, σ !! a = Some v → items_ v = Some l → is_Some (h !! l)).
Proof.
  intros Hrun. destruct (run_ok _ _ _ _ _ state_ok_empty Hrun) as [Hall Hsep].
  split; [done|]. intros a v l Ha Hl.
  destruct (Hall _ _ Ha) as (b & Hb & _). rewrite Hl in Hb. by eexists.
Qed.

(** X17: in a program that passes [size_t] arguments and uses neither
    the copy constructor, nor copy assignment, nor the constructor from
    a reservation hint, the block of every vector has exactly
    [capacity] slots and [size <= capacity]. *)
Theorem X17_without_copies_blocks_have_capacity_slots cs σ h a v :
  Forall copy_free cs → run cs ∅ ∅ = Ok (σ, h) → σ !! a = Some v →
  ∃ b, block_of h (items_ v) = Some b
       ∧ N.of_nat (length b) = GetCapacity v
       ∧ GetSize v ≤ GetCapacity v.
Proof.
  intros Hfree Hrun Ha.
  destruct (copy_free_programs_reach_wf cs σ h a v Hfree Hrun Ha) as (b & ? & ? & ? & _).
  by exists b.
Qed.

(** ** Assignment between two objects *)

Lemma elements_same_block h h' v :
  block_of h' (items_ v) = block_of h (items_ v) → elements h' v = elements h v.
Proof. intros Heq. unfold elements. by rewrite Heq. Qed.

(** X18: in a reachable state, copy assignment [a = b] between two
    different objects gives [a] the size, the capacity and the elements
    of [b] in a block of its own, frees the block [a] had, and leaves
    [b] and every other object with the elements they had. *)
Theorem X18_copy_assignment cs σ h a b va vb ys :
  run cs ∅ ∅ = Ok (σ, h) → a ≠ b →
  σ !! a = Some va → σ !! b = Some vb → elements h vb = Some ys →
  ∃ va' h', operator_assign a b σ h = Ok (<[a := va']> σ, h')
    ∧ GetSize va' = GetSize vb ∧ GetCapacity va' = GetCapacity vb
    ∧ elements h' va' = Some ys
    ∧ (∀ l, items_ va' = Some l → items_ vb ≠ Some l)
    ∧ (∀ l, items_ va = Some l → h' !! l = None)
    ∧ (∀ c vc, c ≠ a → σ !! c = Some vc → elements h' vc = elements h vc).
Proof.
  intros Hrun Hne Ha Hb Hys.
  pose proof (run_ok _ _ _ _ _ state_ok_empty Hrun) as [Hall Hsep].
  destruct (Hall _ _ Ha) as (ba & Hba & _).
  apply elements_inv in Hys as (bb & Hbb & Hlen & ->).
  destruct (SimpleVector_copy_Ok vb h bb Hbb Hlen) as (p & h1 & Hcopy & Hp & HF & HN).
  assert (Hpa : ∀ l, p = Some l → items_ va ≠ Some l).
  { intros l -> Hl. destruct (HN l eq_refl) as [?|Hnone]; [done|].
    rewrite Hl in Hba. simpl in Hba. congruence. }
  assert (Hba1 : block_of h1 (items_ va) = Some ba).
  { destruct (items_ va) as [l|] eqn:Hl; [|done]. simpl in *.
    rewrite HF; [done | done |]. intros ->. by eapply Hpa. }
  destruct (ArrayPtr_delete_Ok _ _ _ Hba1) as (h' & Hdel & Hkeep & Hgone).
  exists (MkVec (size_ vb) (capacity_ vb) p), h'.
  split; [|split; [done|split; [done|split; [|split; [|split]]]]].
  - unfold operator_assign. rewrite decide_True by done. rewrite Ha, Hb.
    erewrite bind_run by exact Hcopy. simpl.
    unfold SimpleVector_destroy. erewrite bind_run by exact Hdel. done.
  - assert (Hp' : block_of h' p = Some (take (N.to_nat (size_ vb)) bb)).
    { destruct p as [l|]; [|done]. simpl in *. by rewrite Hkeep by (by apply Hpa). }
    erewrite elements_block; [|exact Hp'|simpl; rewrite length_take; lia].
    simpl. by rewrite take_take, Nat.min_id.
  - simpl. intros l -> Hl. destruct (HN l eq_refl) as [?|Hnone]; [done|].
    rewrite Hl in Hbb. simpl in Hbb. congruence.
  - done.
  - intros c vc Hc Hvc. apply elements_same_block.
    destruct (items_ vc) as [l|] eqn:Hl; [|done]. simpl.
    destruct (Hall _ _ Hvc) as (bc & Hbc & _). rewrite Hl in Hbc. simpl in Hbc.
    rewrite Hkeep.
    + apply HF; [done|]. intros ->. destruct (HN l eq_refl); congruence.
    + intros Hl'. apply Hc. symmetry. by eapply Hsep.
Qed.

(** X19: in a reachable state, move assignment [a = std::move(b)]
    between two different objects hands the block of [b] to [a]
    without copying an element, leaves [b] with size 0, capacity 0 and
    no block, frees the block [a] had, and leaves every other object
    with the elements it had; move construction does the same for a new
    object and changes no block at all. *)
Theorem X19_move_assignment_and_construction cs σ h a b va vb :
  run cs ∅ ∅ = Ok (σ, h) → a ≠ b → σ !! a = Some va → σ !! b = Some vb →
  (∃ h', operator_assign_move a b σ h
         = Ok (<[a := vb]> (<[b := MkVec 0 0 None]> σ), h')
     ∧ elements h' vb = elements h vb
     ∧ elements h' (MkVec 0 0 None) = Some []
     ∧ (∀ l, items_ va = Some l → h' !! l = None)
     ∧ (∀ c vc, c ≠ a → σ !! c = Some vc → elements h' vc = elements h vc))
  ∧ (∀ c, σ !! c = None →
       exec (NewMove c b) σ h = Ok (<[c := vb]> (<[b := MkVec 0 0 None]> σ), h)).
Proof.
  intros Hrun Hne Ha Hb.
  pose proof (run_ok _ _ _ _ _ state_ok_empty Hrun) as [Hall Hsep].
  destruct (Hall _ _ Ha) as (ba & Hba & _).
  destruct (ArrayPtr_delete_Ok _ _ _ Hba) as (h' & Hdel & Hkeep & Hgone).
  assert (Hothers : ∀ c vc, c ≠ a → σ !! c = Some vc → elements h' vc = elements h vc).
  { intros c vc Hc Hvc. apply elements_same_block.
    destruct (items_ vc) as [l|] eqn:Hl; [|done]. simpl.
    apply Hkeep. intros Hl'. apply Hc. symmetry. by eapply Hsep. }
  split.
  - exists h'. split; [|split; [|split; [done|split; [done|done]]]].
    + unfold operator_assign_move. rewrite decide_True by done. rewrite Ha, Hb.
      simpl. unfold SimpleVector_destroy. erewrite bind_run by exact Hdel.
      by destruct vb.
    + by apply (Hothers b).
  - intros c Hc. simpl. rewrite Hc, Hb. by destruct vb.
Qed.

(** ** [std::out_of_range] comes from [At] only *)

Lemma nt_ret {A} (a : A) : never_throws (ret a).
Proof. by intros h. Qed.

Lemma nt_undefined {A} : never_throws (@undefined A).
Proof. by intros h. Qed.

Lemma nt_bind {A B} (m : M A) (k : A → M B) :
  never_throws m → (∀ a, never_throws (k a)) → never_throws (m ≫= k).
Proof.
  intros Hm Hk h. unfold mbind, M_bind, bind. specialize (Hm h).
  destruct (m h) as [[a h']| |]; [apply Hk | done | done].
Qed.

Lemma nt_load p : never_throws (load p).
Proof. intros h. unfold load. by repeat case_match. Qed.

Lemma nt_store p x : never_throws (store p x).
Proof. intros h. unfold store. by repeat case_match. Qed.

Lemma nt_alloc b : never_throws (alloc b).
Proof. by intros h. Qed.

Lemma nt_free l : never_throws (free l).
Proof. intros h. unfold free. by case_match. Qed.

Lemma nt_distance first last : never_throws (distance first last).
Proof. unfold distance. case_decide; [apply nt_ret | apply nt_undefined]. Qed.

Lemma nt_read r : never_throws (read r).
Proof. destruct r; [apply nt_ret | apply nt_load]. Qed.

Create HintDb nothrow.
#[local] Hint Resolve nt_ret nt_undefined nt_load nt_store nt_alloc nt_free nt_distance
  nt_read : nothrow.

(** Deciding [never_throws] along the structure of a member function. *)
Ltac nothrow :=
  repeat first
    [ apply nt_bind; [|intros ?]
    | progress auto with nothrow
    | case_decide
    | case_match ].

Lemma nt_move_loop k : ∀ first d_first, never_throws (move_loop k first d_first).
Proof. induction k; intros; simpl; nothrow. Qed.

Lemma nt_move_backward_loop k first d_first :
  never_throws (move_backward_loop k first d_first).
Proof. induction k; simpl; nothrow. Qed.

Lemma nt_move_out_loop k : ∀ first, never_throws (move_out_loop k first).
Proof. induction k; intros; simpl; nothrow. Qed.

Lemma nt_copy_init init : ∀ d_first, never_throws (copy_init init d_first).
Proof. induction init; intros; simpl; nothrow. Qed.

Lemma nt_equal_loop k : ∀ first1 first2, never_throws (equal_loop k first1 first2).
Proof. induction k; intros; simpl; nothrow. Qed.

Lemma nt_lexicographical_loop k1 :
  ∀ k2 first1 first2, never_throws (lexicographical_loop k1 k2 first1 first2).
Proof. induction k1; intros [|k2] ? ?; simpl; nothrow. Qed.

#[local] Hint Resolve nt_move_loop nt_move_backward_loop nt_move_out_loop nt_copy_init
  nt_equal_loop nt_lexicographical_loop : nothrow.

Lemma nt_std_move first last d_first : never_throws (std_move first last d_first).
Proof. unfold std_move. nothrow. Qed.

Lemma nt_std_move_backward first last d_last :
  never_throws (std_move_backward first last d_last).
Proof. unfold std_move_backward. nothrow. Qed.

Lemma nt_std_move_to_value first last x : never_throws (std_move_to_value first last x).
Proof. unfold std_move_to_value. nothrow. Qed.

Lemma nt_ArrayPtr_new n : never_throws (ArrayPtr_new n).
Proof. unfold ArrayPtr_new. nothrow. Qed.

Lemma nt_ArrayPtr_delete p : never_throws (ArrayPtr_delete p).
Proof. unfold ArrayPtr_delete. nothrow. Qed.

#[local] Hint Resolve nt_std_move nt_std_move_backward nt_std_move_to_value
  nt_ArrayPtr_new nt_ArrayPtr_delete : nothrow.

Lemma nt_Reserve v n : never_throws (Reserve v n).
Proof. unfold Reserve. nothrow. Qed.

Lemma nt_SimpleVector_copy other : never_throws (SimpleVector_copy other).
Proof. unfold SimpleVector_copy, std_copy. nothrow. Qed.

#[local] Hint Resolve nt_Reserve nt_SimpleVector_copy : nothrow.

Lemma nt_Resize v n : never_throws (Resize v n).
Proof. unfold Resize. nothrow. Qed.

Lemma nt_PushBack v item : never_throws (PushBack v item).
Proof. unfold PushBack. nothrow. Qed.

Lemma nt_Insert v pos value : never_throws (Insert v pos value).
Proof. unfold Insert, VectorMoveRigth. nothrow. Qed.

Lemma nt_Erase v pos : never_throws (Erase v pos).
Proof. unfold Erase. nothrow. Qed.

Lemma nt_exec c σ : never_throws (exec c σ).
Proof.
  pose proof nt_Resize. pose proof nt_PushBack. pose proof nt_Insert. pose proof nt_Erase.
  destruct c; simpl;
    unfold declare, call, operator_assign, operator_assign_move, SimpleVector_size,
      SimpleVector_fill, SimpleVector_init, SimpleVector_reserve, SimpleVector_destroy,
      SimpleVector_move, swap;
    nothrow.
Qed.

(** X20: no constructor, no assignment and no call of [Clear],
    [Resize], [PushBack], [Insert], [PopBack], [Erase], [swap] or
    [Reserve] ends in [std::out_of_range], and no comparison does: a
    client program only gets that exception from [At]. *)
Theorem X20_only_At_throws_out_of_range :
  (∀ cs σ, never_throws (run cs σ))
  ∧ (∀ lhs rhs, never_throws (operator_eq lhs rhs) ∧ never_throws (operator_ne lhs rhs)
                ∧ never_throws (operator_lt lhs rhs) ∧ never_throws (operator_le lhs rhs)
                ∧ never_throws (operator_gt lhs rhs) ∧ never_throws (operator_ge lhs rhs))
  ∧ (∀ v h, At v (GetSize v) h = OutOfRange).
Proof.
  assert (Hlt : ∀ lhs rhs, never_throws (operator_lt lhs rhs)).
  { intros. unfold operator_lt, std_lexicographical_compare. nothrow. }
  assert (Heq : ∀ lhs rhs, never_throws (operator_eq lhs rhs)).
  { intros. unfold operator_eq, std_equal. nothrow. }
  split; [|split].
  - induction cs as [|c cs IH]; intros σ; simpl; [apply nt_ret|].
    apply nt_bind; [apply nt_exec | done].
  - intros lhs rhs. unfold operator_ne, operator_le, operator_ge, operator_gt.
    repeat split; nothrow; auto.
  - intros v h. unfold At, GetSize. by rewrite decide_True by lia.
Qed.

(** ** No block is left behind *)

Lemma tight_refl p h : tight p p h h.
Proof. intros l Hl. destruct (decide (p = Some l)); [by left | by right]. Qed.

Lemma preserves_tight p h h' : preserves p h h' → tight p p h h'.
Proof.
  intros Hp l Hl. destruct (decide (p = Some l)) as [|Hne]; [by left | right].
  split; [done|]. destruct (Hp l) as [<- _]; done.
Qed.

Lemma tight_trans p p1 p2 h h1 h2 :
  tight p p1 h h1 → tight p1 p2 h1 h2 → tight p p2 h h2.
Proof.
  intros H1 H2 l Hl. destruct (H2 l Hl) as [?|[Hne Hl1]]; [by left|].
  destruct (H1 l Hl1) as [?|?]; [done | by right].
Qed.

Lemma tight_preserves p p' h h1 h2 :
  tight p p' h h1 → preserves p' h1 h2 → tight p p' h h2.
Proof. intros H1 H2. eapply tight_trans; [done | by apply preserves_tight]. Qed.

Lemma ArrayPtr_new_tight n h p h1 :
  ArrayPtr_new n h = Ok (p, h1) → tight None p h h1.
Proof.
  intros H. destruct (ArrayPtr_new_spec n h) as (p0 & h0 & Hnew & _ & _ & Hfresh & Hsame).
  rewrite Hnew in H. injection H as <- <-. intros l Hl.
  destruct p0 as [l'|].
  - destruct (Hfresh l' eq_refl) as [_ ->].
    destruct (decide (l' = l)) as [->|Hne]; [by left | right].
    by rewrite lookup_insert_ne in Hl.
  - right. by rewrite Hsame in Hl.
Qed.

Lemma Reserve_tight v n h v' h' :
  Reserve v n h = Ok (v', h') → tight (items_ v) (items_ v') h h'.
Proof.
  unfold Reserve. intros H. destruct (decide (capacity_ v ≤ n)) as [Hle|Hgt].
  - bind_inv H as Hnew. bind_inv H as Hmv. bind_inv H as Hdel. ret_inv H. simpl.
    apply ArrayPtr_new_tight in Hnew. apply std_move_preserves in Hmv. simpl in Hmv.
    apply ArrayPtr_delete_inv in Hdel as [Hkeep Hgone].
    intros l Hl. destruct (decide (items_ v = Some l)) as [Hv|Hv].
    + rewrite (Hgone l Hv) in Hl. by destruct Hl.
    + rewrite Hkeep in Hl by done.
      destruct (Hmv l) as [_ Hlen].
      assert (is_Some (h0 !! l)) as Hl0.
      { destruct Hl as [b Hb]. rewrite Hb in Hlen. by destruct (h0 !! l). }
      destruct (Hnew l Hl0) as [?|[_ ?]]; [by left | by right].
  - ret_inv H. apply tight_refl.
Qed.

Lemma PushBack_tight v item h v' h' :
  PushBack v item h = Ok (v', h') → tight (items_ v) (items_ v') h h'.
Proof.
  unfold PushBack. intros H. bind_inv H as Hbody. ret_inv H. simpl.
  destruct (decide (size_ v < capacity_ v)).
  - bind_inv Hbody as Hrd. apply read_inv in Hrd as ->.
    bind_inv Hbody as Hst. ret_inv Hbody.
    apply store_preserves in Hst. by apply preserves_tight.
  - bind_inv Hbody as Hres. bind_inv Hbody as Hrd. apply read_inv in Hrd as ->.
    bind_inv Hbody as Hst. ret_inv Hbody.
    apply Reserve_tight in Hres. apply store_preserves in Hst.
    by eapply tight_preserves.
Qed.

Lemma Resize_tight v n h v' h' :
  Resize v n h = Ok (v', h') → tight (items_ v) (items_ v') h h'.
Proof.
  unfold Resize. intros H. destruct (decide (n < size_ v)).
  - ret_inv H. apply tight_refl.
  - destruct (decide (n ≤ capacity_ v)).
    + bind_inv H as Hmv. ret_inv H. apply std_move_to_value_inv in Hmv as ->.
      apply tight_refl.
    + bind_inv H as Hres. bind_inv H as Hmv. ret_inv H.
      apply std_move_to_value_inv in Hmv as ->. by apply Reserve_tight in Hres.
Qed.

Lemma Insert_tight v pos value h r h' :
  Insert v pos value h = Ok (r, h') → tight (items_ v) (items_ (snd r)) h h'.
Proof.
  unfold Insert. intros H. bind_inv H as Hvm. destruct a as [number_pos v1].
  bind_inv H as Hrd. apply read_inv in Hrd as ->. bind_inv H as Hst. ret_inv H. simpl.
  unfold VectorMoveRigth in Hvm. bind_inv Hvm as Hd.
  apply distance_inv in Hd as (-> & _). bind_inv Hvm as Hbody.
  apply ret_Ok_inv in Hvm as [[= -> ->] ->]. simpl in *.
  apply store_preserves in Hst. simpl in Hst.
  destruct (decide (size_ v < capacity_ v)).
  - bind_inv Hbody as Hmb. ret_inv Hbody.
    apply std_move_backward_preserves in Hmb. simpl in Hmb.
    apply preserves_tight. by eapply preserves_trans.
  - destruct (decide (capacity_ v = 0)).
    + apply Reserve_tight in Hbody. by eapply tight_preserves.
    + bind_inv Hbody as Hres. bind_inv Hbody as Hmb. ret_inv Hbody.
      apply Reserve_tight in Hres.
      apply std_move_backward_preserves in Hmb. simpl in Hmb.
      eapply tight_preserves; [|done]. by eapply tight_preserves.
Qed.

Lemma Erase_tight v pos h r h' :
  Erase v pos h = Ok (r, h') → tight (items_ v) (items_ (snd r)) h h'.
Proof.
  unfold Erase. intros H. bind_inv H as Hd.
  apply distance_inv in Hd as (-> & _). bind_inv H as Hmv. ret_inv H. simpl.
  apply std_move_preserves in Hmv. by apply preserves_tight.
Qed.

Lemma SimpleVector_size_tight size h v h' :
  SimpleVector_size size h = Ok (v, h') → tight None (items_ v) h h'.
Proof.
  unfold SimpleVector_size. intros H. bind_inv H as Hnew. bind_inv H as Hmv. ret_inv H.
  apply std_move_to_value_inv in Hmv as ->. by apply ArrayPtr_new_tight in Hnew.
Qed.

Lemma SimpleVector_fill_tight size value h v h' :
  SimpleVector_fill size value h = Ok (v, h') → tight None (items_ v) h h'.
Proof.
  unfold SimpleVector_fill. intros H. bind_inv H as Hnew. bind_inv H as Hmv. ret_inv H.
  apply std_move_to_value_inv in Hmv as ->. by apply ArrayPtr_new_tight in Hnew.
Qed.

Lemma SimpleVector_init_tight init h v h' :
  SimpleVector_init init h = Ok (v, h') → tight None (items_ v) h h'.
Proof.
  unfold SimpleVector_init. intros H. bind_inv H as Hnew. bind_inv H as Hcp. ret_inv H.
  apply ArrayPtr_new_tight in Hnew. apply copy_init_preserves in Hcp. simpl in *.
  by eapply tight_preserves.
Qed.

Lemma SimpleVector_copy_tight other h v h' :
  SimpleVector_copy other h = Ok (v, h') → tight None (items_ v) h h'.
Proof.
  unfold SimpleVector_copy. intros H. bind_inv H as Hnew. bind_inv H as Hcp. ret_inv H.
  apply ArrayPtr_new_tight in Hnew. apply std_move_preserves in Hcp. simpl in *.
  by eapply tight_preserves.
Qed.

Lemma all_owned_update σ h a v' h' :
  all_owned σ h → tight (σ !! a ≫= items_) (items_ v') h h' →
  all_owned (<[a := v']> σ) h'.
Proof.
  intros Hown Ht l Hl. destruct (Ht l Hl) as [Hv'|[Hne Hl0]].
  - exists a, v'. by rewrite lookup_insert_eq.
  - destruct (Hown l Hl0) as (a2 & v2 & Ha2 & Hv2).
    exists a2, v2. split; [|done]. rewrite lookup_insert_ne; [done|].
    intros <-. rewrite Ha2 in Hne. simpl in Hne. done.
Qed.

Lemma declare_owned a σ ctor h σ' h' :
  all_owned σ h →
  (∀ v h1, ctor h = Ok (v, h1) → tight None (items_ v) h h1) →
  declare a σ ctor h = Ok (σ', h') → all_owned σ' h'.
Proof.
  intros Hown Hctor H. unfold declare in H.
  destruct (σ !! a) eqn:Ha; [done|].
  bind_inv H as Hc. ret_inv H. apply all_owned_update with h; [done|].
  rewrite Ha. by apply Hctor.
Qed.

Lemma call_owned a σ f h σ' h' :
  all_owned σ h →
  (∀ v v' h1, f v h = Ok (v', h1) → tight (items_ v) (items_ v') h h1) →
  call a σ f h = Ok (σ', h') → all_owned σ' h'.
Proof.
  intros Hown Hf H. unfold call in H.
  destruct (σ !! a) as [v|] eqn:Ha; [|done].
  bind_inv H as Hc. ret_inv H. apply all_owned_update with h; [done|].
  rewrite Ha. by apply Hf.
Qed.

(** Handing the block of [b] to [a], emptying [b], and freeing what
    [a] had (or nothing, when [a] is new). *)
Lemma all_owned_moved σ h h' a b (old : ArrayPtr) vb :
  all_owned σ h → a ≠ b → σ !! b = Some vb → σ !! a ≫= items_ = old →
  (∀ l, old ≠ Some l → h' !! l = h !! l) → (∀ l, old = Some l → h' !! l = None) →
  all_owned (<[a := MkVec (size_ vb) (capacity_ vb) (items_ vb)]>
               (<[b := MkVec 0 0 None]> σ)) h'.
Proof.
  intros Hown Hne Hb Hold Hkeep Hgone l Hl.
  destruct (decide (old = Some l)) as [Ho|Ho].
  { rewrite (Hgone l Ho) in Hl. by destruct Hl. }
  rewrite Hkeep in Hl by done.
  destruct (Hown l Hl) as (a2 & v2 & Ha2 & Hv2).
  destruct (decide (a2 = a)) as [->|Hna].
  { rewrite Ha2 in Hold. simpl in Hold. congruence. }
  destruct (decide (a2 = b)) as [->|Hnb].
  - exists a, (MkVec (size_ vb) (capacity_ vb) (items_ vb)).
    rewrite lookup_insert_eq. split; [done|]. simpl. congruence.
  - exists a2, v2. by rewrite !lookup_insert_ne.
Qed.

Lemma exec_owned c σ h σ' h' :
  all_owned σ h → exec c σ h = Ok (σ', h') → all_owned σ' h'.
Proof.
  intros Hown H. destruct c; simpl in H.
  - eapply declare_owned; [done | | done]. intros v h1 Hr. ret_inv Hr. apply tight_refl.
  - eapply declare_owned; [done | | done]. apply SimpleVector_size_tight.
  - eapply declare_owned; [done | | done]. apply SimpleVector_fill_tight.
  - eapply declare_owned; [done | | done]. apply SimpleVector_init_tight.
  - destruct (σ !! other) as [o|] eqn:Ho; [|done].
    eapply declare_owned; [done | | done]. apply SimpleVector_copy_tight.
  - destruct (σ !! a) eqn:Ha; [done|].
    destruct (σ !! other) as [o|] eqn:Ho; [|done].
    simpl in H. ret_inv H.
    apply all_owned_moved with h None; try done; [congruence | by rewrite Ha].
  - eapply declare_owned; [done | | done]. intros v h1 Hr.
    rewrite SimpleVector_reserve_Ok in Hr. injection Hr as <- <-. apply tight_refl.
  - unfold operator_assign in H. destruct (decide (a ≠ rhs)); [|by ret_inv H].
    destruct (σ !! a) as [v|] eqn:Ha; [|done].
    destruct (σ !! rhs) as [r|] eqn:Hr; [|done].
    bind_inv H as Hcopy. simpl in H. bind_inv H as Hdel. ret_inv H.
    apply SimpleVector_copy_tight in Hcopy.
    apply ArrayPtr_delete_inv in Hdel as [Hkeep Hgone].
    apply all_owned_update with h; [done|]. rewrite Ha. simpl.
    intros l Hl. destruct (decide (items_ v = Some l)) as [Hv|Hv].
    + rewrite (Hgone l Hv) in Hl. by destruct Hl.
    + rewrite Hkeep in Hl by done.
      destruct (Hcopy l Hl) as [?|[_ ?]]; [by left | by right].
  - unfold operator_assign_move in H. destruct (decide (a ≠ rhs)); [|by ret_inv H].
    destruct (σ !! a) as [v|] eqn:Ha; [|done].
    destruct (σ !! rhs) as [r|] eqn:Hr; [|done].
    simpl in H. bind_inv H as Hdel. ret_inv H.
    apply ArrayPtr_delete_inv in Hdel as [Hkeep Hgone].
    apply all_owned_moved with h (items_ v); try done. by rewrite Ha.
  - eapply call_owned; [done | | done]. intros v v' h1 Hr. ret_inv Hr. apply tight_refl.
  - eapply call_owned; [done | | done]. intros v v' h1 Hr. eapply Resize_tight, Hr.
  - eapply call_owned; [done | | done]. intros v v' h1 Hr. eapply PushBack_tight, Hr.
  - eapply call_owned; [done | | done]. intros v v' h1 Hr.
    bind_inv Hr as Hi. ret_inv Hr. eapply Insert_tight, Hi.
  - eapply call_owned; [done | | done]. intros v v' h1 Hr. ret_inv Hr.
    replace (items_ (PopBack v)) with (items_ v); [apply tight_refl|].
    unfold PopBack. by destruct (negb _).
  - eapply call_owned; [done | | done]. intros v v' h1 Hr.
    bind_inv Hr as He. ret_inv Hr. eapply Erase_tight, He.
  - destruct (σ !! a) as [v|] eqn:Ha; [|done].
    destruct (σ !! other) as [o|] eqn:Ho; [|done].
    simpl in H. ret_inv H. intros l Hl.
    destruct (Hown l Hl) as (a2 & v2 & Ha2 & Hv2).
    destruct (decide (a2 = a)) as [->|Hna].
    + destruct (decide (a = other)) as [->|Hno].
      * exists other, o. rewrite lookup_insert_eq. split; [done|]. congruence.
      * exists other, v. rewrite lookup_insert_ne, lookup_insert_eq by done.
        split; [done|]. congruence.
    + destruct (decide (a2 = other)) as [->|Hno].
      * exists a, o. rewrite lookup_insert_eq. split; [done|]. congruence.
      * exists a2, v2. by rewrite !lookup_insert_ne.
  - eapply call_owned; [done | | done]. intros v v' h1 Hr. eapply Reserve_tight, Hr.
Qed.

(** X21: a client program leaks no block: in every state it reaches,
    each live block of the heap is the block of one of its vectors.
    Whatever [Reserve], the growing operations and the assignment
    operators replace, they free. *)
Theorem X21_no_block_is_leaked cs σ h :
  run cs ∅ ∅ = Ok (σ, h) →
  ∀ l, is_Some (h !! l) → ∃ a v, σ !! a = Some v ∧ items_ v = Some l.
Proof.
  assert (Hgen : ∀ cs σ0 h0 σ h, all_owned σ0 h0 → run cs σ0 h0 = Ok (σ, h) → all_owned σ h).
  { clear. induction cs as [|c cs IH]; intros σ0 h0 σ h Hown H; simpl in H.
    - by ret_inv H.
    - bind_inv H as Hc. eapply IH; [|done]. by eapply exec_owned. }
  intros Hrun. eapply Hgen; [|done].
  intros l Hl. rewrite lookup_empty in Hl. by destruct Hl.
Qed.

(** X22: the iterators and the two accessors name the same slots:
    [end() - begin()] is the size, and for every index below the size
    [begin() + i], [operator[](i)] and [At(i)] are one slot, whose
    value is the element at [i]; reading changes nothing. *)
Theorem X22_iterators_and_accessors_agree h v xs :
  elements h v = Some xs →
  distance (begin v) (end_ v) h = Ok (GetSize v, h)
  ∧ distance (cbegin v) (cend v) h = Ok (N.of_nat (length xs), h)
  ∧ ∀ i x, xs !! i = Some x →
      ptr_add (begin v) (N.of_nat i) = operator_index v (N.of_nat i)
      ∧ At v (N.of_nat i) h = Ok (operator_index v (N.of_nat i), h)
      ∧ load (operator_index v (N.of_nat i)) h = Ok (x, h).
Proof.
  intros Hxs. pose proof (elements_length _ _ _ Hxs) as Hlen.
  assert (Hd : distance (begin v) (end_ v) h = Ok (GetSize v, h)).
  { unfold distance, begin, end_, Get, slot, GetSize. simpl.
    rewrite decide_True by (split; [done | lia]). by rewrite N.sub_0_r. }
  split; [done|]. split; [by rewrite Hlen|].
  intros i x Hx. pose proof (lookup_lt_Some _ _ _ Hx) as Hi.
  split; [done|]. split.
  - unfold At. by rewrite decide_False by lia.
  - destruct (elements_inv _ _ _ Hxs) as (b & Hb & Hle & ->).
    rewrite length_take in Hi.
    eapply load_Ok; [exact Hb|]. simpl. rewrite Nat2N.id.
    rewrite lookup_take_lt in Hx by lia. done.
Qed.

(** X23: [Clear] keeps the capacity and the block, so a cleared vector
    takes up to [capacity] items again without reallocating, and then
    holds exactly these items. *)
Theorem X23_Clear_keeps_the_block_for_reuse h v items :
  wf h v → N.of_nat (length items) ≤ GetCapacity v →
  IsEmpty (Clear v) = true
  ∧ GetCapacity (Clear v) = GetCapacity v
  ∧ elements h (Clear v) = Some []
  ∧ ∃ v' h', PushBack_all (Clear v) items h = Ok (v', h')
      ∧ elements h' v' = Some items
      ∧ GetCapacity v' = GetCapacity v
      ∧ items_ v' = items_ v
      ∧ preserves (items_ v) h h'.
Proof.
  intros (b & Hb & Hlen & Hs & Hc) Hroom. unfold GetCapacity in *.
  assert (Hwf : wf h (Clear v)).
  { exists b. simpl. repeat split; [done | done | lia | done]. }
  assert (Hel : elements h (Clear v) = Some []).
  { unfold elements. simpl. rewrite Hb. done. }
  split; [done|]. split; [done|]. split; [done|].
  destruct (PushBack_all_in_place items h (Clear v) [] Hwf Hel) as (h' & Hall & Hel' & Hp).
  { simpl. lia. }
  eexists _, h'. split; [exact Hall|]. done.
Qed.

End Model.


(** * The claims on vectors of numbers

    Elements are natural numbers, [Type()] is [0]. *)

Ltac concrete := first [reflexivity | lia | by vm_compute].

(** Slots that exist between [size_] and [capacity_] need not hold
    default values: after [PopBack] the slot still holds the popped
    value. *)
Example PopBack_leaves_a_stale_slot :
  run 0%nat [NewInit 0%nat [1%nat]; DoPopBack 0%nat] ∅ ∅
  = Ok ({[0%nat := MkVec 0 1 (Some 1%positive)]}, {[1%positive := [1%nat]]})
  ∧ ¬ spec_invariant 0%nat {[1%positive := [1%nat]]} (MkVec 0 1 (Some 1%positive)).
Proof.
  split; [by vm_compute|].
  intros (_ & b & Hb & _ & Hall). vm_compute in Hb. injection Hb as <-.
  specialize (Hall 0%N). simpl in Hall.
  assert (Some 1%nat = Some 0%nat) as [=]. apply Hall; lia.
Qed.

(** The constructor from a reservation hint allocates nothing: the
    ten slots of [0, 10) do not exist. *)
Example reserved_vector_breaks_spec_invariant :
  run 0%nat [NewReserve 0%nat 10] ∅ ∅ = Ok ({[0%nat := MkVec 0 10 None]}, ∅)
  ∧ ¬ spec_invariant 0%nat ∅ (MkVec 0 10 None).
Proof.
  split; [by vm_compute|].
  intros (_ & b & Hb & Hlen & _). injection Hb as <-. simpl in Hlen. lia.
Qed.

Lemma C1_witness :
  (let h : heap nat := ∅ in
   ∃ v, SimpleVector_reserve 0%nat (Reserve_proxy 10) h = Ok (v, h)
        ∧ GetSize v = 0 ∧ GetCapacity v = 10
        ∧ block_of h (items_ v) = Some []
        ∧ ¬ spec_invariant 0%nat h v)
  ∧ (let h : heap nat := {[1%positive := [1; 2; 3; 0]%nat]} in
     let v := MkVec 3 4 (Some 1%positive) in
     ∃ c h', SimpleVector_copy 0%nat v h = Ok (c, h')
       ∧ GetSize c = 3 ∧ GetCapacity c = 4
       ∧ block_of h' (items_ c) = Some [1; 2; 3]%nat
       ∧ N.of_nat (length [1; 2; 3]%nat) < GetCapacity c
       ∧ ¬ spec_invariant 0%nat h' c).
Proof.
  destruct (C1_constructors_break_the_invariant 0%nat) as [Hreserve Hcopy]. split.
  - apply (Hreserve 10 ∅). lia.
  - apply (Hcopy {[1%positive := [1; 2; 3; 0]%nat]} (MkVec 3 4 (Some 1%positive))
             [1; 2; 3]%nat).
    + exists [1; 2; 3; 0]%nat. repeat split; concrete.
    + by vm_compute.
    + simpl. lia.
Defined.

(** Three calls of [PushBack] leave capacity 4 over a block of 4
    slots; the copy has capacity 4 over a block of 3. *)
Example copied_vector_breaks_spec_invariant :
  match run 0%nat [NewDefault 0%nat; DoPushBack 0%nat (Temporary 1%nat);
                   DoPushBack 0%nat (Temporary 2%nat); DoPushBack 0%nat (Temporary 3%nat);
                   NewCopy 1%nat 0%nat] ∅ ∅ with
  | Ok (σ, h) =>
      (v ← σ !! 1%nat; b ← block_of h (items_ v); Some (GetSize v, GetCapacity v, b))
  | _ => None
  end
  = Some (3, 4, [1; 2; 3]%nat).
Proof. by vm_compute. Qed.

Lemma C2_witness :
  ∃ v, SimpleVector_reserve 0%nat (Reserve_proxy 10) ∅ = Ok (v, ∅)
       ∧ GetSize v = 0 ∧ GetCapacity v = 10 ∧ items_ v = None
       ∧ PushBack 0%nat v (Temporary 1%nat) ∅ = Undefined.
Proof.
  apply (C2_reserved_vector_has_no_block 0%nat 10 (Temporary 1%nat) ∅). lia.
Defined.

(** The scenario of the specification: the ten calls of [PushBack]
    after [Reserve(10)] stop at the first one. *)
Example reserve_then_push_is_undefined :
  run 0%nat [NewReserve 0%nat 10; DoPushBack 0%nat (Temporary 1%nat)] ∅ ∅ = Undefined.
Proof. by vm_compute. Qed.

Lemma C3_witness :
  ∃ v', Resize 0%nat (MkVec 1 3 (Some 1%positive)) 3 {[1%positive := [1; 2; 3]%nat]}
        = Ok (v', {[1%positive := [1; 2; 3]%nat]})
        ∧ GetSize v' = 3 ∧ GetCapacity v' = 3
        ∧ elements {[1%positive := [1; 2; 3]%nat]} v' = Some [1; 2; 3]%nat.
Proof.
  apply (C3_Resize_within_capacity_keeps_the_slots 0%nat
           {[1%positive := [1; 2; 3]%nat]} (MkVec 1 3 (Some 1%positive)) 3
           [1; 2; 3]%nat).
  - vm_compute. reflexivity.
  - reflexivity.
  - simpl. lia.
  - simpl. lia.
Defined.

(** {1, 2, 3}, [Resize(1)], [Resize(3)]: index 1 reads 2, not 0. *)
Example resize_down_then_up_reads_old_values :
  (v ← SimpleVector_init 0%nat [1; 2; 3]%nat;
   v ← Resize 0%nat v 1;
   v ← Resize 0%nat v 3;
   p ← At v 1; load p) ∅
  = Ok (2%nat, {[1%positive := [1; 2; 3]%nat]}).
Proof. by vm_compute. Qed.

(** [SimpleVector<T>(2, 7)]: both elements read 0. *)
Example fill_constructor_leaves_defaults :
  returned ((v ← SimpleVector_fill 0%nat 2 7%nat;
             p ← At v 0; x0 ← load p;
             p ← At v 1; x1 ← load p;
             mret (x0, x1)) ∅)
  = Some (0%nat, 0%nat).
Proof. by vm_compute. Qed.

Lemma C5_witness :
  let h : heap nat := {[1%positive := [1; 2; 3]%nat]} in
  let v := MkVec 3 3 (Some 1%positive) in
  read (Lvalue (operator_index v 0)) h = Ok (1%nat, h)
  ∧ PushBack 0%nat v (Lvalue (operator_index v 0)) h = Undefined.
Proof.
  intros h v.
  apply (C5_PushBack_of_own_element_reads_freed_block 0%nat h v 0 [1; 2; 3]%nat 1%nat).
  - exists [1; 2; 3]%nat. repeat split; concrete.
  - by vm_compute.
  - reflexivity.
  - reflexivity.
  - by vm_compute.
Defined.

(** {1, 2, 3} is full: [v.PushBack(v[0])] is undefined, and
    [v.PushBack(1)] with a temporary appends. *)
Example push_of_own_element_is_undefined :
  run 0%nat [NewInit 0%nat [1; 2; 3]%nat;
             DoPushBack 0%nat (Lvalue (Ptr (Some 1%positive) 0))] ∅ ∅
  = Undefined
  ∧ match run 0%nat [NewInit 0%nat [1; 2; 3]%nat; DoPushBack 0%nat (Temporary 1%nat)] ∅ ∅ with
    | Ok (σ, h) => (σ !! 0%nat) ≫= elements h
    | _ => None
    end
    = Some [1; 2; 3; 1]%nat.
Proof. split; by vm_compute. Qed.

(** With room to spare the same call appends the element. *)
Example push_of_own_element_with_room :
  match run 0%nat [NewDefault 0%nat; DoPushBack 0%nat (Temporary 1%nat);
                   DoPushBack 0%nat (Temporary 2%nat); DoPushBack 0%nat (Temporary 3%nat);
                   DoPushBack 0%nat (Lvalue (Ptr (Some 3%positive) 0))] ∅ ∅ with
  | Ok (σ, h) => (σ !! 0%nat) ≫= elements h
  | _ => None
  end
  = Some [1; 2; 3; 1]%nat.
Proof. by vm_compute. Qed.

(** Five calls from the empty vector end with capacity 8. *)
Example five_pushes_reach_capacity_8 :
  returned ((v ← PushBack_all 0%nat SimpleVector_default [1; 2; 3; 4; 5]%nat;
             mret (GetSize v, GetCapacity v)) ∅)
  = Some (5, 8).
Proof. by vm_compute. Qed.

Lemma C6_witness :
  let h : heap nat := {[1%positive := [1; 2; 3; 0]%nat]} in
  let v := MkVec 3 4 (Some 1%positive) in
  read (Lvalue (operator_index v 2)) h = Ok (3%nat, h)
  ∧ ∃ v' h', Insert 0%nat v (ptr_add (begin v) 0) (Lvalue (operator_index v 2)) h
             = Ok ((ptr_add (begin v') 0, v'), h')
      ∧ elements h' v' = Some [2; 1; 2; 3]%nat.
Proof.
  intros h v.
  destruct (C6_Insert_of_own_element_reads_after_the_shift 0%nat h v 0 2 [1; 2; 3]%nat 3%nat)
    as (Hread & Hroom & _).
  - exists [1; 2; 3; 0]%nat. repeat split; concrete.
  - by vm_compute.
  - reflexivity.
  - reflexivity.
  - simpl. lia.
  - split; [exact Hread|].
    destruct Hroom as (y & v' & h' & Hy & Hins & Hel); [simpl; lia|].
    injection Hy as <-. by exists v', h'.
Defined.

(** The scenario of the specification, with a temporary: {1, 2, 3},
    [Insert(begin() + 1, 9)] gives {1, 9, 2, 3}.  Inserting the own
    element [v[2]] at [begin()] with capacity 4 gives {2, 1, 2, 3}, and
    on the full vector {1, 2, 3} it is undefined. *)
Example insert_scenarios :
  match (v ← SimpleVector_init 0%nat [1; 2; 3]%nat;
         Insert 0%nat v (ptr_add (begin v) 1) (Temporary 9%nat)) ∅ with
  | Ok (r, h) => elements h (snd r)
  | _ => None
  end
  = Some [1; 9; 2; 3]%nat
  ∧ match (v ← PushBack_all 0%nat SimpleVector_default [1; 2; 3]%nat;
           Insert 0%nat v (begin v) (Lvalue (operator_index v 2))) ∅ with
    | Ok (r, h) => Some (GetCapacity (snd r), elements h (snd r))
    | _ => None
    end
    = Some (4, Some [2; 1; 2; 3]%nat)
  ∧ (v ← SimpleVector_init 0%nat [1; 2; 3]%nat;
     Insert 0%nat v (begin v) (Lvalue (operator_index v 2))) ∅
    = Undefined.
Proof. repeat split; by vm_compute. Qed.

Lemma C7_witness :
  (At (MkVec 3 3 (Some 1%positive)) 1 {[1%positive := [1; 2; 3]%nat]} = OutOfRange ↔ 3 ≤ 1)
  ∧ (1 < 3 →
     ∃ x, [1; 2; 3]%nat !! N.to_nat 1 = Some x
          ∧ At (MkVec 3 3 (Some 1%positive)) 1 {[1%positive := [1; 2; 3]%nat]}
            = Ok (operator_index (MkVec 3 3 (Some 1%positive)) 1,
                  {[1%positive := [1; 2; 3]%nat]})
          ∧ (p ← At (MkVec 3 3 (Some 1%positive)) 1; load p) {[1%positive := [1; 2; 3]%nat]}
            = Ok (x, {[1%positive := [1; 2; 3]%nat]}))
  ∧ At (MkVec 3 3 (Some 1%positive)) 3 {[1%positive := [1; 2; 3]%nat]} = OutOfRange
  ∧ (0 < 3 → ∃ p, At (MkVec 3 3 (Some 1%positive)) (3 - 1) {[1%positive := [1; 2; 3]%nat]}
                  = Ok (p, {[1%positive := [1; 2; 3]%nat]})).
Proof.
  apply (C7_At_bounds_checked {[1%positive := [1; 2; 3]%nat]} (MkVec 3 3 (Some 1%positive))
           [1; 2; 3]%nat 1).
  vm_compute. reflexivity.
Defined.

Lemma C8_witness :
  ∃ c h', SimpleVector_copy 0%nat (MkVec 3 4 (Some 1%positive))
                            {[1%positive := [1; 2; 3; 0]%nat]} = Ok (c, h')
    ∧ elements h' c = Some [1; 2; 3]%nat
    ∧ elements h' (MkVec 3 4 (Some 1%positive)) = Some [1; 2; 3]%nat
    ∧ (∀ l, items_ c = Some l → Some 1%positive ≠ Some l)
    ∧ GetCapacity c = 4
    ∧ block_of h' (items_ c) = Some [1; 2; 3]%nat
    ∧ PushBack 0%nat c (Temporary 4%nat) h' = Undefined.
Proof.
  apply (C8_copy_with_spare_capacity_overflows 0%nat {[1%positive := [1; 2; 3; 0]%nat]}
           (MkVec 3 4 (Some 1%positive)) (Temporary 4%nat) [1; 2; 3]%nat).
  - exists [1; 2; 3; 0]%nat. repeat split; concrete.
  - by vm_compute.
  - simpl. lia.
Defined.

(** Three calls of [PushBack] leave capacity 4; a copy of that vector
    cannot take a fourth element. *)
Example push_on_a_copy_is_undefined :
  run 0%nat [NewDefault 0%nat; DoPushBack 0%nat (Temporary 1%nat); DoPushBack 0%nat (Temporary 2%nat);
             DoPushBack 0%nat (Temporary 3%nat); NewCopy 1%nat 0%nat; DoPushBack 1%nat (Temporary 4%nat)] ∅ ∅
  = Undefined.
Proof. by vm_compute. Qed.

Lemma C9_witness :
  let h : heap nat := <[2%positive := [1; 2; 3; 0; 0]%nat]> {[1%positive := [1; 2; 3]%nat]} in
  let lhs := MkVec 3 3 (Some 1%positive) in
  let rhs := MkVec 3 5 (Some 2%positive) in
  (∃ r, operator_eq Nat.eqb lhs rhs h = Ok (r, h)
        ∧ (r = true ↔ same_elements Nat.eqb [1; 2; 3]%nat [1; 2; 3]%nat))
  ∧ (∃ r, operator_lt Nat.ltb lhs rhs h = Ok (r, h)
          ∧ (r = true ↔ lexicographic Nat.ltb [1; 2; 3]%nat [1; 2; 3]%nat))
  ∧ ((∀ x, Nat.eqb x x = true) → [1; 2; 3]%nat = [1; 2; 3]%nat →
     operator_eq Nat.eqb lhs rhs h = Ok (true, h)).
Proof.
  intros h lhs rhs.
  apply (C9_equality_and_lexicographic_order Nat.eqb Nat.ltb h lhs rhs).
  - vm_compute. reflexivity.
  - vm_compute. reflexivity.
Defined.

(** Lexicographic comparison of {1, 2} and {1, 3}, and of a prefix. *)
Example less_than_examples :
  returned ((a ← SimpleVector_init 0%nat [1; 2]%nat;
             b ← SimpleVector_init 0%nat [1; 3]%nat;
             c ← SimpleVector_init 0%nat [1]%nat;
             ab ← operator_lt Nat.ltb a b;
             ba ← operator_lt Nat.ltb b a;
             ca ← operator_lt Nat.ltb c a;
             aa ← operator_lt Nat.ltb a a;
             mret (ab, ba, ca, aa)) ∅)
  = Some (true, false, true, false).
Proof. by vm_compute. Qed.

(** * The further properties on vectors of numbers *)

Lemma X1_witness :
  let h : heap nat := <[2%positive := [1; 3]%nat]> {[1%positive := [1; 2]%nat]} in
  let lhs := MkVec 2 2 (Some 1%positive) in
  let rhs := MkVec 2 2 (Some 2%positive) in
  ∃ ne gt le ge,
    operator_ne Nat.eqb lhs rhs h = Ok (ne, h)
    ∧ (ne = true ↔ ¬ same_elements Nat.eqb [1; 2]%nat [1; 3]%nat)
    ∧ operator_gt Nat.ltb lhs rhs h = Ok (gt, h)
    ∧ (gt = true ↔ lexicographic Nat.ltb [1; 3]%nat [1; 2]%nat)
    ∧ operator_le Nat.ltb lhs rhs h = Ok (le, h)
    ∧ (le = true ↔ ¬ lexicographic Nat.ltb [1; 3]%nat [1; 2]%nat)
    ∧ operator_ge Nat.ltb lhs rhs h = Ok (ge, h)
    ∧ (ge = true ↔ ¬ lexicographic Nat.ltb [1; 2]%nat [1; 3]%nat).
Proof.
  intros h lhs rhs.
  apply (X1_comparison_operators Nat.eqb Nat.ltb h lhs rhs); vm_compute; reflexivity.
Defined.

(** {1, 2} against {1, 3}: [!=], [<=] hold, [>], [>=] do not. *)
Example comparison_examples :
  returned ((a ← SimpleVector_init 0%nat [1; 2]%nat;
             b ← SimpleVector_init 0%nat [1; 3]%nat;
             ne ← operator_ne Nat.eqb a b;
             gt ← operator_gt Nat.ltb a b;
             le ← operator_le Nat.ltb a b;
             ge ← operator_ge Nat.ltb a b;
             mret (ne, gt, le, ge)) ∅)
  = Some (true, false, true, false).
Proof. by vm_compute. Qed.

Lemma X2_witness :
  let h : heap nat := {[1%positive := [1; 2; 3]%nat]} in
  let v := MkVec 3 3 (Some 1%positive) in
  operator_lt Nat.ltb v v h = Ok (false, h)
  ∧ operator_le Nat.ltb v v h = Ok (true, h)
  ∧ operator_ge Nat.ltb v v h = Ok (true, h).
Proof.
  intros h v. apply (X2_comparison_with_itself Nat.ltb h v [1; 2; 3]%nat).
  - vm_compute. reflexivity.
  - intros x. apply Nat.ltb_irrefl.
Defined.

Lemma X3_witness :
  let h : heap nat := {[1%positive := [1; 2; 3]%nat]} in
  let v := MkVec 3 3 (Some 1%positive) in
  ∃ v' h', Erase v (ptr_add (begin v) 1) h = Ok ((ptr_add (begin v') 1, v'), h')
    ∧ elements h' v' = Some [1; 3]%nat
    ∧ GetSize v' = 2
    ∧ GetCapacity v' = 3
    ∧ items_ v' = Some 1%positive
    ∧ preserves (Some 1%positive) h h'.
Proof.
  intros h v. apply (X3_Erase_removes_one_element h v 1 [1; 2; 3]%nat).
  - vm_compute. reflexivity.
  - simpl. lia.
  - reflexivity.
Defined.

Lemma X4_witness :
  Erase (MkVec 3 3 (Some 1%positive)) (ptr_add (begin (MkVec 3 3 (Some 1%positive))) 3)
        ({[1%positive := [1; 2; 3]%nat]} : heap nat)
  = Undefined.
Proof. apply X4_Erase_at_or_past_end_is_undefined. simpl. lia. Defined.

Lemma X5_witness :
  Insert 0%nat (MkVec 3 3 (Some 1%positive))
         (ptr_add (begin (MkVec 3 3 (Some 1%positive))) 4) (Temporary 9%nat)
         {[1%positive := [1; 2; 3]%nat]}
  = Undefined.
Proof.
  apply X5_Insert_past_end_is_undefined.
  - exists [1; 2; 3]%nat. repeat split; concrete.
  - simpl. lia.
Defined.

Lemma X6_witness :
  let h : heap nat := {[1%positive := [1; 2; 3]%nat]} in
  let v := MkVec 3 3 (Some 1%positive) in
  elements h (PopBack v) = Some [1; 2]%nat
  ∧ GetSize (PopBack v) = 2
  ∧ GetCapacity (PopBack v) = 3
  ∧ items_ (PopBack v) = Some 1%positive.
Proof.
  intros h v.
  destruct (X6_PopBack_drops_the_last_element h v [1; 2; 3]%nat) as [Hpop _].
  - vm_compute. reflexivity.
  - reflexivity.
  - apply Hpop. reflexivity.
Defined.

(** With assertions compiled out, [PopBack] on the empty vector is the
    identity. *)
Example PopBack_on_empty_vector : PopBack SimpleVector_default = SimpleVector_default.
Proof. reflexivity. Qed.

(** The vector is full and the item is an element of another vector. *)
Lemma X7_witness :
  let h : heap nat := <[2%positive := [4%nat]]> {[1%positive := [1; 2; 3]%nat]} in
  let v := MkVec 3 3 (Some 1%positive) in
  let item := Lvalue (Ptr (Some 2%positive) 0) in
  ∃ v' h', PushBack 0%nat v item h = Ok (v', h')
    ∧ IsEmpty v' = false
    ∧ elements h' (PopBack v') = Some [1; 2; 3]%nat
    ∧ GetSize (PopBack v') = 3
    ∧ 3 ≤ GetCapacity (PopBack v').
Proof.
  intros h v item. apply (X7_PushBack_then_PopBack 0%nat h v item 4%nat [1; 2; 3]%nat).
  - exists [1; 2; 3]%nat. repeat split; concrete.
  - vm_compute. reflexivity.
  - vm_compute. reflexivity.
  - intros _. simpl. intros [=].
  - intros _. reflexivity.
Defined.

Lemma X8_witness :
  let h : heap nat := {[1%positive := [1; 2; 3]%nat]} in
  let v := MkVec 3 3 (Some 1%positive) in
  ∃ pos v1 h1 r h2,
    Insert 0%nat v (ptr_add (begin v) 1) (Temporary 9%nat) h = Ok ((pos, v1), h1)
    ∧ Erase v1 pos h1 = Ok (r, h2)
    ∧ elements h2 (snd r) = Some [1; 2; 3]%nat
    ∧ GetSize (snd r) = 3.
Proof.
  intros h v.
  apply (X8_Insert_then_Erase 0%nat h v 1 (Temporary 9%nat) 9%nat [1; 2; 3]%nat).
  - exists [1; 2; 3]%nat. repeat split; concrete.
  - vm_compute. reflexivity.
  - simpl. lia.
  - reflexivity.
  - exact I.
  - intros _. reflexivity.
Defined.

(** A vector as the copy constructor leaves it (3 slots under capacity
    8) gets its 8 slots from [Reserve(8)]. *)
Lemma X9_witness :
  let h : heap nat := {[1%positive := [1; 2; 3]%nat]} in
  let v := MkVec 3 8 (Some 1%positive) in
  ∃ v' h', Reserve 0%nat v 8 h = Ok (v', h')
    ∧ GetSize v' = 3 ∧ GetCapacity v' = 8
    ∧ elements h' v' = Some [1; 2; 3]%nat
    ∧ block_of h' (items_ v') = Some [1; 2; 3; 0; 0; 0; 0; 0]%nat
    ∧ wf h' v'.
Proof.
  intros h v.
  destruct (X9_Reserve_reallocates_to_exactly_n 0%nat h v 8 [1; 2; 3]%nat) as [Hgrow _].
  - exists [1; 2; 3]%nat. repeat split; concrete.
  - vm_compute. reflexivity.
  - apply Hgrow; [simpl; lia | reflexivity].
Defined.

Lemma X10_witness :
  ∃ v1 h1 v2 h2,
    Reserve 0%nat SimpleVector_default 10 ∅ = Ok (v1, h1)
    ∧ PushBack_all 0%nat v1 [1; 2; 3; 4; 5; 6; 7; 8; 9; 10]%nat h1 = Ok (v2, h2)
    ∧ GetCapacity v2 = 10
    ∧ items_ v2 = items_ v1
    ∧ preserves (items_ v1) h1 h2
    ∧ elements h2 v2 = Some [1; 2; 3; 4; 5; 6; 7; 8; 9; 10]%nat.
Proof.
  apply (X10_no_reallocation_within_reserved_capacity 0%nat ∅ SimpleVector_default 10 []
           [1; 2; 3; 4; 5; 6; 7; 8; 9; 10]%nat).
  - exists []. repeat split; concrete.
  - vm_compute. reflexivity.
  - simpl. lia.
  - reflexivity.
  - simpl. lia.
Defined.

Lemma X11_witness :
  ∃ v h', SimpleVector_init 0%nat [1; 2; 3]%nat ∅ = Ok (v, h')
    ∧ GetSize v = 3 ∧ GetCapacity v = 3
    ∧ elements h' v = Some [1; 2; 3]%nat
    ∧ wf h' v
    ∧ evolves None (items_ v) ∅ h'.
Proof. apply (X11_initializer_list_constructor 0%nat [1; 2; 3]%nat ∅). reflexivity. Defined.


Lemma X15_witness :
  let h : heap nat := <[2%positive := [7%nat]]> {[1%positive := [1; 2; 3]%nat]} in
  let c := MkVec 3 3 (Some 1%positive) in
  let v := MkVec 1 1 (Some 2%positive) in
  (∀ item c' h', PushBack 0%nat c item h = Ok (c', h') → elements h' v = elements h v)
  ∧ (∀ pos value r h', Insert 0%nat c pos value h = Ok (r, h') → elements h' v = elements h v)
  ∧ (∀ pos r h', Erase c pos h = Ok (r, h') → elements h' v = elements h v)
  ∧ (∀ n c' h', Resize 0%nat c n h = Ok (c', h') → elements h' v = elements h v)
  ∧ (∀ n c' h', Reserve 0%nat c n h = Ok (c', h') → elements h' v = elements h v).
Proof.
  intros h c v. apply (X15_a_call_leaves_other_vectors_alone 0%nat h c v).
  - exists [1; 2; 3]%nat. repeat split; concrete.
  - exists [7%nat]. repeat split; concrete.
  - left. simpl. intros [=].
Defined.

Lemma X16_witness :
  let σ : gmap nat SimpleVector :=
    <[1%nat := MkVec 3 4 (Some 4%positive)]> {[0%nat := MkVec 3 4 (Some 3%positive)]} in
  let h : heap nat := <[4%positive := [5; 6; 7]%nat]> {[3%positive := [5; 6; 7; 0]%nat]} in
  (∀ a1 a2 v1 v2 l, σ !! a1 = Some v1 → σ !! a2 = Some v2 →
     items_ v1 = Some l → items_ v2 = Some l → a1 = a2)
  ∧ (∀ a v l, σ !! a = Some v → items_ v = Some l → is_Some (h !! l)).
Proof.
  intros σ h.
  apply (X16_blocks_are_owned_exclusively 0%nat
           [NewDefault 0%nat; DoPushBack 0%nat (Temporary 5%nat); DoPushBack 0%nat (Temporary 6%nat);
            DoPushBack 0%nat (Temporary 7%nat); NewCopy 1%nat 0%nat] σ h).
  vm_compute. reflexivity.
Defined.

Lemma X17_witness :
  let h : heap nat := {[2%positive := [1; 2; 3; 4; 0; 0]%nat]} in
  let v := MkVec 3 6 (Some 2%positive) in
  ∃ b, block_of h (items_ v) = Some b
       ∧ N.of_nat (length b) = GetCapacity v
       ∧ GetSize v ≤ GetCapacity v.
Proof.
  intros h v.
  apply (X17_without_copies_blocks_have_capacity_slots 0%nat
           [NewInit 0%nat [1; 2; 3]%nat; DoPushBack 0%nat (Temporary 4%nat); DoPopBack 0%nat]
           {[0%nat := v]} h 0%nat v).
  - repeat (constructor; [first [exact I | reflexivity]|]). constructor.
  - vm_compute. reflexivity.
  - vm_compute. reflexivity.
Defined.

Lemma X18_witness :
  let σ : gmap nat SimpleVector :=
    <[1%nat := MkVec 3 3 (Some 2%positive)]> {[0%nat := MkVec 2 2 (Some 1%positive)]} in
  let h : heap nat := <[2%positive := [7; 8; 9]%nat]> {[1%positive := [1; 2]%nat]} in
  ∃ va' h', operator_assign 0%nat 0%nat 1%nat σ h = Ok (<[0%nat := va']> σ, h')
    ∧ GetSize va' = 3 ∧ GetCapacity va' = 3
    ∧ elements h' va' = Some [7; 8; 9]%nat
    ∧ (∀ l, items_ va' = Some l → Some 2%positive ≠ Some l)
    ∧ (∀ l, Some 1%positive = Some l → h' !! l = None)
    ∧ (∀ c vc, c ≠ 0%nat → σ !! c = Some vc → elements h' vc = elements h vc).
Proof.
  intros σ h.
  apply (X18_copy_assignment 0%nat
           [NewInit 0%nat [1; 2]%nat; NewInit 1%nat [7; 8; 9]%nat] σ h 0%nat 1%nat
           (MkVec 2 2 (Some 1%positive)) (MkVec 3 3 (Some 2%positive)) [7; 8; 9]%nat).
  - vm_compute. reflexivity.
  - lia.
  - vm_compute. reflexivity.
  - vm_compute. reflexivity.
  - vm_compute. reflexivity.
Defined.

Lemma X19_witness :
  let σ : gmap nat SimpleVector :=
    <[1%nat := MkVec 3 3 (Some 2%positive)]> {[0%nat := MkVec 2 2 (Some 1%positive)]} in
  let h : heap nat := <[2%positive := [7; 8; 9]%nat]> {[1%positive := [1; 2]%nat]} in
  let vb := MkVec 3 3 (Some 2%positive) in
  (∃ h', operator_assign_move 0%nat 1%nat σ h
         = Ok (<[0%nat := vb]> (<[1%nat := MkVec 0 0 None]> σ), h')
     ∧ elements h' vb = elements h vb
     ∧ elements h' (MkVec 0 0 None) = Some []
     ∧ (∀ l, Some 1%positive = Some l → h' !! l = None)
     ∧ (∀ c vc, c ≠ 0%nat → σ !! c = Some vc → elements h' vc = elements h vc))
  ∧ (∀ c, σ !! c = None →
       exec 0%nat (NewMove c 1%nat) σ h
       = Ok (<[c := vb]> (<[1%nat := MkVec 0 0 None]> σ), h)).
Proof.
  intros σ h vb.
  apply (X19_move_assignment_and_construction 0%nat
           [NewInit 0%nat [1; 2]%nat; NewInit 1%nat [7; 8; 9]%nat] σ h 0%nat 1%nat
           (MkVec 2 2 (Some 1%positive)) vb).
  - vm_compute. reflexivity.
  - lia.
  - vm_compute. reflexivity.
  - vm_compute. reflexivity.
Defined.

(** Move construction from a vector of five elements: the source ends
    with size 0 and capacity 0, the new vector holds the five. *)
Example move_construction_scenario :
  match run 0%nat [NewInit 0%nat [1; 2; 3; 4; 5]%nat; NewMove 1%nat 0%nat] ∅ ∅ with
  | Ok (σ, h) => Some (σ !! 0%nat, (σ !! 1%nat) ≫= elements h)
  | _ => None
  end
  = Some (Some (MkVec 0 0 None), Some [1; 2; 3; 4; 5]%nat).
Proof. by vm_compute. Qed.

Lemma X21_witness :
  let σ : gmap nat SimpleVector :=
    <[1%nat := MkVec 3 4 (Some 4%positive)]> {[0%nat := MkVec 3 4 (Some 5%positive)]} in
  let h : heap nat := <[5%positive := [5; 6; 7]%nat]> {[4%positive := [5; 6; 7]%nat]} in
  is_Some (h !! 5%positive) ∧ ∃ a v, σ !! a = Some v ∧ items_ v = Some 5%positive.
Proof.
  intros σ h.
  assert (Hlive : is_Some (h !! 5%positive)) by (vm_compute; eauto).
  split; [exact Hlive|].
  apply (X21_no_block_is_leaked 0%nat
           [NewDefault 0%nat; DoPushBack 0%nat (Temporary 5%nat); DoPushBack 0%nat (Temporary 6%nat);
            DoPushBack 0%nat (Temporary 7%nat); NewCopy 1%nat 0%nat; Assign 0%nat 1%nat] σ h);
    [vm_compute; reflexivity | exact Hlive].
Defined.

Lemma X22_witness :
  let h : heap nat := {[1%positive := [1; 2; 3; 0]%nat]} in
  let v := MkVec 3 4 (Some 1%positive) in
  distance (begin v) (end_ v) h = Ok (3, h)
  ∧ distance (cbegin v) (cend v) h = Ok (3, h)
  ∧ ∀ i x, [1; 2; 3]%nat !! i = Some x →
      ptr_add (begin v) (N.of_nat i) = operator_index v (N.of_nat i)
      ∧ At v (N.of_nat i) h = Ok (operator_index v (N.of_nat i), h)
      ∧ load (operator_index v (N.of_nat i)) h = Ok (x, h).
Proof.
  intros h v. apply (X22_iterators_and_accessors_agree h v [1; 2; 3]%nat).
  vm_compute. reflexivity.
Defined.

Lemma X23_witness :
  let h : heap nat := {[1%positive := [1; 2; 3; 0]%nat]} in
  let v := MkVec 3 4 (Some 1%positive) in
  IsEmpty (Clear v) = true
  ∧ GetCapacity (Clear v) = 4
  ∧ elements h (Clear v) = Some []
  ∧ ∃ v' h', PushBack_all 0%nat (Clear v) [7; 8; 9; 10]%nat h = Ok (v', h')
      ∧ elements h' v' = Some [7; 8; 9; 10]%nat
      ∧ GetCapacity v' = 4
      ∧ items_ v' = Some 1%positive
      ∧ preserves (Some 1%positive) h h'.
Proof.
  intros h v. apply (X23_Clear_keeps_the_block_for_reuse 0%nat h v [7; 8; 9; 10]%nat).
  - exists [1; 2; 3; 0]%nat. repeat split; concrete.
  - simpl. lia.
Defined.
